(** * LocalCacheManager (src/lib/local-cache.manager.ts)

  A shallow embedding of the cache-entry lifecycle manager and the
  properties of its read, refresh, sweep and invalidation paths.

  The manager is asynchronous JavaScript: every [async] method runs
  synchronously up to its next [await] and is resumed later, when the
  awaited promise settles.  The embedding keeps that structure: a pending
  method is a [Task] naming the [await] it is suspended at, and a
  [Resume] call carries the settlement of the awaited promise.  Calls of
  the external collaborators (durable store, producer) and the operations
  performed on the entries' subjects are recorded, in order, in a trace. *)

From Stdlib Require Import ZArith String List.
From stdpp Require Import prelude strings.

(** ** JavaScript [Map]: unique keys, iteration in insertion order *)

Module JsMap.
Section JsMap.
Context {K V : Type} `{EqDecision K}.

Fixpoint get (k : K) (m : list (K * V)) : option V :=
  match m with
  | [] => None
  | (k', v) :: m' => if decide (k' = k) then Some v else get k m'
  end.

(** [set] on a key already present keeps its position. *)
Fixpoint set (k : K) (v : V) (m : list (K * V)) : list (K * V) :=
  match m with
  | [] => [(k, v)]
  | (k', v') :: m' =>
      if decide (k' = k) then (k', v) :: m' else (k', v') :: set k v m'
  end.

Fixpoint delete (k : K) (m : list (K * V)) : list (K * V) :=
  match m with
  | [] => []
  | (k', v') :: m' =>
      if decide (k' = k) then m' else (k', v') :: delete k m'
  end.

Definition keys (m : list (K * V)) : list K := List.map fst m.

Definition entries (m : list (K * V)) : list (K * V) := m.

(** What the [Map] guarantees of its keys. *)
Definition wf (m : list (K * V)) : Prop := NoDup (keys m).
End JsMap.
End JsMap.

(** ** rxjs [ReplaySubject]

  The entry's channel is [new ReplaySubject<T>(1)] (line 65).  The class
  belongs to the rxjs library, not to this repository; the model below
  follows its implementation in rxjs 7 ([Subject] and [ReplaySubject],
  with an infinite time window): a buffer of the last [_bufferSize]
  values, the list of current observers, [isStopped] and [thrownError]
  ([hasError] holds exactly when an error was thrown).  Subscribers are
  named by numbers; [delivered] logs every notification handed to a
  subscriber, oldest first. *)

Module ReplaySubject.
Section ReplaySubject.
Context {T E : Type}.

Inductive Notification : Type :=
| NNext (value : T)
| NError (err : E)
| NComplete.

Record Subject : Type := Build {
  _bufferSize : nat;
  _buffer : list T;
  observers : list nat;
  isStopped : bool;
  thrownError : option E;
  delivered : list (nat * Notification)
}.

Definition hasError (s : Subject) : bool :=
  match thrownError s with Some _ => true | None => false end.

(** [new ReplaySubject(bufferSize)]: [_bufferSize = Math.max(1, bufferSize)]. *)
Definition create (bufferSize : nat) : Subject :=
  Build (Nat.max 1 bufferSize) [] [] false None [].

(** [_trimBuffer]: drop the oldest values beyond [_bufferSize]. *)
Definition _trimBuffer (s : Subject) : Subject :=
  Build (_bufferSize s)
        (drop (length (_buffer s) - _bufferSize s) (_buffer s))
        (observers s) (isStopped s) (thrownError s) (delivered s).

(** [next(value)]: buffered and handed to every observer unless stopped. *)
Definition next (value : T) (s : Subject) : Subject :=
  let s1 :=
    if isStopped s then s
    else Build (_bufferSize s) (_buffer s ++ [value]) (observers s)
               (isStopped s) (thrownError s) (delivered s) in
  let s2 := _trimBuffer s1 in
  if isStopped s2 then s2
  else Build (_bufferSize s2) (_buffer s2) (observers s2) (isStopped s2)
             (thrownError s2)
             (delivered s2 ++ List.map (λ o, (o, NNext value)) (observers s2)).

(** [error(err)]: ignored when stopped; otherwise every observer gets the
    error and the observer list is emptied. *)
Definition error (err : E) (s : Subject) : Subject :=
  if isStopped s then s
  else Build (_bufferSize s) (_buffer s) [] true (Some err)
             (delivered s ++ List.map (λ o, (o, NError err)) (observers s)).

(** [_checkFinalizedStatuses(subscriber)] *)
Definition _checkFinalizedStatuses (s : Subject) : list Notification :=
  match thrownError s with
  | Some err => [NError err]
  | None => if isStopped s then [NComplete] else []
  end.

(** [_subscribe(subscriber)]: the subscriber joins the observers unless the
    subject has ended, is replayed the buffer, then is told how the
    subject ended, if it has. *)
Definition subscribe (sid : nat) (s : Subject) : Subject :=
  let s1 := _trimBuffer s in
  Build (_bufferSize s1) (_buffer s1)
        (if hasError s1 || isStopped s1 then observers s1
         else observers s1 ++ [sid])
        (isStopped s1) (thrownError s1)
        (delivered s1
           ++ List.map (λ n, (sid, n))
                (List.map NNext (_buffer s1) ++ _checkFinalizedStatuses s1)).

(** Closing a subscription: [arrRemove(observers, subscriber)]. *)
Fixpoint arrRemove (sid : nat) (l : list nat) : list nat :=
  match l with
  | [] => []
  | o :: l' => if decide (o = sid) then l' else o :: arrRemove sid l'
  end.

Definition unsubscribe (sid : nat) (s : Subject) : Subject :=
  Build (_bufferSize s) (_buffer s) (arrRemove sid (observers s))
        (isStopped s) (thrownError s) (delivered s).

(** [get observed()]: [observers.length > 0]. *)
Definition observed (s : Subject) : bool :=
  match observers s with [] => false | _ :: _ => true end.

(** What subscriber [sid] has been handed so far. *)
Definition received (sid : nat) (s : Subject) : list Notification :=
  List.map snd (List.filter (λ p, Nat.eqb (fst p) sid) (delivered s)).

(** Histories of operations on one subject. *)
Inductive Op : Type :=
| OpNext (value : T)
| OpError (err : E)
| OpSubscribe (sid : nat)
| OpUnsubscribe (sid : nat).

Definition apply (s : Subject) (o : Op) : Subject :=
  match o with
  | OpNext v => next v s
  | OpError e => error e s
  | OpSubscribe sid => subscribe sid s
  | OpUnsubscribe sid => unsubscribe sid s
  end.

Definition run (ops : list Op) (s : Subject) : Subject :=
  fold_left apply ops s.

(** The values a history publishes with effect: those of the [next] calls
    made before the first [error]. *)
Fixpoint published (ops : list Op) : list T :=
  match ops with
  | [] => []
  | OpNext v :: ops' => v :: published ops'
  | OpError _ :: _ => []
  | _ :: ops' => published ops'
  end.

(** The error a history ends the subject with: that of its first [error]. *)
Fixpoint failure (ops : list Op) : option E :=
  match ops with
  | [] => None
  | OpError e :: _ => Some e
  | _ :: ops' => failure ops'
  end.

Definition is_value (n : Notification) : bool :=
  match n with NNext _ => true | _ => false end.
End ReplaySubject.
End ReplaySubject.

Arguments ReplaySubject.Subject : clear implicits.
Arguments ReplaySubject.Notification : clear implicits.
Arguments ReplaySubject.Op : clear implicits.

(** ** Invariants of a subject and what its operations hand out *)

Section SubjectInvariants.
Context {T E : Type}.
Import ReplaySubject.
Implicit Types (s : Subject T E) (o : Op T E).

(** What [create] establishes and every operation keeps: the buffer is within
    its size, and the subject is stopped exactly when it holds an error (the
    manager never completes a subject). *)
Definition rs_inv s : Prop :=
  1 ≤ _bufferSize s ∧ length (_buffer s) ≤ _bufferSize s
  ∧ isStopped s = hasError s.

(** What one operation hands out. *)
Definition rs_news s o : list (nat * Notification T E) :=
  match o with
  | OpNext v =>
      if isStopped s then [] else List.map (λ x, (x, NNext v)) (observers s)
  | OpError e =>
      if isStopped s then [] else List.map (λ x, (x, NError e)) (observers s)
  | OpSubscribe sid =>
      List.map (λ n, (sid, n)) (List.map NNext (_buffer s) ++ _checkFinalizedStatuses s)
  | OpUnsubscribe _ => []
  end.

(** Subscribers known to a subject: observing it, or handed something. *)
Definition rs_known sid s : Prop :=
  sid ∈ observers s ∨ sid ∈ List.map fst (delivered s).

(** From [s] to [s'] the value [v] was published: [s'] keeps [v], and no
    other value, for replay; every observer of [s] was handed [v], and
    nobody anything else; the observers are the same and [s'] has not
    failed. *)
Definition rs_published (v : T) s s' : Prop :=
  _buffer s' = [v]
  ∧ delivered s' = delivered s ++ List.map (λ x, (x, NNext v)) (observers s)
  ∧ observers s' = observers s
  ∧ isStopped s' = false ∧ thrownError s' = None.

(** From [s] to [s'] the subject was ended with the error [e]: [s'] is
    stopped and holds [e]; every observer of [s] was handed [e], and nobody
    anything else; [s'] has no observers and keeps the buffer of [s]. *)
Definition rs_failed (e : E) s s' : Prop :=
  thrownError s' = Some e ∧ isStopped s' = true
  ∧ delivered s' = delivered s ++ List.map (λ x, (x, NError e)) (observers s)
  ∧ observers s' = []
  ∧ _buffer s' = _buffer s.
End SubjectInvariants.

(** ** The manager *)

Section Manager.
Context {CacheKey CallArgs CallContext T E : Type} `{EqDecision CacheKey}.

(** The declaration of [CacheKey] (cache-key.interface) is not part of the
    sources.  [invalidateAndUpdateAsync] tests its argument for
    truthiness ([cacheKey ? ... : ...]); [truthy] is the truthiness of a
    key as a JavaScript value. *)
Variable truthy : CacheKey → bool.

(** The record handed to [storeAsync] (lines 90-94) and returned by
    [getAsync]. *)
Record CacheData : Type := mkCacheData {
  data : T;
  maxAgeMS : Z;
  createdAt : Z
}.

(** Modelled from the spec: [isCacheOutdated], imported from
    cache-storage.interface, which is not part of the sources.  The spec
    (section 3): a record is outdated when [now >= createdAt + maxAge]. *)
Definition isCacheOutdated (d : CacheData) (now : Z) : bool :=
  (now >=? createdAt d + maxAgeMS d)%Z.

(** [interface Cache].  The subject is owned by its entry (the field is
    [readonly] and nothing else holds the subject), so its state is kept
    in the entry; entries live in a heap and are named by their address. *)
Record Cache : Type := mkCache {
  key : CacheKey;
  lastArgs : CallArgs;
  context : CallContext;
  subject : ReplaySubject.Subject T E;
  initialized : bool
}.

(** Where a pending [async] method is suspended. *)
Inductive Task : Type :=
| RefreshIfOut_getAsync (key : CacheKey) (cache : nat)
    (* _refreshCacheIfOutOfDataAsync, line 76: await getAsync(key) *)
| Refresh_dataProvider (cache : nat)
    (* _refreshCacheData, line 88: await firstValueFrom(_dataProvider...) *)
| Refresh_storeAsync (cache : nat) (data : T)
    (* _refreshCacheData, line 90: await storeAsync(...) *)
| Invalidate_sweep (cacheKey : option CacheKey)
    (* invalidateAndUpdateAsync, line 42: await _removeUnobservedCachesAsync *)
| Invalidate_removeAsync (all : list CacheKey)
    (* invalidateAndUpdateAsync, line 46: await removeAsync(...) *)
| Invalidate_all (children : list nat)
    (* invalidateAndUpdateAsync, line 48: await Promise.all(...) *)
| Settled (rejection : option E).
    (* the method's promise is resolved ([None]) or rejected *)

(** How an awaited promise settles.  A method of the durable store that
    throws when it is called, instead of returning a promise that rejects,
    is the [Rejected] settlement made before any other call: the throw is
    raised in the [async] method at its [await], to the same effect.  The
    clock ([_timeStampProvider.now()]) is taken to return. *)
Inductive Response : Type :=
| GetResolved (currentCacheData : option CacheData)
| ProviderResolved (data : T)
| Resolved
| Rejected (e : E).

Inductive Event : Type :=
| EvGetAsync (t : nat) (key : CacheKey)
| EvStoreAsync (t : nat) (key : CacheKey) (d : CacheData)
| EvRemoveAsync (t : nat) (keys : list CacheKey)
| EvDataProvider (t : nat) (context : CallContext) (args : CallArgs)
| EvNext (t : nat) (cache : nat) (value : T)
| EvError (t : nat) (cache : nat) (e : E)
| EvSubscribe (cache : nat) (sid : nat)
| EvUnsubscribe (cache : nat) (sid : nat)
| EvReturn (t : nat).

Record Manager : Type := mkManager {
  _cacheStore : list (CacheKey * nat);   (* Map<CacheKey, Cache> *)
  _maxAgeInMS : Z;
  heap : list Cache;                     (* the Cache objects *)
  tasks : list Task;                     (* the async calls made so far *)
  nextSub : nat;                         (* subscriber names handed out *)
  trace : list Event
}.

(** [new LocalCacheManager(storage, dataProvider, maxAgeInMS, timeStampProvider)] *)
Definition new_manager (maxAgeInMS : Z) : Manager :=
  mkManager [] maxAgeInMS [] [] 0 [].

Definition with_store (st : list (CacheKey * nat)) (m : Manager) : Manager :=
  mkManager st (_maxAgeInMS m) (heap m) (tasks m) (nextSub m) (trace m).

Definition with_heap (h : list Cache) (m : Manager) : Manager :=
  mkManager (_cacheStore m) (_maxAgeInMS m) h (tasks m) (nextSub m) (trace m).

Definition emit (ev : Event) (m : Manager) : Manager :=
  mkManager (_cacheStore m) (_maxAgeInMS m) (heap m) (tasks m) (nextSub m)
            (trace m ++ [ev]).

Definition set_task (t : nat) (k : Task) (m : Manager) : Manager :=
  mkManager (_cacheStore m) (_maxAgeInMS m) (heap m) (<[t := k]> (tasks m))
            (nextSub m) (trace m).

(** A new async call; its name is its position in [tasks]. *)
Definition spawn (k : Task) (m : Manager) : Manager * nat :=
  (mkManager (_cacheStore m) (_maxAgeInMS m) (heap m) (tasks m ++ [k])
             (nextSub m) (trace m),
   length (tasks m)).

Definition on_subject (f : ReplaySubject.Subject T E → ReplaySubject.Subject T E)
    (c : Cache) : Cache :=
  mkCache (key c) (lastArgs c) (context c) (f (subject c)) (initialized c).

(** Lines 57-73. *)
Definition _getAndEnsureCache (k : CacheKey) (args : CallArgs)
    (ctx : CallContext) (m : Manager) : Manager * nat :=
  match JsMap.get k (_cacheStore m) with
  | Some cache => (m, cache)
  | None =>
      let cache := length (heap m) in
      let m1 :=
        with_heap (heap m ++ [mkCache k args ctx (ReplaySubject.create 1) false]) m in
      (with_store (JsMap.set k cache (_cacheStore m1)) m1, cache)
  end.

(** The filter of line 104: [key !== except && !cache.subject.observed]. *)
Definition unused (except : option CacheKey) (m : Manager)
    (entry : CacheKey * nat) : bool :=
  bool_decide (Some entry.1 ≠ except)
  && match heap m !! entry.2 with
     | Some cache => negb (ReplaySubject.observed (subject cache))
     | None => false
     end.

(** Lines 102-110.  The method has no [await]: its body runs when it is
    called. *)
Definition _removeUnobservedCachesAsync (except : option CacheKey)
    (m : Manager) : Manager :=
  let unusedCaches : list CacheKey :=
    List.map fst (List.filter (unused except m) (JsMap.entries (_cacheStore m))) in
  match unusedCaches with
  | [] => m
  | _ :: _ =>
      with_store (fold_left (λ st k, JsMap.delete k st) unusedCaches (_cacheStore m)) m
  end.

(** Lines 112-116, called by task [t]. *)
Definition _setCacheData (t cache : nat) (value : T) (m : Manager) : Manager :=
  emit (EvNext t cache value)
    (with_heap
       (alter (λ c, mkCache (key c) (lastArgs c) (context c)
                       (ReplaySubject.next value (subject c)) true)
              cache (heap m)) m).

(** Line 98: [cache.subject.error(e)]. *)
Definition subject_error (t cache : nat) (e : E) (m : Manager) : Manager :=
  emit (EvError t cache e)
    (with_heap (alter (on_subject (ReplaySubject.error e)) cache (heap m)) m).

(** The producer ([_dataProvider]) is a function of the caller's; invoked
    on line 88 as [_dataProvider.apply(cache.context, cache.lastArgs)] it
    returns an observable or throws.  [throws tr context args] is what it
    throws, if it does, when invoked with [context] and [args] after the
    events [tr]; what the observable it returns yields comes later, with
    the [Resume] of the task that awaits it. *)
Variable throws : list Event → CallContext → CallArgs → option E.

(** [_refreshCacheData(cache)], lines 86-88 and 97-99: the producer is
    invoked with the entry's context and arguments.  When it returns its
    observable, the first value of that is awaited.  When it throws, the
    [catch] of line 97 runs at once, before anything is awaited:
    [cache.subject.error(e)], and the method's promise is resolved. *)
Definition _refreshCacheData (t cache : nat) (m : Manager) : option Manager :=
  c ← heap m !! cache;
  let m1 := emit (EvDataProvider t (context c) (lastArgs c)) m in
  match throws (trace m) (context c) (lastArgs c) with
  | Some e => Some (set_task t (Settled None) (subject_error t cache e m1))
  | None => Some (set_task t (Refresh_dataProvider cache) m1)
  end.

(** Lines 88-94, when the producer settles.  A rejection is caught on line
    97; the method's own promise is resolved either way. *)
Definition resume_Refresh_dataProvider (t cache : nat) (r : Response)
    (now : Z) (m : Manager) : option Manager :=
  match r with
  | ProviderResolved value =>
      c ← heap m !! cache;
      Some (set_task t (Refresh_storeAsync cache value)
              (emit (EvStoreAsync t (key c)
                       (mkCacheData value (_maxAgeInMS m) now)) m))
  | Rejected e => Some (set_task t (Settled None) (subject_error t cache e m))
  | _ => None
  end.

(** Lines 94-99, when [storeAsync] settles. *)
Definition resume_Refresh_storeAsync (t cache : nat) (value : T)
    (r : Response) (m : Manager) : option Manager :=
  match r with
  | Resolved => Some (set_task t (Settled None) (_setCacheData t cache value m))
  | Rejected e => Some (set_task t (Settled None) (subject_error t cache e m))
  | _ => None
  end.

(** Line 77. *)
Definition cacheDataNeedsRefresh (currentCacheData : option CacheData)
    (now : Z) : bool :=
  match currentCacheData with
  | None => true
  | Some d => isCacheOutdated d now
  end.

(** Lines 76-84, when [getAsync] settles.  A rejection is not caught: the
    method's promise is rejected.  The awaited [_refreshCacheData] is the
    last thing the method does, so the task goes on as that call. *)
Definition resume_RefreshIfOut_getAsync (t : nat) (k : CacheKey)
    (cache : nat) (r : Response) (now : Z) (m : Manager) : option Manager :=
  match r with
  | GetResolved currentCacheData =>
      if cacheDataNeedsRefresh currentCacheData now
      then _refreshCacheData t cache m
      else
        c ← heap m !! cache;
        match currentCacheData with
        | Some d =>
            if negb (initialized c)
            then Some (set_task t (Settled None) (_setCacheData t cache (data d) m))
            else Some (set_task t (Settled None) m)
        | None => Some (set_task t (Settled None) m)
        end
  | Rejected e => Some (set_task t (Settled (Some e)) m)
  | _ => None
  end.

(** Lines 30-39; the result names the entry whose subject the returned
    observable wraps.  [_refreshCacheIfOutOfDataAsync] runs up to its
    [await getAsync(key)] and is not waited for. *)
Definition getCache (k : CacheKey) (args : CallArgs) (ctx : CallContext)
    (m : Manager) : Manager * nat :=
  let '(m1, cache) := _getAndEnsureCache k args ctx m in
  let m2 := _removeUnobservedCachesAsync (Some k) m1 in
  let '(m3, t) := spawn (RefreshIfOut_getAsync k cache) m2 in
  (emit (EvGetAsync t k) m3, cache).

(** Lines 41-42: the sweep runs at the call, then the method awaits. *)
Definition invalidateAndUpdateAsync (cacheKey : option CacheKey)
    (m : Manager) : Manager * nat :=
  spawn (Invalidate_sweep cacheKey) (_removeUnobservedCachesAsync None m).

(** Line 44. *)
Definition allToInvalidateAndUpdate (cacheKey : option CacheKey)
    (m : Manager) : list CacheKey :=
  match cacheKey with
  | Some k => if truthy k then [k] else JsMap.keys (_cacheStore m)
  | None => JsMap.keys (_cacheStore m)
  end.

(** Lines 44-46. *)
Definition resume_Invalidate_sweep (t : nat) (cacheKey : option CacheKey)
    (r : Response) (m : Manager) : option Manager :=
  match r with
  | Resolved =>
      let all := allToInvalidateAndUpdate cacheKey m in
      Some (set_task t (Invalidate_removeAsync all) (emit (EvRemoveAsync t all) m))
  | _ => None
  end.

(** Lines 48-54: the callbacks of [map] run in order, each up to the
    [await] inside [_refreshCacheData] (when the producer throws, that is
    after the [catch] has called [error], before the next callback runs);
    the refreshes started are the children [Promise.all] waits for. *)
Fixpoint refresh_each (all : list CacheKey) (m : Manager)
    : option (Manager * list nat) :=
  match all with
  | [] => Some (m, [])
  | k :: all' =>
      match JsMap.get k (_cacheStore m) with
      | Some cache =>
          let '(m1, t') := spawn (Refresh_dataProvider cache) m in
          m2 ← _refreshCacheData t' cache m1;
          '(m3, children) ← refresh_each all' m2;
          Some (m3, t' :: children)
      | None => refresh_each all' m
      end
  end.

Definition resume_Invalidate_removeAsync (t : nat) (all : list CacheKey)
    (r : Response) (m : Manager) : option Manager :=
  match r with
  | Resolved =>
      '(m1, children) ← refresh_each all m;
      Some (set_task t (Invalidate_all children) m1)
  | Rejected e => Some (set_task t (Settled (Some e)) m)
  | _ => None
  end.

Definition settled (m : Manager) (t : nat) : bool :=
  match tasks m !! t with
  | Some (Settled _) => true
  | _ => false
  end.

(** Line 55: the method returns once every refresh it started is done. *)
Definition resume_Invalidate_all (t : nat) (children : list nat)
    (r : Response) (m : Manager) : option Manager :=
  match r with
  | Resolved =>
      if forallb (settled m) children
      then Some (set_task t (Settled None) (emit (EvReturn t) m))
      else None
  | _ => None
  end.

(** What happens to the manager: calls of its two public methods,
    subscriptions to (and closings of subscriptions on) the observables it
    returned, and settlements of the promises its tasks await, each with
    the reading of the clock at that moment. *)
Inductive Call : Type :=
| CallGetCache (key : CacheKey) (args : CallArgs) (context : CallContext)
| CallInvalidate (cacheKey : option CacheKey)
| CallSubscribe (cache : nat)
| CallUnsubscribe (cache : nat) (sid : nat)
| Resume (t : nat) (r : Response) (now : Z).

Definition subscribe_to (cache : nat) (m : Manager) : option Manager :=
  _ ← heap m !! cache;
  let sid := nextSub m in
  Some (mkManager (_cacheStore m) (_maxAgeInMS m)
          (alter (on_subject (ReplaySubject.subscribe sid)) cache (heap m))
          (tasks m) (S sid) (trace m ++ [EvSubscribe cache sid])).

Definition unsubscribe_from (cache sid : nat) (m : Manager) : option Manager :=
  _ ← heap m !! cache;
  Some (emit (EvUnsubscribe cache sid)
          (with_heap (alter (on_subject (ReplaySubject.unsubscribe sid)) cache (heap m)) m)).

Definition resume (t : nat) (r : Response) (now : Z) (m : Manager)
    : option Manager :=
  k ← tasks m !! t;
  match k with
  | RefreshIfOut_getAsync key cache => resume_RefreshIfOut_getAsync t key cache r now m
  | Refresh_dataProvider cache => resume_Refresh_dataProvider t cache r now m
  | Refresh_storeAsync cache value => resume_Refresh_storeAsync t cache value r m
  | Invalidate_sweep cacheKey => resume_Invalidate_sweep t cacheKey r m
  | Invalidate_removeAsync all => resume_Invalidate_removeAsync t all r m
  | Invalidate_all children => resume_Invalidate_all t children r m
  | Settled _ => None
  end.

Definition step (call : Call) (m : Manager) : option Manager :=
  match call with
  | CallGetCache k args ctx => Some (getCache k args ctx m).1
  | CallInvalidate cacheKey => Some (invalidateAndUpdateAsync cacheKey m).1
  | CallSubscribe cache => subscribe_to cache m
  | CallUnsubscribe cache sid => unsubscribe_from cache sid m
  | Resume t r now => resume t r now m
  end.

Fixpoint exec (calls : list Call) (m : Manager) : option Manager :=
  match calls with
  | [] => Some m
  | call :: calls' => m' ← step call m; exec calls' m'
  end.

(** The operations a trace performs on the subject of entry [c]. *)
Definition channel_op (c : nat) (ev : Event) : list (ReplaySubject.Op T E) :=
  match ev with
  | EvNext _ c' v => if decide (c' = c) then [ReplaySubject.OpNext v] else []
  | EvError _ c' e => if decide (c' = c) then [ReplaySubject.OpError e] else []
  | EvSubscribe c' sid => if decide (c' = c) then [ReplaySubject.OpSubscribe sid] else []
  | EvUnsubscribe c' sid => if decide (c' = c) then [ReplaySubject.OpUnsubscribe sid] else []
  | _ => []
  end.

Definition channel_ops (c : nat) (tr : list Event) : list (ReplaySubject.Op T E) :=
  concat (List.map (channel_op c) tr).

(** The task an event is the doing of. *)
Definition event_task (ev : Event) : option nat :=
  match ev with
  | EvGetAsync t _ | EvStoreAsync t _ _ | EvRemoveAsync t _
  | EvDataProvider t _ _ | EvNext t _ _ | EvError t _ _ | EvReturn t => Some t
  | EvSubscribe _ _ | EvUnsubscribe _ _ => None
  end.

Definition task_events (t : nat) (tr : list Event) : list Event :=
  List.filter (λ ev, bool_decide (event_task ev = Some t)) tr.

Definition resumes (t : nat) (call : Call) : bool :=
  match call with
  | Resume t' _ _ => bool_decide (t' = t)
  | _ => false
  end.

(** The entry an event or a pending task refers to, and the subscriber an
    event introduces. *)
Definition event_cache (ev : Event) : option nat :=
  match ev with
  | EvNext _ c _ | EvError _ c _ | EvSubscribe c _ | EvUnsubscribe c _ => Some c
  | _ => None
  end.

Definition event_sub (ev : Event) : option nat :=
  match ev with
  | EvSubscribe _ sid => Some sid
  | _ => None
  end.

Definition task_cache (task : Task) : option nat :=
  match task with
  | RefreshIfOut_getAsync _ c | Refresh_dataProvider c | Refresh_storeAsync c _ => Some c
  | _ => None
  end.

Definition is_next_on (c : nat) (ev : Event) : bool :=
  match ev with
  | EvNext _ c' _ => bool_decide (c' = c)
  | _ => false
  end.

(** The producer invocation that starts a refresh of entry [c] by task [t]. *)
Definition provider_call (m : Manager) (t c : nat) : list Event :=
  match heap m !! c with
  | Some cache => [EvDataProvider t (context cache) (lastArgs cache)]
  | None => []
  end.

(** What a call of [_refreshCacheData] does, as task [t], before it awaits
    anything, on the entry at [c] with context [ctx] and arguments [args],
    after the events [tr]: the producer is invoked and, when it throws,
    [error] is called on the entry's subject. *)
Definition refresh_start (tr : list Event) (t c : nat) (ctx : CallContext)
    (args : CallArgs) : list Event :=
  EvDataProvider t ctx args
  :: match throws tr ctx args with
     | Some e => [EvError t c e]
     | None => []
     end.

(** The same for the entries at [cs], one after the other, as tasks [t],
    [t + 1], ...; [h] is the heap the entries are in. *)
Fixpoint refresh_starts (tr : list Event) (t : nat) (h : list Cache)
    (cs : list nat) : list Event :=
  match cs with
  | [] => []
  | c :: cs' =>
      match h !! c with
      | Some cache =>
          let evs := refresh_start tr t c (context cache) (lastArgs cache) in
          evs ++ refresh_starts (tr ++ evs) (S t) h cs'
      | None => refresh_starts tr t h cs'
      end
  end.

Definition is_provider_call (ev : Event) : bool :=
  match ev with
  | EvDataProvider _ _ _ => true
  | _ => false
  end.
End Manager.

(** ** Invariants of the manager's states and relations between them *)

Section ManagerInvariants.
Context {CacheKey CallArgs CallContext T E : Type} `{EqDecision CacheKey}.

Local Abbreviation manager := (@Manager CacheKey CallArgs CallContext T E).
Local Abbreviation cache_entry := (@Cache CacheKey CallArgs CallContext T E).
Local Abbreviation event_t := (@Event CacheKey CallArgs CallContext T E).
Implicit Types (m : manager) (cache : cache_entry) (ev : event_t)
  (t c sid : nat).

(** An entry keeps its key, arguments and context, and stays initialized
    once it is. *)
Definition entry_kept cache cache' : Prop :=
  key cache' = key cache ∧ lastArgs cache' = lastArgs cache
  ∧ context cache' = context cache
  ∧ (initialized cache = true → initialized cache' = true).

(** The subscribers an event list introduces are named from [n] on, and the
    records it stores carry the max-age [maxAge]. *)
Definition news_ok (n : nat) (maxAge : Z) (evs : list event_t) : Prop :=
  Forall (λ ev, (∀ sid, event_sub ev = Some sid → n ≤ sid)
                ∧ (∀ t k d, ev = EvStoreAsync t k d → maxAgeMS d = maxAge)) evs.

Definition quiet (maxAge : Z) ev : Prop :=
  event_sub ev = None ∧ (∀ t k d, ev = EvStoreAsync t k d → maxAgeMS d = maxAge).

Definition extends m m' : Prop :=
  _maxAgeInMS m' = _maxAgeInMS m
  ∧ (∃ evs, trace m' = trace m ++ evs ∧ news_ok (nextSub m) (_maxAgeInMS m) evs)
  ∧ (∀ c cache, heap m !! c = Some cache →
       ∃ cache', heap m' !! c = Some cache' ∧ entry_kept cache cache')
  ∧ length (tasks m) ≤ length (tasks m')
  ∧ nextSub m ≤ nextSub m'.

Definition store_ok m : Prop :=
  JsMap.wf (_cacheStore m)
  ∧ Forall (λ entry, ∃ cache, heap m !! entry.2 = Some cache ∧ key cache = entry.1)
           (_cacheStore m).

Definition tasks_ok m : Prop :=
  Forall (λ task, ∀ c, task_cache task = Some c → c < length (heap m)) (tasks m).

Definition trace_ok m : Prop :=
  Forall (λ ev, (∀ c, event_cache ev = Some c → c < length (heap m))
                ∧ (∀ sid, event_sub ev = Some sid → sid < nextSub m))
         (trace m).

(** The subject of an entry is what the trace's operations on it make of a
    new [ReplaySubject(1)]; the entry is initialized when [next] was called
    on it. *)
Definition heap_ok m : Prop :=
  ∀ c cache, heap m !! c = Some cache →
    subject cache
    = ReplaySubject.run (channel_ops c (trace m)) (ReplaySubject.create 1)
    ∧ initialized cache = existsb (is_next_on c) (trace m).

Definition inv m : Prop := store_ok m ∧ tasks_ok m ∧ trace_ok m ∧ heap_ok m.

(** Task [t] is left where it is suspended, and nothing is added to what it
    has done. *)
Definition frame t m m' : Prop :=
  t < length (tasks m) →
  t < length (tasks m') ∧ tasks m' !! t = tasks m !! t
  ∧ task_events t (trace m') = task_events t (trace m).

(** The entries the store has for the keys of a list, in the list's order. *)
Definition targets_present (all : list CacheKey) m : list nat :=
  omap (λ k, JsMap.get k (_cacheStore m)) all.

(** From [cache] to [cache'], [_setCacheData] was called with [v]: [next v]
    was called on the subject and the entry is initialized.  The call
    published [v] when the subject had not failed; a subject that had
    failed is as it was. *)
Definition next_called (v : T) cache cache' : Prop :=
  key cache' = key cache ∧ lastArgs cache' = lastArgs cache
  ∧ context cache' = context cache ∧ initialized cache' = true
  ∧ subject cache' = ReplaySubject.next v (subject cache)
  ∧ match ReplaySubject.thrownError (subject cache) with
    | None => rs_published v (subject cache) (subject cache')
    | Some _ => subject cache' = subject cache
    end.

(** From [cache] to [cache'], [error e] was called on the subject.  The call
    ended the subject with [e] when it had not failed; a subject that had
    failed is as it was, and holds the error it held. *)
Definition error_called (e : E) cache cache' : Prop :=
  key cache' = key cache ∧ lastArgs cache' = lastArgs cache
  ∧ context cache' = context cache ∧ initialized cache' = initialized cache
  ∧ subject cache' = ReplaySubject.error e (subject cache)
  ∧ match ReplaySubject.thrownError (subject cache) with
    | None => rs_failed e (subject cache) (subject cache')
    | Some _ => subject cache' = subject cache
    end.

(** *** What a task has done

    The events of a task, by kind, and the histories a task can have at each
    point it is suspended at or settled. *)

Inductive Kind : Type :=
| KGetAsync | KStoreAsync | KRemoveAsync | KDataProvider
| KNext | KError | KSubscribe | KUnsubscribe | KReturn.

Definition event_kind ev : Kind :=
  match ev with
  | EvGetAsync _ _ => KGetAsync
  | EvStoreAsync _ _ _ => KStoreAsync
  | EvRemoveAsync _ _ => KRemoveAsync
  | EvDataProvider _ _ _ => KDataProvider
  | EvNext _ _ _ => KNext
  | EvError _ _ _ => KError
  | EvSubscribe _ _ => KSubscribe
  | EvUnsubscribe _ _ => KUnsubscribe
  | EvReturn _ => KReturn
  end.

Definition histories (task : @Task CacheKey T E) : list (list Kind) :=
  match task with
  | RefreshIfOut_getAsync _ _ => [[KGetAsync]]
  | Refresh_dataProvider _ => [[KGetAsync; KDataProvider]; [KDataProvider]]
  | Refresh_storeAsync _ _ =>
      [[KGetAsync; KDataProvider; KStoreAsync]; [KDataProvider; KStoreAsync]]
  | Invalidate_sweep _ => [[]]
  | Invalidate_removeAsync _ => [[KRemoveAsync]]
  | Invalidate_all _ => [[KRemoveAsync]]
  | Settled None =>
      [[KGetAsync]; [KGetAsync; KNext];
       [KGetAsync; KDataProvider; KError];
       [KGetAsync; KDataProvider; KStoreAsync; KNext];
       [KGetAsync; KDataProvider; KStoreAsync; KError];
       [KDataProvider; KError];
       [KDataProvider; KStoreAsync; KNext];
       [KDataProvider; KStoreAsync; KError];
       [KRemoveAsync; KReturn]]
  | Settled (Some _) => [[KGetAsync]; [KRemoveAsync]]
  end.

Definition history_ok m : Prop :=
  (∀ t task, tasks m !! t = Some task →
     List.map event_kind (task_events t (trace m)) ∈ histories task)
  ∧ (∀ t, length (tasks m) ≤ t → task_events t (trace m) = []).

(** A call of [_refreshCacheData], pending or resolved; the method catches
    what it awaits, so it is never rejected. *)
Definition refresh_call (task : @Task CacheKey T E) : bool :=
  match task with
  | Refresh_dataProvider _ | Refresh_storeAsync _ _ | Settled None => true
  | _ => false
  end.

Definition children_ok m : Prop :=
  ∀ t children, tasks m !! t = Some (Invalidate_all children) →
    Forall (λ t', ∃ task, tasks m !! t' = Some task ∧ refresh_call task = true)
           children.

(** The entries a call works on: that of the observable subscribed to, that
    of the read or refresh resumed, and, for an invalidation resumed after
    [removeAsync], those the store has for its targets, whose refreshes it
    starts. *)
Definition call_entries m (call : @Call CacheKey CallArgs CallContext T E)
    : list nat :=
  match call with
  | CallSubscribe c | CallUnsubscribe c _ => [c]
  | Resume t _ _ =>
      match tasks m !! t with
      | Some (Invalidate_removeAsync all) => targets_present all m
      | Some task => option_list (task_cache task)
      | None => []
      end
  | CallGetCache _ _ _ | CallInvalidate _ => []
  end.

(** No producer throws when invoked for one of the entries at [cs]. *)
Definition producers_return
    (throws : list event_t → CallContext → CallArgs → option E)
    m (cs : list nat) : Prop :=
  ∀ tr c cache, c ∈ cs → heap m !! c = Some cache →
    throws tr (context cache) (lastArgs cache) = None.

End ManagerInvariants.

(** ** Runs of a manager with string keys

    Keys are strings (a string is truthy unless empty), arguments are lists
    of numbers, values are numbers and errors are strings; the max-age is
    1000 ms. *)

Definition js_truthy (s : string) : bool :=
  match s with
  | EmptyString => false
  | String _ _ => true
  end.

Definition DemoManager : Type := @Manager string (list nat) nat nat string.
Definition DemoCall : Type := @Call string (list nat) nat nat string.
Definition DemoEvent : Type := @Event string (list nat) nat nat string.

(** The producer of these runs throws when it is invoked with no argument,
    and returns an observable otherwise. *)
Definition js_throws (tr : list DemoEvent) (ctx : nat) (args : list nat)
    : option string :=
  match args with
  | [] => Some "no argument"
  | _ :: _ => None
  end.

(** The state a list of calls leads a new manager to. *)
Definition after (calls : list DemoCall) : DemoManager :=
  match exec js_truthy js_throws calls (new_manager 1000) with
  | Some m => m
  | None => new_manager 1000
  end.

(** A first read of key A, subscribed to; the store has no record, the
    producer yields 41 at time 5, and the write succeeds. *)
Definition read_A : list DemoCall :=
  [ CallGetCache "A" [1] 7; CallSubscribe 0; Resume 0 (GetResolved None) 0 ].

Definition read_A_produced : list DemoCall :=
  read_A ++ [ Resume 0 (ProviderResolved 41) 5 ].

Definition read_A_done : list DemoCall :=
  read_A_produced ++ [ Resume 0 Resolved 6 ].

(** Then key A is invalidated and the producer fails; after that a second
    subscription is made. *)
Definition invalidate_A : list DemoCall :=
  read_A_done ++ [ CallInvalidate (Some "A"); Resume 1 Resolved 10 ].

Definition invalidate_A_removed : list DemoCall :=
  invalidate_A ++ [ Resume 1 Resolved 11 ].

Definition invalidate_A_failed : list DemoCall :=
  invalidate_A_removed ++ [ Resume 2 (Rejected "boom") 12 ].

(** A read of key A whose producer fails, then a second read of the key whose
    refresh succeeds. *)
Definition failed_then_retried : list DemoCall :=
  [ CallGetCache "A" [1] 7; Resume 0 (GetResolved None) 0;
    Resume 0 (Rejected "boom") 1;
    CallGetCache "A" [1] 7; Resume 1 (GetResolved None) 2;
    Resume 1 (ProviderResolved 41) 3; Resume 1 Resolved 4 ].

(** A read of key A whose producer fails, then a second read of the key,
    which finds the entry of the first. *)
Definition failed_then_read : list DemoCall :=
  [ CallGetCache "A" [1] 7; Resume 0 (GetResolved None) 0;
    Resume 0 (Rejected "boom") 1; CallGetCache "A" [1] 7 ].

(** The second read refreshes: its producer is invoked, *)
Definition failed_then_refreshing : list DemoCall :=
  failed_then_read ++ [ Resume 1 (GetResolved None) 2 ].

(** and answers 41, which is written to the durable store. *)
Definition failed_then_writing : list DemoCall :=
  failed_then_refreshing ++ [ Resume 1 (ProviderResolved 41) 3 ].

(** Keys A, read with no argument, and B are read and subscribed to; the
    durable store answers both reads with a fresh record.  Then everything
    is invalidated, and [removeAsync] is called. *)
Definition invalidate_A_noarg_B : list DemoCall :=
  [ CallGetCache "A" [] 7; CallSubscribe 0; CallGetCache "B" [2] 7;
    CallSubscribe 1;
    Resume 0 (GetResolved (Some (mkCacheData 41 1000 0))) 500;
    Resume 1 (GetResolved (Some (mkCacheData 42 1000 0))) 500;
    CallInvalidate None; Resume 2 Resolved 600 ].


(** Reads of keys A (subscribed to), B and C. *)
Definition three_reads : list DemoCall :=
  [ CallGetCache "A" [1] 7; CallSubscribe 0;
    CallGetCache "B" [2] 7; CallGetCache "C" [3] 7 ].

(** A first read of key A that nobody subscribes to. *)
Definition first_read_A : list DemoCall := [ CallGetCache "A" [1] 7 ].

(** Key A, subscribed to, is read twice before the durable store answers;
    the store has no record; the producer answers the first read with 1,
    then the second with 2, and both writes are pending. *)
Definition overlapping_refreshes : list DemoCall :=
  [ CallGetCache "A" [1] 7; CallSubscribe 0; CallGetCache "A" [2] 8;
    Resume 0 (GetResolved None) 0; Resume 1 (GetResolved None) 0;
    Resume 0 (ProviderResolved 1) 1; Resume 1 (ProviderResolved 2) 2 ].

(** Keys A and B are read and subscribed to; the refresh of A waits for its
    write. *)
Definition read_A_B : list DemoCall :=
  [ CallGetCache "A" [1] 7; CallSubscribe 0; CallGetCache "B" [2] 7;
    CallSubscribe 1; Resume 0 (GetResolved None) 0;
    Resume 0 (ProviderResolved 41) 5 ].

(** After the first read of A is done a second subscription is made; then A
    is invalidated and its refresh publishes 42. *)
Definition resubscribed_and_refreshed : list DemoCall :=
  [ CallInvalidate (Some "A"); Resume 1 Resolved 10; Resume 1 Resolved 11;
    Resume 2 (ProviderResolved 42) 12; Resume 2 Resolved 13 ].

(** Reads of keys A (subscribed to) and B. *)
Definition read_A_then_B : list DemoCall :=
  [ CallGetCache "A" [1] 7; CallSubscribe 0; CallGetCache "B" [2] 7 ].

(** ** Facts about the [Map] model *)

Section JsMapFacts.
Context {K V : Type} `{EqDecision K}.
Implicit Types (m : list (K * V)) (k : K) (v : V).

Lemma jsmap_get_None k m : JsMap.get k m = None ↔ k ∉ JsMap.keys m.
Proof.
  induction m as [|[k' v'] m IH]; simpl.
  - split; [intros _; apply not_elem_of_nil | done].
  - destruct (decide (k' = k)) as [->|Hne].
    + split; [intros; discriminate | intros Hn; exfalso; apply Hn; left].
    + rewrite IH, not_elem_of_cons. intuition congruence.
Qed.

Lemma jsmap_get_Some_elem k v m : JsMap.get k m = Some v → (k, v) ∈ m.
Proof.
  induction m as [|[k' v'] m IH]; simpl; [done|].
  destruct (decide (k' = k)) as [->|Hne].
  - intros Hs. injection Hs as ->. left.
  - intros Hg. right. auto.
Qed.

Lemma jsmap_elem_get k v m : JsMap.wf m → (k, v) ∈ m → JsMap.get k m = Some v.
Proof.
  unfold JsMap.wf. induction m as [|[k' v'] m IH]; simpl.
  - intros _ Hin. by apply elem_of_nil in Hin.
  - intros Hnd Hin. apply NoDup_cons in Hnd as [Hk' Hnd].
    apply elem_of_cons in Hin as [[= <- <-]|Hin].
    + by rewrite decide_True.
    + destruct (decide (k' = k)) as [->|Hne]; [|by apply IH].
      exfalso. apply Hk'. change (k ∈ (JsMap.keys m)).
      unfold JsMap.keys. apply (list_elem_of_fmap_2 fst) in Hin. done.
Qed.

Lemma jsmap_set_fresh k v m : JsMap.get k m = None → JsMap.set k v m = m ++ [(k, v)].
Proof.
  induction m as [|[k' v'] m IH]; simpl; [done|].
  destruct (decide (k' = k)); [done|]. intros Hg. by rewrite IH.
Qed.

Lemma jsmap_get_app_fresh k k' v m :
  JsMap.get k' (m ++ [(k, v)]) =
  match JsMap.get k' m with
  | Some v' => Some v'
  | None => if decide (k = k') then Some v else None
  end.
Proof.
  induction m as [|[k0 v0] m IH]; simpl; [done|].
  destruct (decide (k0 = k')); [done | apply IH].
Qed.

Lemma jsmap_keys_app m1 m2 : JsMap.keys (m1 ++ m2) = JsMap.keys m1 ++ JsMap.keys m2.
Proof. unfold JsMap.keys. apply List.map_app. Qed.

Lemma jsmap_wf_set_fresh k v m :
  JsMap.wf m → JsMap.get k m = None → JsMap.wf (JsMap.set k v m).
Proof.
  intros Hwf Hg. rewrite jsmap_set_fresh by done. unfold JsMap.wf in *.
  rewrite jsmap_keys_app. apply NoDup_app. split; [done|]. split.
  - intros x Hx Hx'. simpl in Hx'. apply list_elem_of_singleton in Hx' as ->.
    by apply jsmap_get_None in Hg.
  - simpl. apply NoDup_singleton.
Qed.

(** Deleting a key of a well-formed map removes the one entry that has it. *)
Lemma jsmap_delete_filter k m :
  JsMap.wf m →
  JsMap.delete k m = List.filter (λ p, negb (bool_decide (p.1 = k))) m.
Proof.
  unfold JsMap.wf. induction m as [|[k' v'] m IH]; simpl; [done|].
  intros Hnd. apply NoDup_cons in Hnd as [Hk' Hnd].
  destruct (decide (k' = k)) as [->|Hne].
  - rewrite bool_decide_eq_true_2 by done. simpl.
    symmetry. apply forallb_filter_id. apply forallb_forall.
    intros [k1 v1] Hin. simpl. apply negb_true_iff, bool_decide_eq_false_2.
    intros ->. apply Hk'. apply list_elem_of_In. apply (in_map fst) in Hin. done.
  - rewrite bool_decide_eq_false_2 by done. simpl. f_equal. by apply IH.
Qed.

Lemma jsmap_wf_filter (f : K * V → bool) m : JsMap.wf m → JsMap.wf (List.filter f m).
Proof.
  unfold JsMap.wf, JsMap.keys. induction m as [|p m IH]; simpl; [done|].
  intros Hnd. apply NoDup_cons in Hnd as [Hp Hnd].
  destruct (f p); simpl; [|by apply IH].
  apply NoDup_cons. split; [|by apply IH].
  intros Hin. apply Hp. apply list_elem_of_In in Hin. apply list_elem_of_In.
  apply in_map_iff in Hin as (q & Hq & Hin). apply in_map_iff.
  exists q. split; [done|]. apply filter_In in Hin. tauto.
Qed.

Lemma jsmap_delete_all ks m :
  JsMap.wf m →
  fold_left (λ st k, JsMap.delete k st) ks m =
  List.filter (λ p, negb (bool_decide (p.1 ∈ ks))) m.
Proof.
  revert m. induction ks as [|k ks IH]; intros m Hwf; simpl.
  - symmetry. apply forallb_filter_id. apply forallb_forall.
    intros p _. done.
  - rewrite IH by (rewrite jsmap_delete_filter by done; by apply jsmap_wf_filter).
    rewrite jsmap_delete_filter by done.
    induction m as [|p m IHm]; simpl; [done|].
    assert (JsMap.wf m) as Hwf' by (unfold JsMap.wf in *; simpl in Hwf; by apply NoDup_cons in Hwf as [_ ?]).
    destruct (decide (p.1 = k)) as [Heq|Hne].
    + rewrite (bool_decide_eq_true_2 (p.1 = k)) by done. simpl.
      rewrite (bool_decide_eq_true_2 (p.1 ∈ k :: ks)) by (rewrite Heq; left).
      simpl. by apply IHm.
    + rewrite (bool_decide_eq_false_2 (p.1 = k)) by done. simpl.
      destruct (decide (p.1 ∈ ks)) as [Hin|Hnin].
      * rewrite (bool_decide_eq_true_2 (p.1 ∈ ks)) by done.
        rewrite (bool_decide_eq_true_2 (p.1 ∈ k :: ks)) by (by right).
        simpl. by apply IHm.
      * rewrite (bool_decide_eq_false_2 (p.1 ∈ ks)) by done.
        rewrite (bool_decide_eq_false_2 (p.1 ∈ k :: ks))
          by (rewrite not_elem_of_cons; done).
        simpl. f_equal. by apply IHm.
Qed.

(** Deleting the keys selected by a filter leaves the entries the filter
    rejects. *)
Lemma jsmap_delete_selected (f : K * V → bool) m :
  JsMap.wf m →
  fold_left (λ st k, JsMap.delete k st) (List.map fst (List.filter f m)) m =
  List.filter (λ p, negb (f p)) m.
Proof.
  intros Hwf. rewrite jsmap_delete_all by done.
  apply filter_ext_in. intros [k v] Hin. f_equal.
  destruct (f (k, v)) eqn:Hf.
  - apply bool_decide_eq_true_2. apply list_elem_of_In.
    apply in_map_iff. exists (k, v). split; [done|]. apply filter_In. done.
  - apply bool_decide_eq_false_2. intros Hk. apply list_elem_of_In in Hk.
    apply in_map_iff in Hk as ([k' v'] & Heq & Hin'). simpl in Heq. subst k'.
    apply filter_In in Hin' as [Hin' Hf'].
    assert (v' = v) as ->.
    { apply list_elem_of_In in Hin, Hin'.
      apply (jsmap_elem_get _ _ _ Hwf) in Hin, Hin'. congruence. }
    congruence.
Qed.

Lemma jsmap_get_filter (f : K * V → bool) k m :
  JsMap.wf m →
  JsMap.get k (List.filter f m) =
  match JsMap.get k m with
  | Some v => if f (k, v) then Some v else None
  | None => None
  end.
Proof.
  unfold JsMap.wf. induction m as [|[k' v'] m IH]; simpl; [done|].
  intros Hnd. apply NoDup_cons in Hnd as [Hk' Hnd].
  destruct (decide (k' = k)) as [->|Hne].
  - destruct (f (k, v')) eqn:Hf; simpl.
    + by rewrite decide_True.
    + rewrite IH by done.
      assert (JsMap.get k m = None) as -> by (by apply jsmap_get_None). done.
  - destruct (f (k', v')); simpl; [rewrite decide_False by done|]; by apply IH.
Qed.

End JsMapFacts.

(** ** Facts about the subject model *)

Section ReplaySubjectFacts.
Context {T E : Type}.
Import ReplaySubject.
Implicit Types (s : Subject T E) (ops : list (Op T E)) (o : Op T E).

Lemma rs_inv_create n : rs_inv (create (T:=T) (E:=E) n).
Proof. unfold rs_inv, create, hasError. simpl. lia. Qed.

Lemma rs_trim_id s : rs_inv s → _trimBuffer s = s.
Proof.
  intros (_ & Hlen & _). destruct s as [n buf obs st err dl]. simpl in *.
  unfold _trimBuffer. simpl. replace (length buf - n) with 0 by lia. done.
Qed.

Lemma rs_next_stopped v s : rs_inv s → isStopped s = true → next v s = s.
Proof.
  intros Hinv Hst. unfold next. rewrite Hst, rs_trim_id by done. by rewrite Hst.
Qed.

Lemma rs_next_live v s :
  rs_inv s → isStopped s = false →
  next v s =
  Build (_bufferSize s)
        (drop (length (_buffer s ++ [v]) - _bufferSize s) (_buffer s ++ [v]))
        (observers s) false (thrownError s)
        (delivered s ++ List.map (λ x, (x, NNext v)) (observers s)).
Proof. intros Hinv Hst. unfold next, _trimBuffer. rewrite Hst. simpl. done. Qed.

Lemma rs_error_stopped e s : isStopped s = true → error e s = s.
Proof. intros Hst. unfold error. by rewrite Hst. Qed.

Lemma rs_subscribe_eq sid s :
  rs_inv s →
  subscribe sid s =
  Build (_bufferSize s) (_buffer s)
        (if isStopped s then observers s else observers s ++ [sid])
        (isStopped s) (thrownError s)
        (delivered s
           ++ List.map (λ n, (sid, n))
                (List.map NNext (_buffer s) ++ _checkFinalizedStatuses s)).
Proof.
  intros Hinv. unfold subscribe. rewrite rs_trim_id by done.
  destruct Hinv as (_ & _ & ->). by rewrite orb_diag.
Qed.

Lemma rs_inv_apply s o : rs_inv s → rs_inv (apply s o).
Proof.
  intros Hinv. destruct o as [v|e|sid|sid]; simpl.
  - destruct (isStopped s) eqn:Hst; [by rewrite rs_next_stopped|].
    rewrite rs_next_live by done. destruct Hinv as (Hn & Hlen & Hse).
    unfold rs_inv, hasError in *. simpl. rewrite length_drop, length_app. simpl.
    split; [done|]. split; [lia|]. by rewrite <- Hse.
  - unfold error. destruct (isStopped s) eqn:Hst; [done|].
    destruct Hinv as (Hn & Hlen & Hse). unfold rs_inv, hasError. simpl. done.
  - rewrite rs_subscribe_eq by done. destruct Hinv as (Hn & Hlen & Hse).
    unfold rs_inv, hasError in *. simpl. done.
  - destruct Hinv as (Hn & Hlen & Hse). unfold rs_inv, hasError in *. simpl. done.
Qed.

Lemma rs_run_app ops1 ops2 s : run (ops1 ++ ops2) s = run ops2 (run ops1 s).
Proof. unfold run. apply fold_left_app. Qed.

Lemma rs_inv_run ops s : rs_inv s → rs_inv (run ops s).
Proof.
  revert s. induction ops as [|o ops IH]; intros s Hinv; simpl; [done|].
  apply IH. by apply rs_inv_apply.
Qed.

Lemma rs_bufferSize_apply s o : _bufferSize (apply s o) = _bufferSize s.
Proof.
  destruct o as [v|e|sid|sid]; simpl; [| |done|done].
  - unfold next, _trimBuffer. destruct (isStopped s) eqn:Hst; simpl; rewrite ?Hst; done.
  - unfold error. by destruct (isStopped s).
Qed.

Lemma rs_bufferSize_run ops s : _bufferSize (run ops s) = _bufferSize s.
Proof.
  revert s. induction ops as [|o ops IH]; intros s; simpl; [done|].
  by rewrite IH, rs_bufferSize_apply.
Qed.

(** A stopped subject keeps its buffer, its error and its (empty or not)
    observers' past; only a subscription adds to what was delivered. *)
Lemma rs_stopped_apply s o :
  rs_inv s → isStopped s = true →
  isStopped (apply s o) = true ∧ _buffer (apply s o) = _buffer s
  ∧ thrownError (apply s o) = thrownError s.
Proof.
  intros Hinv Hst. destruct o as [v|e|sid|sid]; cbn [apply].
  - by rewrite rs_next_stopped.
  - by rewrite rs_error_stopped.
  - by rewrite rs_subscribe_eq.
  - done.
Qed.

Lemma rs_stopped_run ops s :
  rs_inv s → isStopped s = true →
  isStopped (run ops s) = true ∧ _buffer (run ops s) = _buffer s
  ∧ thrownError (run ops s) = thrownError s.
Proof.
  revert s. induction ops as [|o ops IH]; intros s Hinv Hst; simpl; [done|].
  destruct (rs_stopped_apply s o Hinv Hst) as (H1 & H2 & H3).
  destruct (IH (apply s o) (rs_inv_apply _ _ Hinv) H1) as (H4 & H5 & H6).
  split; [done|]. split; congruence.
Qed.

(** The buffer after a history: the last [_bufferSize] of the values that
    were in it or were published with effect. *)
Lemma rs_buffer_run ops s :
  rs_inv s → isStopped s = false →
  _buffer (run ops s) =
  drop (length (_buffer s ++ published ops) - _bufferSize s)
       (_buffer s ++ published ops).
Proof.
  revert s. induction ops as [|o ops IH]; intros s Hinv Hst.
  - simpl. rewrite app_nil_r. destruct Hinv as (_ & Hlen & _).
    replace (length (_buffer s) - _bufferSize s) with 0 by lia. done.
  - pose proof (rs_inv_apply s o Hinv) as Hinv'.
    change (run (o :: ops) s) with (run ops (apply s o)).
    destruct o as [v|e|sid|sid].
    + assert (isStopped (apply s (OpNext v)) = false) as Hst'
        by (cbn [apply]; rewrite rs_next_live by done; done).
      rewrite IH by done. rewrite rs_bufferSize_apply.
      simpl apply. rewrite rs_next_live by done. simpl.
      destruct Hinv as (Hn & Hlen & _).
      set (b := _buffer s) in *. set (n := _bufferSize s) in *.
      rewrite !length_app, length_drop, !length_app. simpl.
      replace (b ++ v :: published ops) with ((b ++ [v]) ++ published ops)
        by (by rewrite <- (assoc_L (++))).
      destruct (decide (length b + 1 ≤ n)) as [Hle|Hgt].
      * replace (length b + 1 - n) with 0 by lia. simpl. f_equal. lia.
      * replace (length b + 1 - n) with 1 by lia.
        rewrite <- (drop_app_le (b ++ [v]) (published ops) 1)
          by (rewrite length_app; simpl; lia).
        rewrite drop_drop. f_equal. lia.
    + simpl published. rewrite app_nil_r.
      assert (isStopped (apply s (OpError e)) = true) as Hst'
        by (simpl; unfold error; by rewrite Hst).
      destruct (rs_stopped_run ops _ Hinv' Hst') as (_ & -> & _).
      simpl. unfold error. rewrite Hst. simpl. destruct Hinv as (_ & Hlen & _).
      replace (length (_buffer s) - _bufferSize s) with 0 by lia. done.
    + assert (isStopped (apply s (OpSubscribe sid)) = false) as Hst'
        by (cbn [apply]; rewrite rs_subscribe_eq by done; done).
      rewrite IH by done. rewrite rs_bufferSize_apply.
      cbn [apply published]. by rewrite rs_subscribe_eq.
    + rewrite IH by done. done.
Qed.

Lemma rs_failure_app (ops ops' : list (Op T E)) :
  failure (ops ++ ops')
  = match failure ops with Some e => Some e | None => failure ops' end.
Proof. induction ops as [|[v|e|sid|sid] ops IH]; simpl; done. Qed.

Lemma rs_thrownError_run ops s :
  rs_inv s → isStopped s = false → thrownError (run ops s) = failure ops.
Proof.
  revert s. induction ops as [|o ops IH]; intros s Hinv Hst.
  - simpl. destruct Hinv as (_ & _ & Hse). rewrite Hst in Hse.
    unfold hasError in Hse. by destruct (thrownError s).
  - pose proof (rs_inv_apply s o Hinv) as Hinv'.
    change (run (o :: ops) s) with (run ops (apply s o)).
    destruct o as [v|e|sid|sid]; simpl failure.
    + apply IH; [done|]. cbn [apply]. by rewrite rs_next_live.
    + assert (isStopped (apply s (OpError e)) = true) as Hst'
        by (simpl; unfold error; by rewrite Hst).
      destruct (rs_stopped_run ops _ Hinv' Hst') as (_ & _ & ->).
      simpl. unfold error. by rewrite Hst.
    + apply IH; [done|]. cbn [apply]. by rewrite rs_subscribe_eq.
    + apply IH; done.
Qed.

Lemma rs_isStopped_run ops s :
  rs_inv s → isStopped s = false →
  isStopped (run ops s) = match failure ops with Some _ => true | None => false end.
Proof.
  intros Hinv Hst. destruct (rs_inv_run ops s Hinv) as (_ & _ & ->).
  unfold hasError. by rewrite rs_thrownError_run.
Qed.

Lemma rs_drop_last (l : list T) : drop (length l - 1) l = option_list (last l).
Proof.
  destruct l as [|x l _] using rev_ind; [done|].
  rewrite length_app, last_snoc. simpl.
  replace (length l + 1 - 1) with (length l) by lia.
  by rewrite drop_app_length.
Qed.

(** The buffer of an entry's subject: the last value published with effect. *)
Lemma rs_buffer_created ops :
  _buffer (run ops (create (E:=E) 1)) = option_list (last (published ops)).
Proof.
  rewrite rs_buffer_run by (apply rs_inv_create || done). simpl.
  apply rs_drop_last.
Qed.

(** *** What subscribers are handed *)

Lemma rs_received_app sid (dl2 : list (nat * Notification T E)) s1 s2 :
  delivered s2 = delivered s1 ++ dl2 →
  received sid s2 =
  received sid s1 ++ List.map snd (List.filter (λ p, Nat.eqb p.1 sid) dl2).
Proof. intros Hd. unfold received. by rewrite Hd, List.filter_app, List.map_app. Qed.

Lemma rs_filter_sid_same sid (ns : list (Notification T E)) :
  List.map snd (List.filter (λ p, Nat.eqb p.1 sid) (List.map (λ n, (sid, n)) ns)) = ns.
Proof.
  induction ns as [|n ns IH]; simpl; [done|].
  rewrite Nat.eqb_refl. simpl. by rewrite IH.
Qed.

Lemma rs_filter_sid_other sid sid' (ns : list (Notification T E)) :
  sid' ≠ sid →
  List.filter (λ p, Nat.eqb p.1 sid) (List.map (λ n, (sid', n)) ns) = [].
Proof.
  intros Hne. induction ns as [|n ns IH]; simpl; [done|].
  by rewrite (proj2 (Nat.eqb_neq sid' sid) Hne).
Qed.

Lemma rs_delivered_apply s o :
  rs_inv s → delivered (apply s o) = delivered s ++ rs_news s o.
Proof.
  intros Hinv. destruct o as [v|e|sid|sid]; cbn [apply rs_news].
  - destruct (isStopped s) eqn:Hst.
    + rewrite rs_next_stopped by done. by rewrite app_nil_r.
    + by rewrite rs_next_live.
  - unfold error. destruct (isStopped s); simpl; by rewrite ?app_nil_r.
  - by rewrite rs_subscribe_eq.
  - simpl. by rewrite app_nil_r.
Qed.

Lemma rs_received_apply sid s o :
  rs_inv s →
  received sid (apply s o) =
  received sid s ++ List.map snd (List.filter (λ p, Nat.eqb p.1 sid) (rs_news s o)).
Proof. intros Hinv. by apply rs_received_app, rs_delivered_apply. Qed.


(** A subscriber is first handed the buffer, then the way the subject ended. *)
Lemma rs_received_subscribe sid s :
  rs_inv s →
  received sid (subscribe sid s) =
  received sid s ++ List.map NNext (_buffer s) ++ _checkFinalizedStatuses s.
Proof.
  intros Hinv. change (subscribe sid s) with (apply s (OpSubscribe sid)).
  rewrite (rs_received_apply sid s (OpSubscribe sid) Hinv).
  cbn [rs_news]. by rewrite rs_filter_sid_same.
Qed.

(** On a stopped subject only its own subscription hands a subscriber
    anything. *)
Lemma rs_received_stopped_run sid ops s :
  rs_inv s → isStopped s = true → OpSubscribe sid ∉ ops →
  received sid (run ops s) = received sid s.
Proof.
  revert s. induction ops as [|o ops IH]; intros s Hinv Hst Hnot; [done|].
  change (run (o :: ops) s) with (run ops (apply s o)).
  apply not_elem_of_cons in Hnot as [Hne Hnot].
  rewrite IH; [| by apply rs_inv_apply | by apply rs_stopped_apply | done].
  rewrite rs_received_apply by done.
  destruct o as [v|e|sid'|sid']; cbn [rs_news]; rewrite ?Hst; simpl;
    rewrite ?app_nil_r; try done.
  rewrite rs_filter_sid_other by congruence. by rewrite app_nil_r.
Qed.

Lemma rs_arrRemove_subseteq sid sid' (l : list nat) :
  sid ∈ arrRemove sid' l → sid ∈ l.
Proof.
  induction l as [|x l IH]; simpl; [done|].
  destruct (decide (x = sid')); [by right|].
  intros [->|Hin]%elem_of_cons; [left | right; auto].
Qed.

Lemma rs_known_apply sid s o :
  rs_inv s → rs_known sid (apply s o) → rs_known sid s ∨ o = OpSubscribe sid.
Proof.
  intros Hinv [Hobs|Hdl].
  - destruct o as [v|e|sid'|sid']; cbn [apply] in Hobs.
    + left; left. destruct (isStopped s) eqn:Hst.
      * by rewrite rs_next_stopped in Hobs.
      * by rewrite rs_next_live in Hobs.
    + left; left. unfold error in Hobs. destruct (isStopped s); [done|].
      simpl in Hobs. by apply elem_of_nil in Hobs.
    + rewrite rs_subscribe_eq in Hobs by done. simpl in Hobs.
      destruct (isStopped s); [by left; left|].
      apply elem_of_app in Hobs as [Hobs|Hobs]; [by left; left|].
      apply list_elem_of_singleton in Hobs as ->. by right.
    + left; left. simpl in Hobs. by eapply rs_arrRemove_subseteq.
  - rewrite rs_delivered_apply, List.map_app in Hdl by done.
    apply elem_of_app in Hdl as [Hdl|Hdl]; [by left; right|].
    apply list_elem_of_In, in_map_iff in Hdl as ([sid0 n] & Heq & Hin).
    simpl in Heq. subst sid0.
    destruct o as [v|e|sid'|sid']; cbn [rs_news] in Hin.
    + left; left. destruct (isStopped s); [done|].
      apply in_map_iff in Hin as (x & Heq & Hin). apply list_elem_of_In.
      congruence.
    + left; left. destruct (isStopped s); [done|].
      apply in_map_iff in Hin as (x & Heq & Hin). apply list_elem_of_In.
      congruence.
    + right. apply in_map_iff in Hin as (x & Heq & Hin). congruence.
    + done.
Qed.

Lemma rs_known_run sid ops s :
  rs_inv s → rs_known sid (run ops s) → rs_known sid s ∨ OpSubscribe sid ∈ ops.
Proof.
  revert s. induction ops as [|o ops IH]; intros s Hinv Hk; [by left|].
  change (run (o :: ops) s) with (run ops (apply s o)) in Hk.
  apply IH in Hk as [Hk|Hin]; [|right; by right|by apply rs_inv_apply].
  apply rs_known_apply in Hk as [Hk| ->]; [by left|right; left|done].
Qed.

Lemma rs_unknown_received sid s : ¬ rs_known sid s → received sid s = [].
Proof.
  intros Hk. unfold received.
  assert (∀ l : list (nat * Notification T E),
            (∀ p, In p l → Nat.eqb p.1 sid = false) →
            List.filter (λ p, Nat.eqb p.1 sid) l = []) as Hnil.
  { induction l as [|p l IHl]; simpl; [done|]. intros Hall.
    rewrite (Hall p) by (by left). apply IHl. intros q Hq. apply Hall. by right. }
  rewrite Hnil; [done|]. intros [sid' n] Hin. simpl.
  apply Nat.eqb_neq. intros ->. apply Hk. right.
  apply list_elem_of_In, in_map_iff. by exists (sid, n).
Qed.

Lemma rs_fresh_received sid ops :
  OpSubscribe sid ∉ ops → received sid (run ops (create (E:=E) 1)) = [].
Proof.
  intros Hnot. apply rs_unknown_received. intros Hk.
  apply rs_known_run in Hk as [[Hk|Hk]|Hk]; [| |done|apply rs_inv_create];
    simpl in Hk; by apply elem_of_nil in Hk.
Qed.






(** *** Subscribing late *)


(** A subscriber that attaches to a failed subject is handed the buffered
    value, if there is one, then the error, and nothing ever after. *)
Lemma rs_subscribe_after_failure ops ops' sid e :
  failure ops = Some e → OpSubscribe sid ∉ ops → OpSubscribe sid ∉ ops' →
  received sid (run (ops ++ OpSubscribe sid :: ops') (create (E:=E) 1))
  = List.map NNext (option_list (last (published ops))) ++ [NError e].
Proof.
  intros Hfail Hfresh Hfresh'. rewrite rs_run_app.
  pose proof (rs_inv_run ops _ (rs_inv_create 1)) as Hinv.
  assert (isStopped (run ops (create (E:=E) 1)) = true) as Hst
    by (rewrite rs_isStopped_run, Hfail by (apply rs_inv_create || done); done).
  change (run (OpSubscribe sid :: ops') (run ops (create 1)))
    with (run ops' (apply (run ops (create (E:=E) 1)) (OpSubscribe sid))).
  rewrite rs_received_stopped_run;
    [|by apply rs_inv_apply|by apply rs_stopped_apply|done].
  cbn [apply]. rewrite rs_received_subscribe by done.
  rewrite rs_fresh_received, rs_buffer_created by done. simpl.
  unfold _checkFinalizedStatuses.
  rewrite rs_thrownError_run, Hfail by (apply rs_inv_create || done). done.
Qed.



(** *** Observers *)

(** A stopped subject has no observers: [error] empties the list, and a
    subscription to a stopped subject does not join it. *)
Lemma rs_stopped_unobserved_apply s o :
  rs_inv s → (isStopped s = true → observers s = []) →
  isStopped (apply s o) = true → observers (apply s o) = [].
Proof.
  intros Hinv Hs. destruct o as [v|e|sid|sid]; cbn [apply].
  - destruct (isStopped s) eqn:Hst.
    + rewrite rs_next_stopped by done. intros _. by apply Hs.
    + by rewrite rs_next_live.
  - unfold error. destruct (isStopped s) eqn:Hst; [|done].
    intros _. by apply Hs.
  - rewrite rs_subscribe_eq by done. simpl. intros Hst. rewrite Hst. by apply Hs.
  - simpl. intros Hst. by rewrite Hs.
Qed.

Lemma rs_stopped_unobserved ops n :
  isStopped (run ops (create (T:=T) (E:=E) n)) = true →
  observers (run ops (create (T:=T) (E:=E) n)) = [].
Proof.
  assert (∀ s, rs_inv s → (isStopped s = true → observers s = []) →
            isStopped (run ops s) = true → observers (run ops s) = []) as Hgen.
  { induction ops as [|o ops IH]; intros s Hinv Hs; [done|].
    change (run (o :: ops) s) with (run ops (apply s o)).
    apply IH; [by apply rs_inv_apply|by apply rs_stopped_unobserved_apply]. }
  apply Hgen; [apply rs_inv_create|done].
Qed.

(** *** What an observer that stays is handed *)

Lemma rs_filter_observers sid (n : Notification T E) (obs : list nat) :
  List.map snd (List.filter (λ p, Nat.eqb p.1 sid) (List.map (λ x, (x, n)) obs))
  = List.map (λ _, n) (List.filter (λ x, Nat.eqb x sid) obs).
Proof.
  induction obs as [|x obs IH]; simpl; [done|].
  destruct (Nat.eqb x sid); simpl; by rewrite IH.
Qed.

Lemma rs_arrRemove_other sid sid' (obs : list nat) :
  sid' ≠ sid →
  List.filter (λ x, Nat.eqb x sid) (arrRemove sid' obs)
  = List.filter (λ x, Nat.eqb x sid) obs.
Proof.
  intros Hne. induction obs as [|x obs IH]; simpl; [done|].
  destruct (decide (x = sid')) as [->|Hx].
  - by rewrite (proj2 (Nat.eqb_neq sid' sid) Hne).
  - simpl. by rewrite IH.
Qed.

(** An observer that is on the list once and stays is handed every value
    published with effect, in order, then the error if the subject fails,
    and nothing after. *)
Lemma rs_observer_view sid ops s :
  rs_inv s → isStopped s = false →
  List.filter (λ x, Nat.eqb x sid) (observers s) = [sid] →
  OpSubscribe sid ∉ ops → OpUnsubscribe sid ∉ ops →
  received sid (run ops s)
  = received sid s ++ List.map NNext (published ops)
    ++ match failure ops with Some e => [NError e] | None => [] end.
Proof.
  revert s. induction ops as [|o ops IH]; intros s Hinv Hst Hobs Hsub Hunsub.
  - simpl. by rewrite app_nil_r.
  - change (run (o :: ops) s) with (run ops (apply s o)).
    apply not_elem_of_cons in Hsub as [Hsub0 Hsub].
    apply not_elem_of_cons in Hunsub as [Hunsub0 Hunsub].
    pose proof (rs_inv_apply s o Hinv) as Hinv'.
    destruct o as [v|e|sid'|sid'].
    + assert (isStopped (apply s (OpNext v)) = false) as Hst'
        by (cbn [apply]; by rewrite rs_next_live).
      assert (List.filter (λ x, Nat.eqb x sid) (observers (apply s (OpNext v)))
              = [sid]) as Hobs'
        by (cbn [apply]; by rewrite rs_next_live).
      rewrite (IH _ Hinv' Hst' Hobs' Hsub Hunsub).
      rewrite (rs_received_apply sid s (OpNext v)) by done.
      cbn [rs_news published failure].
      rewrite Hst, rs_filter_observers, Hobs. simpl.
      by rewrite <- (assoc_L (++)).
    + assert (isStopped (apply s (OpError e)) = true) as Hst'
        by (cbn [apply]; unfold error; by rewrite Hst).
      rewrite (rs_received_stopped_run sid ops _ Hinv' Hst' Hsub).
      rewrite (rs_received_apply sid s (OpError e)) by done.
      cbn [rs_news published failure].
      by rewrite Hst, rs_filter_observers, Hobs.
    + assert (sid' ≠ sid) as Hne by congruence.
      assert (isStopped (apply s (OpSubscribe sid')) = false) as Hst'
        by (cbn [apply]; by rewrite rs_subscribe_eq).
      assert (List.filter (λ x, Nat.eqb x sid)
                (observers (apply s (OpSubscribe sid'))) = [sid]) as Hobs'.
      { cbn [apply]. rewrite rs_subscribe_eq, Hst by done. simpl.
        rewrite List.filter_app, Hobs. simpl.
        by rewrite (proj2 (Nat.eqb_neq sid' sid) Hne). }
      rewrite (IH _ Hinv' Hst' Hobs' Hsub Hunsub).
      rewrite (rs_received_apply sid s (OpSubscribe sid')) by done.
      cbn [rs_news published failure]. rewrite rs_filter_sid_other by done.
      by rewrite app_nil_r.
    + assert (sid' ≠ sid) as Hne by congruence.
      assert (List.filter (λ x, Nat.eqb x sid)
                (observers (apply s (OpUnsubscribe sid'))) = [sid]) as Hobs'
        by (cbn [apply]; simpl; by rewrite rs_arrRemove_other).
      rewrite (IH _ Hinv' Hst Hobs' Hsub Hunsub).
      rewrite (rs_received_apply sid s (OpUnsubscribe sid')) by done.
      cbn [rs_news published failure]. simpl. by rewrite app_nil_r.
Qed.

(** A subscriber that joins a live subject under a new name is handed the
    buffer, then, as long as it stays, what [rs_observer_view] says. *)
Lemma rs_subscriber_view sid ops ops' :
  failure ops = None → OpSubscribe sid ∉ ops →
  OpSubscribe sid ∉ ops' → OpUnsubscribe sid ∉ ops' →
  received sid (run (ops ++ OpSubscribe sid :: ops') (create (E:=E) 1))
  = List.map NNext (option_list (last (published ops)))
    ++ List.map NNext (published ops')
    ++ match failure ops' with Some e => [NError e] | None => [] end.
Proof.
  intros Hfail Hfresh Hsub Hunsub. rewrite rs_run_app.
  pose proof (rs_inv_run ops _ (rs_inv_create 1)) as Hinv.
  set (s := run ops (create 1)) in *.
  assert (isStopped s = false) as Hst
    by (unfold s; rewrite rs_isStopped_run, Hfail by (apply rs_inv_create || done);
        done).
  assert (sid ∉ observers s) as Hnot.
  { intros Hin.
    destruct (rs_known_run sid ops _ (rs_inv_create 1) (or_introl Hin))
      as [[Hk|Hk]|Hk]; [| |done]; simpl in Hk; by apply elem_of_nil in Hk. }
  change (run (OpSubscribe sid :: ops') s) with (run ops' (subscribe sid s)).
  assert (rs_inv (subscribe sid s)) as Hinv'
    by (by apply (rs_inv_apply s (OpSubscribe sid))).
  assert (isStopped (subscribe sid s) = false) as Hst'
    by (by rewrite rs_subscribe_eq).
  assert (List.filter (λ x, Nat.eqb x sid) (observers (subscribe sid s)) = [sid])
    as Hobs'.
  { rewrite rs_subscribe_eq, Hst by done. simpl. rewrite List.filter_app. simpl.
    rewrite Nat.eqb_refl.
    assert (List.filter (λ x, Nat.eqb x sid) (observers s) = []) as ->; [|done].
    clear -Hnot. induction (observers s) as [|x l IH]; simpl; [done|].
    apply not_elem_of_cons in Hnot as [Hne Hnot].
    rewrite (proj2 (Nat.eqb_neq x sid)) by congruence. by apply IH. }
  rewrite (rs_observer_view sid ops' _ Hinv' Hst' Hobs' Hsub Hunsub).
  rewrite rs_received_subscribe by done. unfold s at 1.
  rewrite rs_fresh_received by done. unfold s at 1.
  rewrite rs_buffer_created. unfold _checkFinalizedStatuses.
  replace (thrownError s) with (@None E)
    by (unfold s; by rewrite rs_thrownError_run, Hfail
                       by (apply rs_inv_create || done)).
  rewrite Hst. simpl. by rewrite app_nil_r.
Qed.

End ReplaySubjectFacts.

(** ** Facts about the manager *)

Create HintDb ext.

Section ManagerFacts.
Context {CacheKey CallArgs CallContext T E : Type} `{EqDecision CacheKey}.
Variable truthy : CacheKey → bool.
Variable throws :
  list (@Event CacheKey CallArgs CallContext T E) → CallContext → CallArgs →
  option E.

Local Abbreviation manager := (@Manager CacheKey CallArgs CallContext T E).
Local Abbreviation cache_entry := (@Cache CacheKey CallArgs CallContext T E).
Local Abbreviation call_t := (@Call CacheKey CallArgs CallContext T E).
Local Abbreviation task_t := (@Task CacheKey T E).
Local Abbreviation event_t := (@Event CacheKey CallArgs CallContext T E).
Local Abbreviation response_t := (@Response T E).
Implicit Types (m : manager) (call : call_t) (calls : list call_t)
  (cache : cache_entry) (ev : event_t) (r : response_t) (k : CacheKey)
  (t c sid : nat) (task : task_t).

(** *** What every call keeps *)

Lemma entry_kept_refl cache : entry_kept cache cache.
Proof. by unfold entry_kept. Qed.

Lemma entry_kept_trans (x y z : cache_entry) :
  entry_kept x y → entry_kept y z → entry_kept x z.
Proof.
  unfold entry_kept. intros (Ha & Hb & Hc & Hd) (Ha' & Hb' & Hc' & Hd').
  repeat split; [congruence..|auto].
Qed.

Lemma news_ok_mono n n' maxAge (evs : list event_t) :
  n ≤ n' → news_ok n' maxAge evs → news_ok n maxAge evs.
Proof.
  intros Hle Hf. unfold news_ok. eapply Forall_impl; [exact Hf|].
  intros ev [Hev Hst]. split; [|done].
  intros sid Hsid. specialize (Hev sid Hsid). simpl in *. lia.
Qed.

Lemma trace_same m m' :
  trace m' = trace m →
  ∃ evs, trace m' = trace m ++ evs ∧ news_ok (nextSub m) (_maxAgeInMS m) evs.
Proof. intros ->. exists []. rewrite app_nil_r. split; [done|apply Forall_nil_2]. Qed.

Lemma extends_refl m : extends m m.
Proof.
  unfold extends. split; [done|]. split; [by apply trace_same|].
  split; [|done]. intros c cache Hc. exists cache. split; [done|apply entry_kept_refl].
Qed.

Lemma extends_trans m1 m2 m3 : extends m1 m2 → extends m2 m3 → extends m1 m3.
Proof.
  intros (Ha & (e1 & Hb & Hs) & Hc & Hd & He) (Ha' & (e2 & Hb' & Hs') & Hc' & Hd' & He').
  unfold extends. split; [congruence|]. split.
  { exists (e1 ++ e2). split; [by rewrite Hb', Hb, (assoc_L (++))|].
    apply Forall_app. split; [done|]. rewrite <- Ha. by eapply news_ok_mono. }
  split; [|lia]. intros c cache Hl.
  destruct (Hc c cache Hl) as (cache' & Hl' & Hk).
  destruct (Hc' c cache' Hl') as (cache'' & Hl'' & Hk').
  exists cache''. split; [done|]. by eapply entry_kept_trans.
Qed.

Lemma extends_fields m m' :
  _maxAgeInMS m' = _maxAgeInMS m →
  (∃ evs, trace m' = trace m ++ evs ∧ news_ok (nextSub m) (_maxAgeInMS m) evs) →
  heap m' = heap m → length (tasks m) ≤ length (tasks m') →
  nextSub m ≤ nextSub m' → extends m m'.
Proof.
  intros Ha Hb Hc Hd He. unfold extends. rewrite Hc.
  repeat split; try done. intros c cache Hl. exists cache.
  split; [done|apply entry_kept_refl].
Qed.

Lemma extends_emit ev m : quiet (_maxAgeInMS m) ev → extends m (emit ev m).
Proof.
  intros [Hev Hst]. apply extends_fields; simpl; try done.
  exists [ev]. split; [done|]. apply Forall_singleton. split; [|done].
  intros sid. by rewrite Hev.
Qed.

Ltac solve_quiet :=
  split; [done|]; intros ? ? ? ?; simplify_eq; done.

Lemma extends_set_task t task m : extends m (set_task t task m).
Proof.
  apply extends_fields; simpl; try done; [by apply trace_same|].
  by rewrite length_insert.
Qed.

Lemma extends_spawn task m : extends m (spawn task m).1.
Proof.
  apply extends_fields; simpl; try done; [by apply trace_same|].
  rewrite length_app. lia.
Qed.

Lemma extends_with_store st m : extends m (with_store st m).
Proof. apply extends_fields; simpl; try done. by apply trace_same. Qed.

Lemma extends_alter (f : cache_entry → cache_entry) c m :
  (∀ cache, entry_kept cache (f cache)) →
  extends m (with_heap (alter f c (heap m)) m).
Proof.
  intros Hf. unfold extends. simpl. split; [done|].
  split; [by apply trace_same|]. split; [|done].
  intros c' cache Hl. destruct (decide (c = c')) as [->|Hne].
  - exists (f cache). rewrite list_lookup_alter_eq, Hl. split; [done|apply Hf].
  - exists cache. rewrite list_lookup_alter_ne by done.
    split; [done|apply entry_kept_refl].
Qed.

Lemma extends_alloc cache m : extends m (with_heap (heap m ++ [cache]) m).
Proof.
  unfold extends. simpl. split; [done|].
  split; [by apply trace_same|]. split; [|done].
  intros c cache0 Hl. exists cache0. split; [|apply entry_kept_refl].
  by apply lookup_app_l_Some.
Qed.

Lemma entry_kept_on_subject f cache : entry_kept cache (on_subject f cache).
Proof. by unfold entry_kept, on_subject. Qed.

Lemma extends_setCacheData t c (v : T) m : extends m (_setCacheData t c v m).
Proof.
  unfold _setCacheData. eapply extends_trans; [|apply extends_emit; solve_quiet].
  apply extends_alter. intros cache. by unfold entry_kept.
Qed.

Lemma extends_subject_error t c (e : E) m : extends m (subject_error t c e m).
Proof.
  unfold subject_error. eapply extends_trans; [|apply extends_emit; solve_quiet].
  apply extends_alter, entry_kept_on_subject.
Qed.

Lemma extends_refreshCacheData t c m m' :
  _refreshCacheData throws t c m = Some m' → extends m m'.
Proof.
  unfold _refreshCacheData. intros Hr.
  destruct (heap m !! c) as [cache|]; simpl in Hr; [|done].
  destruct (throws _ _ _) as [e|]; simplify_eq.
  - eapply extends_trans; [|apply extends_set_task].
    eapply extends_trans; [|apply extends_subject_error].
    apply extends_emit. solve_quiet.
  - eapply extends_trans; [|apply extends_set_task]. apply extends_emit. solve_quiet.
Qed.

Lemma extends_getAndEnsureCache k (args : CallArgs) (ctx : CallContext) m :
  extends m (_getAndEnsureCache k args ctx m).1.
Proof.
  unfold _getAndEnsureCache. destruct (JsMap.get k (_cacheStore m)); simpl.
  - apply extends_refl.
  - eapply extends_trans; [apply extends_alloc|apply extends_with_store].
Qed.

Lemma extends_removeUnobserved except m :
  extends m (_removeUnobservedCachesAsync except m).
Proof.
  unfold _removeUnobservedCachesAsync.
  destruct (List.map _ _); [apply extends_refl|apply extends_with_store].
Qed.

Lemma extends_refresh_each all m m' children :
  refresh_each throws all m = Some (m', children) → extends m m'.
Proof.
  revert m m' children. induction all as [|k all IH]; intros m m' children Hr.
  - simpl in Hr. simplify_eq. apply extends_refl.
  - simpl in Hr. destruct (JsMap.get k (_cacheStore m)) as [c|]; [|by eapply IH].
    destruct (_refreshCacheData throws _ c _) as [m2|] eqn:Hm2; simpl in Hr; [|done].
    destruct (refresh_each throws all m2) as [[m3 ch]|] eqn:Hm3; simpl in Hr; [|done].
    simplify_eq.
    eapply extends_trans; [apply (extends_spawn (Refresh_dataProvider c))|].
    eapply extends_trans; [by eapply extends_refreshCacheData|by eapply IH].
Qed.

Ltac solve_extends :=
  repeat first
    [ apply extends_refl
    | apply extends_setCacheData
    | apply extends_subject_error
    | by eapply extends_refreshCacheData
    | by eapply extends_refresh_each
    | apply extends_removeUnobserved
    | eapply extends_trans; [|apply extends_set_task]
    | eapply extends_trans; [|apply extends_emit; solve_quiet]
    | eapply extends_trans; [|apply extends_spawn] ].

Lemma extends_step call m m' : step truthy throws call m = Some m' → extends m m'.
Proof.
  destruct call as [k args ctx|ck|c|c sid|t r now]; simpl.
  - intros Hs. simplify_eq. unfold getCache.
    destruct (_getAndEnsureCache k args ctx m) as [m1 c] eqn:H1. simpl.
    eapply extends_trans; [apply (extends_getAndEnsureCache k args ctx)|].
    rewrite H1. simpl. solve_extends.
  - intros Hs. simplify_eq. unfold invalidateAndUpdateAsync. solve_extends.
  - unfold subscribe_to. intros Hs. destruct (heap m !! c); simplify_eq/=.
    eapply extends_trans;
      [apply (extends_alter (on_subject (ReplaySubject.subscribe (nextSub m))) c),
         entry_kept_on_subject|].
    apply extends_fields; simpl; try done; [|lia].
    eexists. split; [done|]. apply Forall_singleton.
    split; [intros sid' [= <-]; done|done].
  - unfold unsubscribe_from. intros Hs. destruct (heap m !! c); simplify_eq/=.
    eapply extends_trans; [|apply extends_emit; solve_quiet].
    apply extends_alter, entry_kept_on_subject.
  - unfold resume. intros Hs.
    destruct (tasks m !! t) as [task|]; simpl in Hs; [|done].
    destruct task as [k c|c|c v|ck|all|children|rej]; simpl in Hs.
    + unfold resume_RefreshIfOut_getAsync in Hs.
      destruct r as [ccd|v|  |e]; try done.
      * destruct (cacheDataNeedsRefresh ccd now); [solve_extends|].
        destruct (heap m !! c) as [cache|]; simpl in Hs; [|done].
        destruct ccd as [d|]; [destruct (negb (initialized cache))|];
          simplify_eq; solve_extends.
      * simplify_eq. solve_extends.
    + unfold resume_Refresh_dataProvider in Hs.
      destruct r as [ccd|v|  |e]; try done.
      * destruct (heap m !! c) as [cache|]; simplify_eq/=. solve_extends.
      * simplify_eq. solve_extends.
    + unfold resume_Refresh_storeAsync in Hs.
      destruct r as [ccd|v'|  |e]; simplify_eq; solve_extends.
    + unfold resume_Invalidate_sweep in Hs.
      destruct r as [ccd|v'|  |e]; simplify_eq; solve_extends.
    + unfold resume_Invalidate_removeAsync in Hs.
      destruct r as [ccd|v'|  |e]; simplify_eq; [|solve_extends].
      destruct (refresh_each throws all m) as [[m1 ch]|] eqn:Hre; simplify_eq/=.
      solve_extends.
    + unfold resume_Invalidate_all in Hs.
      destruct r as [ccd|v'|  |e]; try done.
      destruct (forallb _ _); simplify_eq. solve_extends.
    + done.
Qed.

Lemma extends_exec calls m m' : exec truthy throws calls m = Some m' → extends m m'.
Proof.
  revert m. induction calls as [|call calls IH]; intros m Hx; simpl in Hx.
  - simplify_eq. apply extends_refl.
  - destruct (step truthy throws call m) as [m1|] eqn:Hs; simpl in Hx; [|done].
    eapply extends_trans; [by eapply extends_step|by apply IH].
Qed.

Lemma exec_app calls1 calls2 m :
  exec truthy throws (calls1 ++ calls2) m = m1 ← exec truthy throws calls1 m; exec truthy throws calls2 m1.
Proof.
  revert m. induction calls1 as [|call calls1 IH]; intros m; simpl; [done|].
  destruct (step truthy throws call m); simpl; [apply IH|done].
Qed.

(** *** The sweep *)

Lemma sweep_store except m :
  JsMap.wf (_cacheStore m) →
  _cacheStore (_removeUnobservedCachesAsync except m) =
  List.filter (λ entry, negb (unused except m entry)) (_cacheStore m).
Proof.
  intros Hwf. rewrite <- (jsmap_delete_selected (unused except m)) by done.
  unfold _removeUnobservedCachesAsync, JsMap.entries.
  by destruct (List.map fst (List.filter (unused except m) (_cacheStore m))).
Qed.

Lemma sweep_fields except m :
  let m' := _removeUnobservedCachesAsync except m in
  heap m' = heap m ∧ tasks m' = tasks m ∧ trace m' = trace m
  ∧ nextSub m' = nextSub m ∧ _maxAgeInMS m' = _maxAgeInMS m.
Proof.
  unfold _removeUnobservedCachesAsync. by destruct (List.map _ _).
Qed.

(** *** The invariant of the manager's states *)

Lemma channel_ops_snoc c (tr : list event_t) ev :
  channel_ops c (tr ++ [ev]) = channel_ops c tr ++ channel_op c ev.
Proof.
  unfold channel_ops. rewrite List.map_app, concat_app. simpl.
  by rewrite app_nil_r.
Qed.

Lemma channel_ops_app c (tr1 tr2 : list event_t) :
  channel_ops c (tr1 ++ tr2) = channel_ops c tr1 ++ channel_ops c tr2.
Proof. unfold channel_ops. by rewrite List.map_app, concat_app. Qed.

Lemma channel_op_other c c' ev :
  event_cache ev = Some c → c' ≠ c →
  channel_op c' ev = [] ∧ is_next_on c' ev = false.
Proof.
  destruct ev; simpl; intros Hc Hne; simplify_eq;
    rewrite ?decide_False, ?bool_decide_eq_false_2 by done; done.
Qed.

Lemma channel_op_none c ev :
  event_cache ev = None → channel_op c ev = [] ∧ is_next_on c ev = false.
Proof. by destruct ev. Qed.

Lemma trace_ok_fresh m c :
  trace_ok m → length (heap m) ≤ c →
  channel_ops c (trace m) = [] ∧ existsb (is_next_on c) (trace m) = false.
Proof.
  unfold trace_ok. intros Hok Hc. induction Hok as [|ev tr [Hev _] _ IH]; [done|].
  unfold channel_ops in *. simpl. destruct IH as [-> ->].
  rewrite app_nil_r, orb_false_r.
  destruct (event_cache ev) as [c'|] eqn:Hec.
  - apply (channel_op_other c' c); [done|]. specialize (Hev c' eq_refl). lia.
  - by apply channel_op_none.
Qed.

Lemma inv_new_manager maxAge : inv (new_manager maxAge : manager).
Proof.
  split; [split|split; [|split]]; try apply Forall_nil_2.
  - apply NoDup_nil_2.
  - intros c cache Hl. simpl in Hl. by rewrite lookup_nil in Hl.
Qed.

Lemma store_ok_heap m m' :
  store_ok m → _cacheStore m' = _cacheStore m →
  (∀ c cache, heap m !! c = Some cache →
     ∃ cache', heap m' !! c = Some cache' ∧ key cache' = key cache) →
  store_ok m'.
Proof.
  intros [Hwf Hst] Hs Hh. unfold store_ok. rewrite Hs. split; [done|].
  eapply Forall_impl; [exact Hst|]. intros [k c] (cache & Hl & Hk). simpl in *.
  destruct (Hh c cache Hl) as (cache' & Hl' & Hk'). exists cache'.
  split; [done|congruence].
Qed.

Lemma tasks_ok_heap m m' :
  tasks_ok m → tasks m' = tasks m → length (heap m) ≤ length (heap m') → tasks_ok m'.
Proof.
  unfold tasks_ok. intros Hok -> Hle. eapply Forall_impl; [exact Hok|].
  intros task Ht c Hc. specialize (Ht c Hc). simpl in *. lia.
Qed.

Lemma trace_ok_heap m m' :
  trace_ok m → trace m' = trace m → length (heap m) ≤ length (heap m') →
  nextSub m ≤ nextSub m' → trace_ok m'.
Proof.
  unfold trace_ok. intros Hok -> Hle Hle'. eapply Forall_impl; [exact Hok|].
  intros ev [H1 H2]. simpl in *. split.
  - intros c Hc. specialize (H1 c Hc). lia.
  - intros sid Hs. specialize (H2 sid Hs). lia.
Qed.

Lemma inv_emit ev m :
  event_cache ev = None → event_sub ev = None → inv m → inv (emit ev m).
Proof.
  intros Hec Hes (Hst & Hta & Htr & Hh). repeat split.
  - apply Hst.
  - apply Hst.
  - done.
  - unfold trace_ok. simpl. apply Forall_app. split; [done|].
    apply Forall_singleton. rewrite Hec, Hes. done.
  - simpl. rewrite channel_ops_snoc.
    destruct (channel_op_none c ev Hec) as [-> _]. rewrite app_nil_r.
    by apply Hh.
  - simpl. rewrite existsb_app. simpl.
    destruct (channel_op_none c ev Hec) as [_ ->]. rewrite !orb_false_r.
    by apply Hh.
Qed.

Lemma inv_set_task t task m :
  (∀ c, task_cache task = Some c → c < length (heap m)) →
  inv m → inv (set_task t task m).
Proof.
  intros Ht (Hst & Hta & Htr & Hh). repeat split; try apply Hst; try done.
  - unfold tasks_ok. simpl. by apply Forall_insert.
  - by apply Hh.
  - by apply Hh.
Qed.

Lemma inv_spawn task m :
  (∀ c, task_cache task = Some c → c < length (heap m)) →
  inv m → inv (spawn task m).1.
Proof.
  intros Ht (Hst & Hta & Htr & Hh). repeat split; try apply Hst; try done.
  - unfold tasks_ok. simpl. apply Forall_app. split; [done|].
    by apply Forall_singleton.
  - by apply Hh.
  - by apply Hh.
Qed.

Lemma inv_removeUnobserved except m :
  inv m → inv (_removeUnobservedCachesAsync except m).
Proof.
  intros ([Hwf Hst] & Hta & Htr & Hh).
  destruct (sweep_fields except m) as (Hhp & Htk & Htc & Hns & _).
  split; [split|split; [|split]].
  - rewrite sweep_store by done. by apply jsmap_wf_filter.
  - rewrite sweep_store by done. rewrite Hhp.
    apply Forall_forall. intros entry Hin.
    apply list_elem_of_In, filter_In in Hin as [Hin _].
    by apply (proj1 (Forall_forall _ _) Hst), list_elem_of_In.
  - unfold tasks_ok. by rewrite Htk, Hhp.
  - unfold trace_ok. by rewrite Htc, Hhp, Hns.
  - intros c cache Hl. rewrite Hhp in Hl. rewrite Htc. by apply Hh.
Qed.

(** An operation on the subject of an entry, with the event that records it. *)
Lemma inv_channel ev c (f : cache_entry → cache_entry) nsub m :
  event_cache ev = Some c → c < length (heap m) →
  (∀ cache, key (f cache) = key cache
     ∧ subject (f cache) = ReplaySubject.run (channel_op c ev) (subject cache)
     ∧ initialized (f cache) = initialized cache || is_next_on c ev) →
  (∀ sid, event_sub ev = Some sid → sid < nsub) → nextSub m ≤ nsub →
  inv m →
  inv (mkManager (_cacheStore m) (_maxAgeInMS m) (alter f c (heap m)) (tasks m)
         nsub (trace m ++ [ev])).
Proof.
  intros Hec Hc Hf Hsub Hns (Hst & Hta & Htr & Hh).
  split; [|split; [|split]].
  - eapply store_ok_heap; [exact Hst|done|]. simpl. intros c' cache Hl.
    destruct (decide (c = c')) as [->|Hne].
    + exists (f cache). rewrite list_lookup_alter_eq, Hl. split; [done|apply Hf].
    + exists cache. by rewrite list_lookup_alter_ne.
  - unfold tasks_ok. simpl. by rewrite length_alter.
  - unfold trace_ok. simpl. rewrite length_alter. apply Forall_app. split.
    + eapply Forall_impl; [exact Htr|]. intros ev' [H1 H2]. split; [done|].
      intros sid Hs. specialize (H2 sid Hs). simpl in *. lia.
    + apply Forall_singleton. split; [|done]. intros c' Hc'. congruence.
  - intros c' cache' Hl. simpl in *. rewrite channel_ops_snoc, rs_run_app, existsb_app.
    simpl. rewrite orb_false_r.
    destruct (decide (c = c')) as [->|Hne].
    + rewrite list_lookup_alter_eq in Hl.
      destruct (heap m !! c') as [cache|] eqn:Hl0; simplify_eq/=.
      destruct (Hf cache) as (_ & -> & ->). destruct (Hh c' cache Hl0) as [-> ->].
      done.
    + rewrite list_lookup_alter_ne in Hl by done.
      destruct (channel_op_other c c' ev Hec) as [-> ->]; [congruence|].
      simpl. rewrite orb_false_r. by apply Hh.
Qed.

Lemma inv_setCacheData t c (v : T) m :
  c < length (heap m) → inv m → inv (_setCacheData t c v m).
Proof.
  intros Hc Hinv. unfold _setCacheData, emit, with_heap. simpl.
  apply (inv_channel (EvNext t c v)); try done.
  intros cache. simpl. rewrite decide_True, bool_decide_eq_true_2 by done.
  by rewrite orb_true_r.
Qed.

Lemma inv_subject_error t c (e : E) m :
  c < length (heap m) → inv m → inv (subject_error t c e m).
Proof.
  intros Hc Hinv. unfold subject_error, emit, with_heap. simpl.
  apply (inv_channel (EvError t c e)); try done.
  intros cache. simpl. rewrite decide_True by done. by rewrite orb_false_r.
Qed.

Lemma inv_subscribe_to c m m' : subscribe_to c m = Some m' → inv m → inv m'.
Proof.
  unfold subscribe_to. intros Hs Hinv.
  destruct (heap m !! c) as [cache|] eqn:Hl; simplify_eq/=.
  apply (inv_channel (EvSubscribe c (nextSub m))); try done.
  - by eapply lookup_lt_Some.
  - intros cache'. simpl. rewrite decide_True by done. by rewrite orb_false_r.
  - intros sid [= <-]. lia.
  - lia.
Qed.

Lemma inv_unsubscribe_from c sid m m' :
  unsubscribe_from c sid m = Some m' → inv m → inv m'.
Proof.
  unfold unsubscribe_from. intros Hs Hinv.
  destruct (heap m !! c) as [cache|] eqn:Hl; simplify_eq/=.
  unfold emit, with_heap. simpl.
  apply (inv_channel (EvUnsubscribe c sid)); try done.
  - by eapply lookup_lt_Some.
  - intros cache'. simpl. rewrite decide_True by done. by rewrite orb_false_r.
Qed.

Lemma inv_refreshCacheData t c m m' :
  _refreshCacheData throws t c m = Some m' → inv m → inv m'.
Proof.
  unfold _refreshCacheData. intros Hr Hinv.
  destruct (heap m !! c) as [cache|] eqn:Hl; simpl in Hr; [|done].
  apply lookup_lt_Some in Hl.
  destruct (throws _ _ _) as [e|]; simplify_eq.
  - apply inv_set_task; [done|]. apply inv_subject_error; [done|].
    by apply inv_emit.
  - apply inv_set_task; [|by apply inv_emit].
    simpl. by intros c' [= <-].
Qed.

Lemma inv_getAndEnsureCache k (args : CallArgs) (ctx : CallContext) m :
  inv m →
  inv (_getAndEnsureCache k args ctx m).1
  ∧ (_getAndEnsureCache k args ctx m).2 < length (heap (_getAndEnsureCache k args ctx m).1).
Proof.
  intros Hinv. unfold _getAndEnsureCache.
  destruct (JsMap.get k (_cacheStore m)) as [c|] eqn:Hg; simpl.
  - split; [done|]. destruct Hinv as ([_ Hst] & _).
    apply jsmap_get_Some_elem in Hg.
    destruct (proj1 (Forall_forall _ _) Hst (k, c) Hg) as (cache & Hl & _).
    by eapply lookup_lt_Some.
  - rewrite length_app. simpl. split; [|lia].
    destruct Hinv as ([Hwf Hst] & Hta & Htr & Hh).
    split; [|split; [|split]].
    + split; simpl; [by apply jsmap_wf_set_fresh|].
      rewrite jsmap_set_fresh by done. apply Forall_app. split.
      * eapply Forall_impl; [exact Hst|]. intros [k' c'] (cache & Hl & Hk).
        exists cache. split; [by apply lookup_app_l_Some|done].
      * apply Forall_singleton. simpl.
        exists (mkCache k args ctx (ReplaySubject.create 1) false).
        split; [|done]. rewrite lookup_app_r by done. by rewrite Nat.sub_diag.
    + eapply tasks_ok_heap; [exact Hta|done|]. simpl. rewrite length_app. lia.
    + eapply trace_ok_heap; [exact Htr|done| |done]. simpl. rewrite length_app. lia.
    + intros c cache Hl. simpl in *.
      apply lookup_app_Some in Hl as [Hl|[Hge Hl]]; [by apply Hh|].
      destruct (trace_ok_fresh m c Htr Hge) as [-> ->].
      destruct (c - length (heap m)) as [|n]; simplify_eq/=. done.
Qed.

Lemma inv_refresh_each all m m' children :
  refresh_each throws all m = Some (m', children) → inv m → inv m'.
Proof.
  revert m m' children. induction all as [|k all IH]; intros m m' children Hr Hinv.
  - simpl in Hr. by simplify_eq.
  - simpl in Hr. destruct (JsMap.get k (_cacheStore m)) as [c|] eqn:Hg; [|by eapply IH].
    destruct (_refreshCacheData throws _ c _) as [m2|] eqn:Hm2; simpl in Hr; [|done].
    destruct (refresh_each throws all m2) as [[m3 ch]|] eqn:Hm3; simpl in Hr; [|done].
    simplify_eq. eapply IH; [done|].
    eapply inv_refreshCacheData; [done|].
    apply (inv_spawn (Refresh_dataProvider c)); [|done].
    simpl. intros c' [= <-]. destruct Hinv as ([_ Hst] & _).
    apply jsmap_get_Some_elem in Hg.
    destruct (proj1 (Forall_forall _ _) Hst (k, c) Hg) as (cache & Hl & _).
    by eapply lookup_lt_Some.
Qed.

Lemma inv_task_cache m t task c :
  inv m → tasks m !! t = Some task → task_cache task = Some c →
  c < length (heap m).
Proof.
  intros (_ & Hta & _) Ht Hc.
  by apply (Forall_lookup_1 _ _ _ _ Hta Ht).
Qed.

Lemma inv_step call m m' : step truthy throws call m = Some m' → inv m → inv m'.
Proof.
  destruct call as [k args ctx|ck|c|c sid|t r now]; simpl; intros Hs Hinv.
  - simplify_eq. unfold getCache.
    destruct (inv_getAndEnsureCache k args ctx m Hinv) as [Hinv1 Hc].
    destruct (_getAndEnsureCache k args ctx m) as [m1 c]. simpl in *.
    apply inv_emit; [done..|].
    apply (inv_spawn (RefreshIfOut_getAsync k c)); [|by apply inv_removeUnobserved].
    simpl. intros c' [= <-].
    by destruct (sweep_fields (Some k) m1) as (-> & _).
  - simplify_eq. unfold invalidateAndUpdateAsync.
    apply (inv_spawn (Invalidate_sweep ck)); [done|by apply inv_removeUnobserved].
  - by eapply inv_subscribe_to.
  - by eapply inv_unsubscribe_from.
  - unfold resume in Hs.
    destruct (tasks m !! t) as [task|] eqn:Ht; simpl in Hs; [|done].
    pose proof (λ c, inv_task_cache m t task c Hinv Ht) as Htc.
    destruct task as [k c|c|c v|ck|all|children|rej]; simpl in Hs.
    + specialize (Htc c eq_refl).
      unfold resume_RefreshIfOut_getAsync in Hs.
      destruct r as [ccd|v|  |e]; try done.
      * destruct (cacheDataNeedsRefresh ccd now); [by eapply inv_refreshCacheData|].
        destruct (heap m !! c) as [cache|]; simpl in Hs; [|done].
        destruct ccd as [d|]; [destruct (negb (initialized cache))|];
          simplify_eq; apply inv_set_task; try done.
        by apply inv_setCacheData.
      * simplify_eq. by apply inv_set_task.
    + specialize (Htc c eq_refl).
      unfold resume_Refresh_dataProvider in Hs.
      destruct r as [ccd|v|  |e]; try done.
      * destruct (heap m !! c) as [cache|]; simplify_eq/=.
        apply inv_set_task; [|by apply inv_emit]. simpl. by intros c' [= <-].
      * simplify_eq. apply inv_set_task; [done|]. by apply inv_subject_error.
    + specialize (Htc c eq_refl).
      unfold resume_Refresh_storeAsync in Hs.
      destruct r as [ccd|v'|  |e]; simplify_eq; apply inv_set_task; try done.
      * by apply inv_setCacheData.
      * by apply inv_subject_error.
    + unfold resume_Invalidate_sweep in Hs.
      destruct r as [ccd|v'|  |e]; simplify_eq.
      apply inv_set_task; [done|]. by apply inv_emit.
    + unfold resume_Invalidate_removeAsync in Hs.
      destruct r as [ccd|v'|  |e]; simplify_eq.
      * destruct (refresh_each throws all m) as [[m1 ch]|] eqn:Hre; simplify_eq/=.
        apply inv_set_task; [done|]. by eapply inv_refresh_each.
      * by apply inv_set_task.
    + unfold resume_Invalidate_all in Hs.
      destruct r as [ccd|v'|  |e]; try done.
      destruct (forallb _ _); simplify_eq.
      apply inv_set_task; [done|]. by apply inv_emit.
    + done.
Qed.

Lemma inv_exec calls m m' : exec truthy throws calls m = Some m' → inv m → inv m'.
Proof.
  revert m. induction calls as [|call calls IH]; intros m Hx Hinv; simpl in Hx.
  - by simplify_eq.
  - destruct (step truthy throws call m) as [m1|] eqn:Hs; simpl in Hx; [|done].
    eapply IH; [done|]. by eapply inv_step.
Qed.

Lemma inv_reachable calls maxAge m :
  exec truthy throws calls (new_manager maxAge) = Some m → inv m.
Proof. intros Hx. eapply inv_exec; [done|apply inv_new_manager]. Qed.
(** *** What the other calls leave of a task *)

Lemma task_events_snoc t (tr : list event_t) ev :
  task_events t (tr ++ [ev]) =
  task_events t tr ++ (if bool_decide (event_task ev = Some t) then [ev] else []).
Proof. unfold task_events. by rewrite List.filter_app. Qed.

Lemma task_events_app t (tr1 tr2 : list event_t) :
  task_events t (tr1 ++ tr2) = task_events t tr1 ++ task_events t tr2.
Proof. unfold task_events. apply List.filter_app. Qed.

Lemma task_events_own t (evs : list event_t) :
  Forall (λ ev, event_task ev = Some t) evs → task_events t evs = evs.
Proof.
  induction 1 as [|ev evs Hev _ IH]; [done|]. unfold task_events in *. simpl.
  rewrite bool_decide_eq_true_2 by done. by rewrite IH.
Qed.

Lemma task_events_others t (evs : list event_t) :
  Forall (λ ev, event_task ev ≠ Some t) evs → task_events t evs = [].
Proof.
  induction 1 as [|ev evs Hev _ IH]; [done|]. unfold task_events in *. simpl.
  by rewrite bool_decide_eq_false_2 by done.
Qed.

Lemma frame_refl t m : frame t m m.
Proof. by unfold frame. Qed.

Lemma frame_trans t m1 m2 m3 : frame t m1 m2 → frame t m2 m3 → frame t m1 m3.
Proof.
  unfold frame. intros H12 H23 Ht. destruct (H12 Ht) as (Ht2 & Ha & Hb).
  destruct (H23 Ht2) as (Ht3 & Ha' & Hb'). split; [done|]. split; congruence.
Qed.

Lemma frame_fields t m m' :
  tasks m' = tasks m → trace m' = trace m → frame t m m'.
Proof. unfold frame. by intros -> ->. Qed.

Lemma frame_emit t ev m :
  (t < length (tasks m) → event_task ev ≠ Some t) → frame t m (emit ev m).
Proof.
  unfold frame. intros Hne Ht. simpl. rewrite task_events_snoc.
  rewrite bool_decide_eq_false_2 by auto. by rewrite app_nil_r.
Qed.

Lemma frame_set_task t t' task m :
  (t < length (tasks m) → t' ≠ t) → frame t m (set_task t' task m).
Proof.
  unfold frame. intros Hne Ht. simpl. rewrite length_insert.
  rewrite list_lookup_insert_ne by auto. done.
Qed.

Lemma frame_spawn t task m : frame t m (spawn task m).1.
Proof.
  unfold frame. intros Ht. simpl. rewrite length_app, lookup_app_l by done.
  split; [lia|done].
Qed.

Lemma frame_removeUnobserved t except m :
  frame t m (_removeUnobservedCachesAsync except m).
Proof.
  destruct (sweep_fields except m) as (_ & Htk & Htc & _). by apply frame_fields.
Qed.

Lemma frame_setCacheData t t' c (v : T) m :
  t' ≠ t → frame t m (_setCacheData t' c v m).
Proof.
  intros Hne. unfold _setCacheData.
  eapply frame_trans; [|apply frame_emit; simpl; congruence].
  by apply frame_fields.
Qed.

Lemma frame_subject_error t t' c (e : E) m :
  t' ≠ t → frame t m (subject_error t' c e m).
Proof.
  intros Hne. unfold subject_error.
  eapply frame_trans; [|apply frame_emit; simpl; congruence].
  by apply frame_fields.
Qed.

Lemma frame_refreshCacheData t t' c m m' :
  (t < length (tasks m) → t' ≠ t) →
  _refreshCacheData throws t' c m = Some m' → frame t m m'.
Proof.
  unfold _refreshCacheData. intros Hne Hr.
  destruct (heap m !! c) as [cache|]; simpl in Hr; [|done].
  assert (frame t m (emit (EvDataProvider t' (context cache) (lastArgs cache)) m))
    as F1 by (apply frame_emit; simpl; intros Ht [= ->]; by apply Hne).
  destruct (throws _ _ _) as [e|]; simplify_eq.
  - intros Ht. specialize (Hne Ht).
    eapply (frame_trans _ _ _ _ F1); [|done].
    eapply frame_trans; [by apply frame_subject_error|by apply frame_set_task].
  - eapply frame_trans; [exact F1|by apply frame_set_task].
Qed.

Lemma frame_refresh_each t all m m' children :
  refresh_each throws all m = Some (m', children) → frame t m m'.
Proof.
  revert m m' children. induction all as [|k all IH]; intros m m' children Hr.
  - simpl in Hr. simplify_eq. apply frame_refl.
  - simpl in Hr. destruct (JsMap.get k (_cacheStore m)) as [c|]; [|by eapply IH].
    destruct (_refreshCacheData throws _ c _) as [m2|] eqn:Hm2; simpl in Hr; [|done].
    destruct (refresh_each throws all m2) as [[m3 ch]|] eqn:Hm3; simpl in Hr; [|done].
    simplify_eq. intros Ht.
    assert (length (tasks m) ≠ t) as Hne by lia.
    pose proof (frame_spawn t (Refresh_dataProvider c) m) as F1.
    pose proof (frame_refreshCacheData t _ c _ _ (λ _, Hne) Hm2) as F2.
    pose proof (IH _ _ _ Hm3) as F3.
    exact (frame_trans _ _ _ _ F1 (frame_trans _ _ _ _ F2 F3) Ht).
Qed.

Ltac solve_frame :=
  repeat first
    [ apply frame_refl
    | apply frame_setCacheData; congruence
    | apply frame_subject_error; congruence
    | by eapply frame_refresh_each
    | apply frame_removeUnobserved
    | eapply frame_refreshCacheData; [|eassumption]; congruence
    | eapply frame_trans; [|apply frame_set_task; congruence]
    | eapply frame_trans; [|apply frame_emit; simpl; congruence]
    | eapply frame_trans; [|apply frame_spawn] ].

(** A call that does not resume task [t] leaves it alone. *)
Lemma frame_step t call m m' :
  step truthy throws call m = Some m' → resumes t call = false → frame t m m'.
Proof.
  destruct call as [k args ctx|ck|c|c sid|t' r now]; simpl; intros Hs Hres.
  - simplify_eq. unfold getCache, _getAndEnsureCache.
    destruct (JsMap.get k (_cacheStore m)) as [c|]; simpl.
    + intros Ht.
      pose proof (frame_removeUnobserved t (Some k) m) as F1.
      pose proof (frame_spawn t (RefreshIfOut_getAsync k c)
                    (_removeUnobservedCachesAsync (Some k) m)) as F2.
      refine (frame_trans _ _ _ _ (frame_trans _ _ _ _ F1 F2) _ Ht).
      apply frame_emit. simpl. rewrite length_app.
      destruct (sweep_fields (Some k) m) as (_ & -> & _). intros Hlt [= Heq]. lia.
    + set (m1 := with_store _ _). intros Ht.
      assert (frame t m m1) as F0 by (by apply frame_fields).
      pose proof (frame_removeUnobserved t (Some k) m1) as F1.
      pose proof (frame_spawn t (RefreshIfOut_getAsync k (length (heap m)))
                    (_removeUnobservedCachesAsync (Some k) m1)) as F2.
      refine (frame_trans _ _ _ _
                (frame_trans _ _ _ _ F0 (frame_trans _ _ _ _ F1 F2)) _ Ht).
      apply frame_emit. simpl. rewrite length_app.
      destruct (sweep_fields (Some k) m1) as (_ & -> & _). intros Hlt [= Heq]. lia.
  - simplify_eq. unfold invalidateAndUpdateAsync. solve_frame.
  - unfold subscribe_to in Hs. destruct (heap m !! c); simplify_eq/=.
    intros Ht. simpl. rewrite task_events_snoc. simpl. by rewrite app_nil_r.
  - unfold unsubscribe_from in Hs. destruct (heap m !! c); simplify_eq/=.
    intros Ht. simpl. rewrite task_events_snoc. simpl. by rewrite app_nil_r.
  - apply bool_decide_eq_false in Hres. unfold resume in Hs.
    destruct (tasks m !! t') as [task|]; simpl in Hs; [|done].
    destruct task as [k c|c|c v|ck|all|children|rej]; simpl in Hs.
    + unfold resume_RefreshIfOut_getAsync in Hs.
      destruct r as [ccd|v|  |e]; try done.
      * destruct (cacheDataNeedsRefresh ccd now); [solve_frame|].
        destruct (heap m !! c) as [cache|]; simpl in Hs; [|done].
        destruct ccd as [d|]; [destruct (negb (initialized cache))|];
          simplify_eq; solve_frame.
      * simplify_eq. solve_frame.
    + unfold resume_Refresh_dataProvider in Hs.
      destruct r as [ccd|v|  |e]; try done.
      * destruct (heap m !! c) as [cache|]; simplify_eq/=. solve_frame.
      * simplify_eq. solve_frame.
    + unfold resume_Refresh_storeAsync in Hs.
      destruct r as [ccd|v'|  |e]; simplify_eq; solve_frame.
    + unfold resume_Invalidate_sweep in Hs.
      destruct r as [ccd|v'|  |e]; simplify_eq; solve_frame.
    + unfold resume_Invalidate_removeAsync in Hs.
      destruct r as [ccd|v'|  |e]; simplify_eq; [|solve_frame].
      destruct (refresh_each throws all m) as [[m1 ch]|] eqn:Hre; simplify_eq/=.
      solve_frame.
    + unfold resume_Invalidate_all in Hs.
      destruct r as [ccd|v'|  |e]; try done.
      destruct (forallb _ _); simplify_eq. solve_frame.
    + done.
Qed.

Lemma frame_exec t calls m m' :
  exec truthy throws calls m = Some m' → Forall (λ call, resumes t call = false) calls →
  frame t m m'.
Proof.
  revert m. induction calls as [|call calls IH]; intros m Hx Hall; simpl in Hx.
  - simplify_eq. apply frame_refl.
  - destruct (step truthy throws call m) as [m1|] eqn:Hs; simpl in Hx; [|done].
    apply Forall_cons in Hall as [Hc Hall].
    eapply frame_trans; [by eapply frame_step|by apply IH].
Qed.

(** A settled task is never resumed: what it has done is all it ever does. *)
Lemma settled_exec t rej calls m m' :
  tasks m !! t = Some (Settled rej) → exec truthy throws calls m = Some m' →
  tasks m' !! t = Some (Settled rej)
  ∧ task_events t (trace m') = task_events t (trace m).
Proof.
  revert m. induction calls as [|call calls IH]; intros m Ht Hx; simpl in Hx.
  - by simplify_eq.
  - destruct (step truthy throws call m) as [m1|] eqn:Hs; simpl in Hx; [|done].
    assert (resumes t call = false) as Hres.
    { destruct call as [| | | |t' r now]; try done. simpl.
      apply bool_decide_eq_false_2. intros ->. simpl in Hs. unfold resume in Hs.
      by rewrite Ht in Hs. }
    destruct (frame_step t call m m1 Hs Hres (lookup_lt_Some _ _ _ Ht))
      as (_ & Ht1 & He1).
    rewrite Ht in Ht1. destruct (IH m1 Ht1 Hx) as [Ht' He']. split; congruence.
Qed.

(** *** The entry store *)

Lemma getAndEnsureCache_fields k (args : CallArgs) (ctx : CallContext) m :
  let m' := (_getAndEnsureCache k args ctx m).1 in
  tasks m' = tasks m ∧ trace m' = trace m ∧ nextSub m' = nextSub m
  ∧ _maxAgeInMS m' = _maxAgeInMS m.
Proof. unfold _getAndEnsureCache. by destruct (JsMap.get k (_cacheStore m)). Qed.

(** C4: [_getAndEnsureCache] returns the entry the store has for the key and
    changes nothing; when the store has none it allocates an entry with the
    given key, arguments and context, a new subject and [initialized = false],
    and appends it to the store under the key.  No sequence of calls (later
    reads of the key among them) changes the key, arguments or context of
    an entry. *)
Theorem getAndEnsureCache_spec m k (args : CallArgs) (ctx : CallContext) :
  (∀ c, JsMap.get k (_cacheStore m) = Some c →
        _getAndEnsureCache k args ctx m = (m, c))
  ∧ (JsMap.get k (_cacheStore m) = None →
       let c := length (heap m) in
       let m' := (_getAndEnsureCache k args ctx m).1 in
       (_getAndEnsureCache k args ctx m).2 = c
       ∧ heap m' = heap m ++ [mkCache k args ctx (ReplaySubject.create 1) false]
       ∧ heap m' !! c = Some (mkCache k args ctx (ReplaySubject.create 1) false)
       ∧ _cacheStore m' = _cacheStore m ++ [(k, c)]
       ∧ JsMap.get k (_cacheStore m') = Some c
       ∧ tasks m' = tasks m ∧ trace m' = trace m)
  ∧ (∀ calls m' c cache,
       exec truthy throws calls m = Some m' → heap m !! c = Some cache →
       ∃ cache', heap m' !! c = Some cache' ∧ key cache' = key cache
                 ∧ lastArgs cache' = lastArgs cache
                 ∧ context cache' = context cache).
Proof.
  split; [|split].
  - intros c Hg. unfold _getAndEnsureCache. by rewrite Hg.
  - intros Hg. unfold _getAndEnsureCache. rewrite Hg. simpl.
    rewrite jsmap_set_fresh by done.
    repeat split; try done.
    + rewrite lookup_app_r by done. by rewrite Nat.sub_diag.
    + rewrite jsmap_get_app_fresh, Hg. by rewrite decide_True.
  - intros calls m' c cache Hx Hl.
    destruct (extends_exec calls m m' Hx) as (_ & _ & Hh & _).
    destruct (Hh c cache Hl) as (cache' & Hl' & Hk & Ha & Hc & _). eauto.
Qed.

(** *** The garbage collector *)

(** C5: on a store with unique keys, the sweep keeps, in order, exactly the
    entries whose key is the excepted one or whose subject is observed, and
    touches nothing else; a read sweeps with its key as the exception, after
    the entry was found or made, and an invalidation starts by sweeping with
    no exception. *)
Theorem sweep_removes_exactly_unobserved m except :
  JsMap.wf (_cacheStore m) →
  let m' := _removeUnobservedCachesAsync except m in
  _cacheStore m'
  = List.filter (λ entry, negb (unused except m entry)) (_cacheStore m)
  ∧ (∀ k c cache, (k, c) ∈ _cacheStore m → heap m !! c = Some cache →
       ((k, c) ∈ _cacheStore m'
        ↔ ¬ (Some k ≠ except ∧ ReplaySubject.observed (subject cache) = false)))
  ∧ heap m' = heap m ∧ tasks m' = tasks m ∧ trace m' = trace m
  ∧ (∀ k args ctx,
       let m1 := (_getAndEnsureCache k args ctx m).1 in
       _cacheStore (getCache k args ctx m).1
       = List.filter (λ entry, negb (unused (Some k) m1 entry)) (_cacheStore m1))
  ∧ (∀ cacheKey,
       _cacheStore (invalidateAndUpdateAsync cacheKey m).1
       = List.filter (λ entry, negb (unused None m entry)) (_cacheStore m)
       ∧ tasks (invalidateAndUpdateAsync cacheKey m).1
         = tasks m ++ [Invalidate_sweep cacheKey]).
Proof.
  clear truthy. intros Hwf. simpl.
  destruct (sweep_fields except m) as (Hhp & Htk & Htc & _).
  split; [by apply sweep_store|]. split; [|split; [done|split; [done|split; [done|split]]]].
  - intros k c cache Hin Hl. rewrite sweep_store by done.
    rewrite list_elem_of_In, filter_In, <- list_elem_of_In.
    unfold unused. simpl. rewrite Hl.
    destruct (ReplaySubject.observed (subject cache));
      destruct (decide (Some k = except)) as [Heq|Hne].
    + rewrite bool_decide_eq_false_2 by (intros ?; done). simpl. intuition done.
    + rewrite bool_decide_eq_true_2 by done. simpl. intuition done.
    + rewrite bool_decide_eq_false_2 by (intros ?; done). simpl. intuition done.
    + rewrite bool_decide_eq_true_2 by done. simpl. intuition done.
  - intros k args ctx. unfold getCache.
    assert (JsMap.wf (_cacheStore (_getAndEnsureCache k args ctx m).1)) as Hwf1.
    { unfold _getAndEnsureCache.
      destruct (JsMap.get k (_cacheStore m)) eqn:Hg; simpl; [done|].
      by apply jsmap_wf_set_fresh. }
    destruct (_getAndEnsureCache k args ctx m) as [m1 c]. simpl in *.
    by apply sweep_store.
  - intros cacheKey. unfold invalidateAndUpdateAsync. simpl.
    destruct (sweep_fields None m) as (_ & -> & _). split; [|done].
    by apply sweep_store.
Qed.

(** *** What [next] and [error] do to the subject of an entry *)

Lemma live_subject m c cache :
  inv m → heap m !! c = Some cache →
  rs_inv (subject cache) ∧ ReplaySubject._bufferSize (subject cache) = 1.
Proof.
  intros (_ & _ & _ & Hh) Hl. destruct (Hh c cache Hl) as [-> _].
  split; [apply rs_inv_run, rs_inv_create|]. by rewrite rs_bufferSize_run.
Qed.

Lemma rs_next_buffer (v : T) (s : ReplaySubject.Subject T E) :
  rs_inv s → ReplaySubject._bufferSize s = 1 →
  ReplaySubject.isStopped s = false →
  ReplaySubject._buffer (ReplaySubject.next v s) = [v]
  ∧ ReplaySubject.isStopped (ReplaySubject.next v s) = false.
Proof.
  intros Hinv Hn Hst. rewrite rs_next_live by done. simpl. split; [|done].
  rewrite Hn, rs_drop_last, last_snoc. done.
Qed.

Lemma rs_stopped_error (s : ReplaySubject.Subject T E) :
  rs_inv s →
  ReplaySubject.isStopped s
  = match ReplaySubject.thrownError s with Some _ => true | None => false end.
Proof. by intros (_ & _ & ->). Qed.

(** [next] on the subject of an entry: the value is published when the
    subject has not failed, and the call is ignored when it has. *)
Lemma next_called_spec m c cache (v : T) :
  inv m → heap m !! c = Some cache →
  next_called v cache
    (mkCache (key cache) (lastArgs cache) (context cache)
       (ReplaySubject.next v (subject cache)) true).
Proof.
  intros Hinv Hl. destruct (live_subject m c cache Hinv Hl) as [Hrs Hn].
  pose proof (rs_stopped_error _ Hrs) as Hst.
  unfold next_called. simpl. repeat (split; [done|]).
  destruct (ReplaySubject.thrownError (subject cache)) as [e|] eqn:Herr.
  - by apply rs_next_stopped.
  - destruct (rs_next_buffer v _ Hrs Hn Hst) as [Hbuf Hst'].
    unfold rs_published. split; [done|]. rewrite rs_next_live by done. simpl.
    done.
Qed.

(** [error] on the subject of an entry: the subject is ended with the error
    when it has not failed, and the call is ignored when it has. *)
Lemma error_called_spec m c cache (e : E) :
  inv m → heap m !! c = Some cache →
  error_called e cache (on_subject (ReplaySubject.error e) cache).
Proof.
  intros Hinv Hl. destruct (live_subject m c cache Hinv Hl) as [Hrs Hn].
  pose proof (rs_stopped_error _ Hrs) as Hst.
  unfold error_called. simpl. repeat (split; [done|]).
  unfold ReplaySubject.error. rewrite Hst.
  destruct (ReplaySubject.thrownError (subject cache)) as [e0|] eqn:Herr; [done|].
  unfold rs_failed. simpl. done.
Qed.

(** What [_refreshCacheData] does before it awaits anything. *)
Lemma refreshCacheData_spec m t c cache :
  heap m !! c = Some cache → t < length (tasks m) →
  ∃ m', _refreshCacheData throws t c m = Some m'
    ∧ trace m'
      = trace m ++ refresh_start throws (trace m) t c (context cache) (lastArgs cache)
    ∧ _cacheStore m' = _cacheStore m ∧ _maxAgeInMS m' = _maxAgeInMS m
    ∧ nextSub m' = nextSub m
    ∧ match throws (trace m) (context cache) (lastArgs cache) with
      | None =>
          tasks m' = <[t := Refresh_dataProvider c]> (tasks m) ∧ heap m' = heap m
      | Some e =>
          tasks m' = <[t := Settled None]> (tasks m)
          ∧ heap m' = alter (on_subject (ReplaySubject.error e)) c (heap m)
      end.
Proof.
  intros Hl Hlt. unfold _refreshCacheData, refresh_start. rewrite Hl. simpl.
  destruct (throws _ _ _) as [e|]; eexists; (split; [done|]); simpl.
  - by rewrite <- (assoc_L (++)).
  - done.
Qed.

(** *** The staleness resolver *)

(** C1 (as the code has it): when [getAsync] resolves, the read's task goes
    on as [_refreshCacheData] exactly when the store had no record or the
    record is outdated ([now >= createdAt + maxAgeMS]): the producer is
    invoked and, when it throws, [error] is called on the entry's subject.
    When the record is fresh and the entry is not initialized, the record's
    data is passed to [next] of the entry's subject, the entry is marked
    initialized, and that is all the task does: the producer is not
    invoked.  The data is published by that when the subject has not
    failed; on a subject that has failed the call is ignored: nothing is
    kept for replay and nobody is handed anything. *)
Theorem staleness_check maxAgeInMS calls m t k c cache ccd now :
  exec truthy throws calls (new_manager maxAgeInMS) = Some m →
  tasks m !! t = Some (RefreshIfOut_getAsync k c) →
  heap m !! c = Some cache →
  ∃ m', step truthy throws (Resume t (GetResolved ccd) now) m = Some m'
   ∧ (Some m' = _refreshCacheData throws t c m
      ↔ ccd = None ∨ ∃ d, ccd = Some d ∧ (now >= createdAt d + maxAgeMS d)%Z)
   ∧ (Some m' = _refreshCacheData throws t c m →
        trace m'
        = trace m
          ++ refresh_start throws (trace m) t c (context cache) (lastArgs cache)
        ∧ match throws (trace m) (context cache) (lastArgs cache) with
          | None =>
              tasks m' !! t = Some (Refresh_dataProvider c) ∧ heap m' = heap m
          | Some e =>
              tasks m' !! t = Some (Settled None)
              ∧ ∃ cache', heap m' !! c = Some cache' ∧ error_called e cache cache'
          end)
   ∧ (∀ d, ccd = Some d → (now < createdAt d + maxAgeMS d)%Z →
        tasks m' !! t = Some (Settled None)
        ∧ if initialized cache
          then heap m' = heap m ∧ trace m' = trace m
          else trace m' = trace m ++ [EvNext t c (data d)]
               ∧ ∃ cache', heap m' !! c = Some cache'
                   ∧ next_called (data d) cache cache').
Proof.
  intros Hx Ht Hl. pose proof (inv_reachable _ _ _ Hx) as Hinv.
  pose proof (lookup_lt_Some _ _ _ Ht) as Hlt.
  destruct (refreshCacheData_spec m t c cache Hl Hlt)
    as (mr & Hr & Htrr & _ & _ & _ & Hcase).
  assert (trace mr ≠ trace m ∧ ∀ v : T, trace mr ≠ trace m ++ [EvNext t c v])
    as [Hne1 Hne2].
  { rewrite Htrr. unfold refresh_start. split.
    - intros Heq. apply (f_equal length) in Heq. rewrite length_app in Heq.
      simpl in Heq. lia.
    - intros v Heq. apply app_inv_head in Heq. by destruct (throws _ _ _). }
  assert (trace mr
          = trace m
            ++ refresh_start throws (trace m) t c (context cache) (lastArgs cache)
          ∧ match throws (trace m) (context cache) (lastArgs cache) with
            | None =>
                tasks mr !! t = Some (Refresh_dataProvider c) ∧ heap mr = heap m
            | Some e =>
                tasks mr !! t = Some (Settled None)
                ∧ ∃ cache', heap mr !! c = Some cache' ∧ error_called e cache cache'
            end) as Hstart.
  { split; [done|]. destruct (throws _ _ _) as [e|]; destruct Hcase as [-> ->].
    - split; [by apply list_lookup_insert_eq|].
      exists (on_subject (ReplaySubject.error e) cache).
      split; [by rewrite list_lookup_alter_eq, Hl|by eapply error_called_spec].
    - split; [by apply list_lookup_insert_eq|done]. }
  simpl. unfold resume. rewrite Ht. simpl.
  unfold resume_RefreshIfOut_getAsync, cacheDataNeedsRefresh, isCacheOutdated.
  destruct ccd as [d|].
  - destruct (Z.geb_spec now (createdAt d + maxAgeMS d)) as [Hge|Hlt'].
    + rewrite Hr. exists mr. split; [done|]. split; [|split].
      * split; [intros _; right; exists d; split; [done|lia]|done].
      * done.
      * intros d' [= <-] Hfresh. lia.
    + rewrite Hl. simpl. destruct (initialized cache) eqn:Hi; simpl.
      * eexists. split; [done|]. rewrite Hr. split; [|split].
        -- split; [intros [= <-]; by destruct Hne1|].
           intros [?|(d' & [= <-] & Hge)]; [done|lia].
        -- intros [= <-]. by destruct Hne1.
        -- intros d' [= <-] _. simpl. by rewrite list_lookup_insert_eq.
      * eexists. split; [done|]. rewrite Hr. split; [|split].
        -- split; [intros [= <-]; by destruct (Hne2 (data d))|].
           intros [?|(d' & [= <-] & Hge)]; [done|lia].
        -- intros [= <-]. by destruct (Hne2 (data d)).
        -- intros d' [= <-] _. simpl. rewrite list_lookup_insert_eq by done.
           split; [done|]. split; [done|]. eexists.
           split; [by rewrite list_lookup_alter_eq, Hl|].
           by eapply next_called_spec.
  - rewrite Hr. exists mr. split; [done|]. split; [|split].
    + split; [by left|done].
    + done.
    + intros d [=].
Qed.

(** *** The max-age of stored records *)

(** C10: in every run of a manager constructed with [maxAgeInMS], every
    record passed to [storeAsync], for any key and by any task, carries
    [maxAgeMS = maxAgeInMS]. *)
Theorem stored_maxAge_is_the_managers maxAgeInMS calls m t k d :
  exec truthy throws calls (new_manager maxAgeInMS) = Some m →
  EvStoreAsync t k d ∈ trace m →
  maxAgeMS d = maxAgeInMS ∧ _maxAgeInMS m = maxAgeInMS.
Proof.
  intros Hx Hin. destruct (extends_exec _ _ _ Hx) as (Hma & (evs & Htr & Hok) & _).
  split; [|done]. simpl in Htr. rewrite Htr in Hin.
  unfold news_ok in Hok. rewrite Forall_forall in Hok.
  destruct (Hok _ Hin) as [_ Hst]. by apply (Hst t k d).
Qed.

(** *** The refresh pipeline *)

(** When the producer resolves: the record is written, nothing else. *)
Lemma refresh_provider_resolved m0 t c cache0 (v : T) now :
  tasks m0 !! t = Some (Refresh_dataProvider c) →
  heap m0 !! c = Some cache0 →
  ∃ m1, step truthy throws (Resume t (ProviderResolved v) now) m0 = Some m1
    ∧ trace m1
      = trace m0 ++ [EvStoreAsync t (key cache0) (mkCacheData v (_maxAgeInMS m0) now)]
    ∧ heap m1 = heap m0
    ∧ tasks m1 !! t = Some (Refresh_storeAsync c v).
Proof.
  intros Ht Hl. simpl. unfold resume. rewrite Ht. simpl. rewrite Hl. simpl.
  eexists. split; [done|]. simpl. split; [done|]. split; [done|].
  apply list_lookup_insert_eq. by eapply lookup_lt_Some.
Qed.

(** While the write is awaited, the other calls leave the task and the
    entry's key, arguments and context as they are. *)
Lemma refresh_awaiting_store m0 m1 t c cache0 (v : T) calls m2 :
  heap m0 !! c = Some cache0 → heap m1 = heap m0 →
  tasks m1 !! t = Some (Refresh_storeAsync c v) →
  Forall (λ call, resumes t call = false) calls →
  exec truthy throws calls m1 = Some m2 →
  tasks m2 !! t = Some (Refresh_storeAsync c v)
  ∧ task_events t (trace m2) = task_events t (trace m1)
  ∧ ∃ cache2, heap m2 !! c = Some cache2 ∧ entry_kept cache0 cache2.
Proof.
  intros Hl Hh Ht Hall Hx.
  destruct (frame_exec t calls m1 m2 Hx Hall (lookup_lt_Some _ _ _ Ht))
    as (_ & Ht2 & He2).
  split; [congruence|]. split; [done|].
  destruct (extends_exec calls m1 m2 Hx) as (_ & _ & Hk & _).
  apply Hk. by rewrite Hh.
Qed.

(** C2 (as the code has it): after the producer resolves with a value, the
    task passes [{ data, maxAgeMS = _maxAgeInMS, createdAt = now() }] to
    [storeAsync] under the entry's key; when that write has resolved,
    whatever other calls were made meanwhile, the task calls [next] with the
    value on the entry's subject and marks the entry initialized, and is
    done: from the producer's settlement on, what the task does is that one
    write, then that one [next].  The value is published by that when the
    subject has not failed; on a subject that has failed (the refresh of a
    later read of a failed entry) the call is ignored: nothing is kept for
    replay and nobody is handed anything. *)
Theorem refresh_success maxAgeInMS calls0 m0 t c cache0 (v : T) now1 :
  exec truthy throws calls0 (new_manager maxAgeInMS) = Some m0 →
  tasks m0 !! t = Some (Refresh_dataProvider c) →
  heap m0 !! c = Some cache0 →
  ∃ m1, step truthy throws (Resume t (ProviderResolved v) now1) m0 = Some m1
    ∧ trace m1
      = trace m0 ++ [EvStoreAsync t (key cache0) (mkCacheData v (_maxAgeInMS m0) now1)]
    ∧ heap m1 = heap m0
    ∧ ∀ calls m2 now2,
        Forall (λ call, resumes t call = false) calls →
        exec truthy throws calls m1 = Some m2 →
        ∃ m3 cache2 cache3, step truthy throws (Resume t Resolved now2) m2 = Some m3
          ∧ heap m2 !! c = Some cache2
          ∧ trace m3 = trace m2 ++ [EvNext t c v]
          ∧ heap m3 !! c = Some cache3
          ∧ next_called v cache2 cache3
          ∧ key cache3 = key cache0 ∧ lastArgs cache3 = lastArgs cache0
          ∧ context cache3 = context cache0
          ∧ tasks m3 !! t = Some (Settled None)
          ∧ ∀ calls' m4, exec truthy throws calls' m3 = Some m4 →
              task_events t (trace m4)
              = task_events t (trace m0)
                ++ [EvStoreAsync t (key cache0) (mkCacheData v (_maxAgeInMS m0) now1);
                    EvNext t c v].
Proof.
  intros Hx0 Ht Hl. pose proof (inv_reachable _ _ _ Hx0) as Hinv0.
  destruct (refresh_provider_resolved m0 t c cache0 v now1 Ht Hl)
    as (m1 & Hs1 & Htr1 & Hh1 & Ht1).
  exists m1. split; [done|]. split; [done|]. split; [done|].
  intros calls m2 now2 Hall Hx.
  pose proof (inv_exec _ _ _ Hx (inv_step _ _ _ Hs1 Hinv0)) as Hinv2.
  destruct (refresh_awaiting_store m0 m1 t c cache0 v calls m2 Hl Hh1 Ht1 Hall Hx)
    as (Ht2 & He2 & cache2 & Hl2 & Hk & Ha & Hc & _).
  pose proof (lookup_lt_Some _ _ _ Ht2) as Hlt.
  pose proof (next_called_spec m2 c cache2 v Hinv2 Hl2) as Hnext.
  simpl. unfold resume. rewrite Ht2. simpl.
  eexists. exists cache2. eexists. split; [done|]. split; [done|]. simpl.
  split; [done|].
  split; [by rewrite list_lookup_alter_eq, Hl2|].
  split; [done|]. simpl. split; [done|]. split; [done|]. split; [done|].
  split; [by apply list_lookup_insert_eq|].
  intros calls' m4 Hx'.
  eapply settled_exec in Hx' as [_ ->];
    [|simpl; by apply list_lookup_insert_eq].
  simpl. rewrite task_events_snoc, He2, Htr1, task_events_snoc. simpl.
  rewrite !bool_decide_eq_true_2 by done. by rewrite <- (assoc_L (++)).
Qed.

(** C3 (as the code has it): when the producer fails, by throwing when it
    is invoked or by its observable failing, the task calls [error] with
    that failure on the entry's subject and is done, having written nothing
    and published nothing; when the write rejects, it calls [error] with
    that rejection and is done, having published nothing.  The call ends
    the subject with that error when the subject has not failed: the error
    is handed to every observer, the observers are dropped and the buffer is
    kept.  On a subject that has failed (the refresh of a later read of a
    failed entry) the call is ignored, and the subject holds the error it
    held.  So, whatever the call, also an invalidation that starts the
    refreshes of several entries at once, the error the subject of an entry
    holds after it is the one it held before or else the first that was
    passed to [error] on that entry during the call. *)
Theorem refresh_failure maxAgeInMS calls0 m0 c cache0 :
  exec truthy throws calls0 (new_manager maxAgeInMS) = Some m0 →
  heap m0 !! c = Some cache0 →
  (∀ t (e : E),
     t < length (tasks m0) →
     throws (trace m0) (context cache0) (lastArgs cache0) = Some e →
     ∃ m1 cache1, _refreshCacheData throws t c m0 = Some m1
       ∧ trace m1
         = trace m0
           ++ [EvDataProvider t (context cache0) (lastArgs cache0); EvError t c e]
       ∧ heap m1 !! c = Some cache1 ∧ error_called e cache0 cache1
       ∧ tasks m1 !! t = Some (Settled None)
       ∧ ∀ calls' m4, exec truthy throws calls' m1 = Some m4 →
           task_events t (trace m4)
           = task_events t (trace m0)
             ++ [EvDataProvider t (context cache0) (lastArgs cache0);
                 EvError t c e])
  ∧ (∀ t (e : E) now,
       tasks m0 !! t = Some (Refresh_dataProvider c) →
       ∃ m1 cache1, step truthy throws (Resume t (Rejected e) now) m0 = Some m1
         ∧ trace m1 = trace m0 ++ [EvError t c e]
         ∧ heap m1 !! c = Some cache1 ∧ error_called e cache0 cache1
         ∧ tasks m1 !! t = Some (Settled None)
         ∧ ∀ calls' m4, exec truthy throws calls' m1 = Some m4 →
             task_events t (trace m4) = task_events t (trace m0) ++ [EvError t c e])
  ∧ (∀ t (v : T) now1,
       tasks m0 !! t = Some (Refresh_dataProvider c) →
       ∃ m1, step truthy throws (Resume t (ProviderResolved v) now1) m0 = Some m1
         ∧ ∀ calls m2 (e : E) now2,
             Forall (λ call, resumes t call = false) calls →
             exec truthy throws calls m1 = Some m2 →
             ∃ m3 cache2 cache3,
               step truthy throws (Resume t (Rejected e) now2) m2 = Some m3
               ∧ heap m2 !! c = Some cache2
               ∧ trace m3 = trace m2 ++ [EvError t c e]
               ∧ heap m3 !! c = Some cache3 ∧ error_called e cache2 cache3
               ∧ tasks m3 !! t = Some (Settled None)
               ∧ ∀ calls' m4, exec truthy throws calls' m3 = Some m4 →
                   task_events t (trace m4)
                   = task_events t (trace m0)
                     ++ [EvStoreAsync t (key cache0)
                           (mkCacheData v (_maxAgeInMS m0) now1);
                         EvError t c e])
  ∧ (∀ call m1 cache1,
       step truthy throws call m0 = Some m1 → heap m1 !! c = Some cache1 →
       ReplaySubject.thrownError (subject cache1)
       = match ReplaySubject.thrownError (subject cache0) with
         | Some e0 => Some e0
         | None =>
             ReplaySubject.failure
               (channel_ops c (drop (length (trace m0)) (trace m1)))
         end).
Proof.
  intros Hx0 Hl. pose proof (inv_reachable _ _ _ Hx0) as Hinv0.
  split; [|split; [|split]]; cycle 3.
  { intros call m1 cache1 Hs Hl1.
    pose proof (inv_step _ _ _ Hs Hinv0) as Hinv1.
    destruct (extends_step _ _ _ Hs) as (_ & (evs & Htr & _) & _).
    destruct (proj2 (proj2 (proj2 Hinv0)) c cache0 Hl) as [Hsub0 _].
    destruct (proj2 (proj2 (proj2 Hinv1)) c cache1 Hl1) as [Hsub1 _].
    rewrite Hsub1, Hsub0, !rs_thrownError_run by (apply rs_inv_create || done).
    by rewrite Htr, drop_app_length, channel_ops_app, rs_failure_app. }
  - intros t e Hlt Hthrows.
    destruct (refreshCacheData_spec m0 t c cache0 Hl Hlt)
      as (m1 & Hr & Htr1 & _ & _ & _ & Hcase).
    rewrite Hthrows in Hcase. destruct Hcase as [Ht1 Hh1].
    unfold refresh_start in Htr1. rewrite Hthrows in Htr1.
    exists m1, (on_subject (ReplaySubject.error e) cache0).
    split; [done|]. split; [done|].
    split; [by rewrite Hh1, list_lookup_alter_eq, Hl|].
    split; [by eapply error_called_spec|].
    assert (tasks m1 !! t = Some (Settled None)) as Hs
      by (rewrite Ht1; by apply list_lookup_insert_eq).
    split; [done|]. intros calls' m4 Hx'.
    eapply settled_exec in Hx' as [_ ->]; [|exact Hs].
    rewrite Htr1, task_events_app. f_equal. apply task_events_own.
    repeat constructor.
  - intros t e now Ht. pose proof (lookup_lt_Some _ _ _ Ht) as Hlt.
    simpl. unfold resume. rewrite Ht. simpl.
    eexists. exists (on_subject (ReplaySubject.error e) cache0).
    split; [done|]. simpl. split; [done|].
    split; [by rewrite list_lookup_alter_eq, Hl|].
    split; [by eapply error_called_spec|].
    split; [by apply list_lookup_insert_eq|].
    intros calls' m4 Hx'.
    eapply settled_exec in Hx' as [_ ->];
      [|simpl; by apply list_lookup_insert_eq].
    simpl. rewrite task_events_snoc. simpl.
    by rewrite bool_decide_eq_true_2.
  - intros t v now1 Ht.
    destruct (refresh_provider_resolved m0 t c cache0 v now1 Ht Hl)
      as (m1 & Hs1 & Htr1 & Hh1 & Ht1).
    exists m1. split; [done|]. intros calls m2 e now2 Hall Hx.
    pose proof (inv_exec _ _ _ Hx (inv_step _ _ _ Hs1 Hinv0)) as Hinv2.
    destruct (refresh_awaiting_store m0 m1 t c cache0 v calls m2 Hl Hh1 Ht1 Hall Hx)
      as (Ht2 & He2 & cache2 & Hl2 & _).
    pose proof (lookup_lt_Some _ _ _ Ht2) as Hlt2.
    simpl. unfold resume. rewrite Ht2. simpl.
    eexists. exists cache2, (on_subject (ReplaySubject.error e) cache2).
    split; [done|]. split; [done|]. simpl.
    split; [done|]. split; [by rewrite list_lookup_alter_eq, Hl2|].
    split; [by eapply error_called_spec|].
    split; [by apply list_lookup_insert_eq|].
    intros calls' m4 Hx'.
    eapply settled_exec in Hx' as [_ ->];
      [|simpl; by apply list_lookup_insert_eq].
    simpl. rewrite task_events_snoc, He2, Htr1, task_events_snoc. simpl.
    rewrite !bool_decide_eq_true_2 by done. by rewrite <- (assoc_L (++)).
Qed.

(** *** Invalidation *)

Lemma provider_call_heap m m' t c :
  heap m' = heap m → provider_call m' t c = provider_call m t c.
Proof. unfold provider_call. by intros ->. Qed.

Lemma targets_present_heap all m c :
  store_ok m → c ∈ targets_present all m → is_Some (heap m !! c).
Proof.
  intros [_ Hst] Hin. unfold targets_present in Hin.
  apply list_elem_of_omap in Hin as (k & _ & Hg).
  destruct (proj1 (Forall_forall _ _) Hst (k, c) (jsmap_get_Some_elem _ _ _ Hg))
    as (cache & Hl & _). by exists cache.
Qed.

(** What the refreshes started for the entries at [cs] do depends on the
    context and the arguments the entries were created with only. *)
Lemma refresh_starts_heap (tr : list event_t) t (h h' : list cache_entry) cs :
  (∀ c, (λ cache, (context cache, lastArgs cache)) <$> h' !! c
        = (λ cache, (context cache, lastArgs cache)) <$> h !! c) →
  refresh_starts throws tr t h' cs = refresh_starts throws tr t h cs.
Proof.
  intros Hh. revert tr t. induction cs as [|c cs IH]; intros tr t; [done|].
  simpl. specialize (Hh c).
  destruct (h' !! c) as [cache'|], (h !! c) as [cache|]; simpl in Hh;
    simplify_eq; [|done].
  rewrite H, H0. by rewrite IH.
Qed.

(** When no producer throws, the refreshes started are the producer
    invocations, in order. *)
Lemma refresh_starts_return m (tr : list event_t) t cs :
  Forall (λ c, is_Some (heap m !! c)) cs →
  producers_return throws m cs →
  refresh_starts throws tr t (heap m) cs
  = concat (imap (λ i c, provider_call m (t + i) c) cs).
Proof.
  revert tr t. induction cs as [|c cs IH]; intros tr t Hall Hret; [done|].
  apply Forall_cons in Hall as [[cache Hl] Hall].
  simpl. unfold provider_call at 1. rewrite Hl. unfold refresh_start.
  rewrite (Hret tr c cache) by (done || left). simpl.
  rewrite Nat.add_0_r. f_equal.
  rewrite IH; [|done|intros tr' c' cache' Hin; apply Hret; by right].
  f_equal. apply imap_ext. intros i c' _. simpl. f_equal. lia.
Qed.

Lemma refresh_start_provider_call (tr : list event_t) t c ctx args :
  List.filter is_provider_call (refresh_start throws tr t c ctx args)
  = [EvDataProvider t ctx args].
Proof. unfold refresh_start. by destruct (throws _ _ _). Qed.

(** Whether or not producers throw, each refresh started invokes its
    producer: the invocations among what the refreshes do are one per entry,
    in order. *)
Lemma refresh_starts_provider_calls m (tr : list event_t) t cs :
  Forall (λ c, is_Some (heap m !! c)) cs →
  List.filter is_provider_call (refresh_starts throws tr t (heap m) cs)
  = concat (imap (λ i c, provider_call m (t + i) c) cs).
Proof.
  revert tr t. induction cs as [|c cs IH]; intros tr t Hall; [done|].
  apply Forall_cons in Hall as [[cache Hl] Hall].
  cbn [refresh_starts imap concat]. rewrite Hl. cbv zeta.
  rewrite List.filter_app, IH by done. f_equal.
  - unfold provider_call.
    by rewrite Hl, Nat.add_0_r, refresh_start_provider_call.
  - f_equal. apply imap_ext. intros i c' _. simpl. f_equal. lia.
Qed.

(** A call of [_refreshCacheData] as task [t] on the entry at [c]: the task
    awaits the producer or, where that threw, is done, having called [error]
    on the entry's subject. *)
Lemma refreshCacheData_task m t c cache :
  heap m !! c = Some cache → t < length (tasks m) →
  ∃ m' task cache',
    _refreshCacheData throws t c m = Some m'
    ∧ tasks m' = <[t := task]> (tasks m)
    ∧ (task = Refresh_dataProvider c ∨ task = Settled None)
    ∧ trace m'
      = trace m ++ refresh_start throws (trace m) t c (context cache) (lastArgs cache)
    ∧ heap m' !! c = Some cache'
    ∧ context cache' = context cache ∧ lastArgs cache' = lastArgs cache
    ∧ (throws (trace m) (context cache) (lastArgs cache) = None →
       task = Refresh_dataProvider c ∧ heap m' = heap m).
Proof.
  intros Hl Hlt.
  destruct (refreshCacheData_spec m t c cache Hl Hlt)
    as (m' & Hr & Htr & _ & _ & _ & Hcase).
  destruct (throws (trace m) (context cache) (lastArgs cache)) as [e|] eqn:Hthrows;
    destruct Hcase as [Ht Hh].
  - exists m', (Settled None), (on_subject (ReplaySubject.error e) cache).
    split; [done|]. split; [done|]. split; [by right|]. split; [done|].
    split; [by rewrite Hh, list_lookup_alter_eq, Hl|done].
  - exists m', (Refresh_dataProvider c), cache.
    split; [done|]. split; [done|]. split; [by left|]. split; [done|].
    split; [by rewrite Hh|done].
Qed.

(** One refresh started, as a new task, for the entry at [c]. *)
Lemma refresh_started m c cache :
  store_ok m → heap m !! c = Some cache →
  let n := length (tasks m) in
  ∃ m2 task,
    _refreshCacheData throws n c (spawn (Refresh_dataProvider c) m).1 = Some m2
    ∧ tasks m2 = tasks m ++ [task]
    ∧ (task = Refresh_dataProvider c ∨ task = Settled None)
    ∧ trace m2
      = trace m ++ refresh_start throws (trace m) n c (context cache) (lastArgs cache)
    ∧ _cacheStore m2 = _cacheStore m
    ∧ store_ok m2
    ∧ (∀ c', c' ≠ c → heap m2 !! c' = heap m !! c')
    ∧ (∀ c', (λ cache, (context cache, lastArgs cache)) <$> heap m2 !! c'
             = (λ cache, (context cache, lastArgs cache)) <$> heap m !! c')
    ∧ (throws (trace m) (context cache) (lastArgs cache) = None →
       task = Refresh_dataProvider c ∧ heap m2 = heap m).
Proof.
  intros Hok Hl n.
  set (m1 := (spawn (Refresh_dataProvider c) m).1).
  assert (tasks m1 = tasks m ++ [Refresh_dataProvider c]) as Ht1 by done.
  destruct (refreshCacheData_spec m1 n c cache Hl)
    as (m2 & Hr & Htr2 & Hs2 & _ & _ & Hcase).
  { rewrite Ht1, length_app. simpl. lia. }
  change (trace m1) with (trace m) in Htr2, Hcase.
  change (_cacheStore m1) with (_cacheStore m) in Hs2.
  change (heap m1) with (heap m) in Hcase.
  destruct (throws (trace m) (context cache) (lastArgs cache)) as [e|] eqn:Hthrows;
    destruct Hcase as [Ht2 Hh2];
    rewrite Ht1, insert_app_r_alt, Nat.sub_diag in Ht2 by done; simpl in Ht2.
  - exists m2, (Settled None). split; [done|]. split; [done|].
    split; [by right|]. split; [done|]. split; [done|].
    split; [|split; [|split; [|done]]].
    + destruct Hok as [Hwf Hst]. split; [by rewrite Hs2|]. rewrite Hs2, Hh2.
      eapply Forall_impl; [exact Hst|]. intros [k c'] (cache' & Hl' & Hk).
      simpl in *. destruct (decide (c' = c)) as [->|Hne].
      * rewrite list_lookup_alter_eq, Hl'. by eexists.
      * rewrite list_lookup_alter_ne by done. by eexists.
    + intros c' Hne. by rewrite Hh2, list_lookup_alter_ne.
    + intros c'. rewrite Hh2. destruct (decide (c' = c)) as [->|Hne].
      * rewrite list_lookup_alter_eq. by destruct (heap m !! c).
      * by rewrite list_lookup_alter_ne.
  - exists m2, (Refresh_dataProvider c). split; [done|]. split; [done|].
    split; [by left|]. split; [done|]. split; [done|]. rewrite Hh2.
    split; [|done]. destruct Hok as [Hwf Hst]. split; by rewrite ?Hs2, ?Hh2.
Qed.

(** The refreshes started for a list of keys: one new task per key the store
    has an entry for, in order, each having invoked the producer and, where
    it threw, called [error] on its entry's subject and ended; the entries
    of no other key are touched.  When no producer throws, every new task
    awaits its producer and no entry has changed. *)
Lemma refresh_each_spec all m :
  store_ok m →
  let cs := targets_present all m in
  let n := length (tasks m) in
  ∃ m' new,
    refresh_each throws all m = Some (m', seq n (length cs))
    ∧ tasks m' = tasks m ++ new
    ∧ Forall2 (λ c task, task = Refresh_dataProvider c ∨ task = Settled None) cs new
    ∧ trace m' = trace m ++ refresh_starts throws (trace m) n (heap m) cs
    ∧ (∀ c, c ∉ cs → heap m' !! c = heap m !! c)
    ∧ _cacheStore m' = _cacheStore m
    ∧ (producers_return throws m cs →
       new = List.map Refresh_dataProvider cs ∧ heap m' = heap m).
Proof.
  revert m. induction all as [|k all IH]; intros m Hok.
  - exists m, []. simpl. rewrite !app_nil_r. repeat split; done.
  - destruct (JsMap.get k (_cacheStore m)) as [c|] eqn:Hg.
    2:{ assert (targets_present (k :: all) m = targets_present all m) as ->
          by (unfold targets_present; simpl; by rewrite Hg).
        cbn [refresh_each]. rewrite Hg. by apply IH. }
    assert (targets_present (k :: all) m = c :: targets_present all m) as ->
      by (unfold targets_present; simpl; by rewrite Hg).
    cbn [refresh_each]. rewrite Hg.
    destruct (targets_present_heap [k] m c Hok) as [cache Hl].
    { unfold targets_present. simpl. rewrite Hg. left. }
    destruct (refresh_started m c cache Hok Hl)
      as (m2 & task & Hr & Ht2 & Htask & Htr2 & Hs2 & Hok2 & Hne2 & Hargs2 & Hret2).
    change (let '(m1, t') := spawn (Refresh_dataProvider c) m in
            m2 ← _refreshCacheData throws t' c m1;
            '(m3, children) ← refresh_each throws all m2;
            Some (m3, t' :: children))
      with (m2 ← _refreshCacheData throws (length (tasks m)) c
                   (spawn (Refresh_dataProvider c) m).1;
            '(m3, children) ← refresh_each throws all m2;
            Some (m3, length (tasks m) :: children)).
    rewrite Hr. cbn [mbind option_bind].
    assert (targets_present all m2 = targets_present all m) as Htp
      by (unfold targets_present; by rewrite Hs2).
    destruct (IH m2 Hok2) as (m3 & new & Hre & Ht3 & Hnew & Htr3 & Hne3 & Hs3 & Hret3).
    rewrite Htp, Ht2 in Hre, Htr3. rewrite Htp in Hnew, Hne3, Hret3.
    rewrite length_app in Hre, Htr3. simpl in Hre, Htr3.
    rewrite Nat.add_1_r in Hre, Htr3. rewrite Hre. simpl.
    exists m3, (task :: new). split; [done|].
    split; [by rewrite Ht3, Ht2, <- (assoc_L (++))|].
    split; [by constructor|].
    split.
    { rewrite Htr3, Htr2, <- (assoc_L (++)). f_equal.
      rewrite (refresh_starts_heap _ _ (heap m) (heap m2)) by done.
      cbn [refresh_starts]. by rewrite Hl. }
    split.
    { intros c' Hnin. apply not_elem_of_cons in Hnin as [Hne Hnin].
      rewrite Hne3 by done. by apply Hne2. }
    split; [by rewrite Hs3, Hs2|].
    intros Hret.
    destruct (Hret2 (Hret (trace m) c cache ltac:(left) Hl)) as [-> Hh2].
    destruct Hret3 as [-> Hh3].
    { intros tr c' cache' Hin Hl'. rewrite Hh2 in Hl'.
      apply (Hret tr c' cache'); [by right|done]. }
    split; [done|]. by rewrite Hh3, Hh2.
Qed.

(** When [removeAsync] has resolved: a refresh is started for every target
    the store has an entry for, in order. *)
Lemma invalidate_refreshes m3 t all now :
  tasks m3 !! t = Some (Invalidate_removeAsync all) →
  store_ok m3 →
  let cs := targets_present all m3 in
  let n := length (tasks m3) in
  ∃ m4 new, step truthy throws (Resume t Resolved now) m3 = Some m4
    ∧ tasks m4 = <[t := Invalidate_all (seq n (length cs))]> (tasks m3 ++ new)
    ∧ Forall2 (λ c task, task = Refresh_dataProvider c ∨ task = Settled None) cs new
    ∧ trace m4 = trace m3 ++ refresh_starts throws (trace m3) n (heap m3) cs
    ∧ List.filter is_provider_call (refresh_starts throws (trace m3) n (heap m3) cs)
      = concat (imap (λ i c, provider_call m3 (n + i) c) cs)
    ∧ Forall (λ c, is_Some (heap m3 !! c)) cs
    ∧ (∀ c, c ∉ cs → heap m4 !! c = heap m3 !! c)
    ∧ _cacheStore m4 = _cacheStore m3
    ∧ (producers_return throws m3 cs →
       new = List.map Refresh_dataProvider cs
       ∧ trace m4
         = trace m3 ++ concat (imap (λ i c, provider_call m3 (n + i) c) cs)
       ∧ heap m4 = heap m3).
Proof.
  intros Ht Hok cs n. simpl. unfold resume. rewrite Ht. simpl.
  destruct (refresh_each_spec all m3 Hok)
    as (m4 & new & -> & Ht4 & Hnew & Htr4 & Hne4 & Hs4 & Hret4).
  assert (Forall (λ c, is_Some (heap m3 !! c)) cs) as Hall.
  { apply Forall_forall. intros c Hin. by eapply targets_present_heap. }
  simpl. exists (set_task t (Invalidate_all (seq n (length cs))) m4), new.
  split; [done|]. simpl. rewrite Ht4.
  split; [done|]. split; [done|]. split; [done|].
  split; [by apply refresh_starts_provider_calls|]. split; [done|].
  split; [done|]. split; [done|]. intros Hret.
  destruct (Hret4 Hret) as [-> Hh4]. split; [done|]. split; [|done].
  rewrite Htr4. f_equal. by apply refresh_starts_return.
Qed.


(** *** The entries' channels *)

Lemma channel_ops_subscribe c (tr : list event_t) sid :
  ReplaySubject.OpSubscribe sid ∈ channel_ops c tr →
  ∃ ev, ev ∈ tr ∧ event_sub ev = Some sid.
Proof.
  induction tr as [|ev tr IH].
  - intros Hin. by apply elem_of_nil in Hin.
  - change (channel_ops c (ev :: tr)) with (channel_op c ev ++ channel_ops c tr).
    intros [Hin|Hin]%elem_of_app.
    + exists ev. split; [left|].
      destruct ev; simpl in Hin; try (by apply elem_of_nil in Hin);
        destruct (decide _); try (by apply elem_of_nil in Hin);
        apply list_elem_of_singleton in Hin; by simplify_eq.
    + destruct (IH Hin) as (ev' & Hev' & Hs). exists ev'. split; [by right|done].
Qed.

Lemma fresh_in_trace m c :
  trace_ok m → ReplaySubject.OpSubscribe (nextSub m) ∉ channel_ops c (trace m).
Proof.
  intros Hok Hin. apply channel_ops_subscribe in Hin as (ev & Hev & Hs).
  unfold trace_ok in Hok. rewrite Forall_forall in Hok.
  destruct (Hok ev Hev) as [_ Hlt]. specialize (Hlt _ Hs). lia.
Qed.

Lemma fresh_in_news n maxAge (evs : list event_t) c sid :
  news_ok n maxAge evs → sid < n →
  ReplaySubject.OpSubscribe sid ∉ channel_ops c evs.
Proof.
  intros Hok Hlt Hin. apply channel_ops_subscribe in Hin as (ev & Hev & Hs).
  unfold news_ok in Hok. rewrite Forall_forall in Hok.
  destruct (Hok ev Hev) as [Hge _]. specialize (Hge _ Hs). lia.
Qed.

Lemma subscribe_to_spec m c cache :
  heap m !! c = Some cache →
  ∃ m', step truthy throws (CallSubscribe c) m = Some m'
    ∧ trace m' = trace m ++ [EvSubscribe c (nextSub m)]
    ∧ nextSub m' = S (nextSub m)
    ∧ heap m' !! c
      = Some (on_subject (ReplaySubject.subscribe (nextSub m)) cache).
Proof.
  intros Hl. simpl. unfold subscribe_to. rewrite Hl. simpl.
  eexists. split; [done|]. simpl. by rewrite list_lookup_alter_eq, Hl.
Qed.

(** The subject of an entry after a subscription and whatever followed:
    the history before, the subscription, and a history in which the
    subscriber's name is not given out again. *)
Lemma subject_after_subscribe m c cache m' calls' m'' cache'' :
  inv m → heap m !! c = Some cache →
  step truthy throws (CallSubscribe c) m = Some m' →
  exec truthy throws calls' m' = Some m'' → heap m'' !! c = Some cache'' →
  ∃ ops',
    channel_ops c (trace m'')
    = channel_ops c (trace m) ++ (ReplaySubject.OpSubscribe (nextSub m) :: ops')
    ∧ (ReplaySubject.OpSubscribe (nextSub m) ∉ ops')
    ∧ subject cache''
      = ReplaySubject.run (channel_ops c (trace m'')) (ReplaySubject.create 1).
Proof.
  intros Hinv Hl Hs Hx Hl''.
  destruct (subscribe_to_spec m c cache Hl) as (m0 & Hs0 & Htr & Hns & _).
  rewrite Hs in Hs0. injection Hs0 as <-.
  pose proof (inv_exec calls' m' m'' Hx (inv_step _ _ _ Hs Hinv)) as Hinv''.
  destruct (extends_exec calls' m' m'' Hx) as (_ & (evs & Htr'' & Hok) & _).
  exists (channel_ops c evs). split; [|split].
  - rewrite Htr'', Htr, !channel_ops_app. rewrite <- (assoc_L (++)). f_equal.
    unfold channel_ops at 1. simpl. by rewrite decide_True.
  - eapply fresh_in_news; [exact Hok|]. lia.
  - destruct Hinv'' as (_ & _ & _ & Hh). by apply Hh.
Qed.


(** C9 (as the code has it): once the subject of an entry holds an error,
    it holds that error, and its buffer, for good; every subscription made
    on the entry from then on is handed the buffered value (the last one
    published with effect before the failure) if there is one, then that
    error, and nothing else ever.  It is handed no value exactly when none
    was published before the failure. *)
Theorem error_terminal maxAgeInMS calls m c cache (e : E) :
  exec truthy throws calls (new_manager maxAgeInMS) = Some m →
  heap m !! c = Some cache →
  ReplaySubject.thrownError (subject cache) = Some e →
  ReplaySubject._buffer (subject cache)
  = option_list (last (ReplaySubject.published (channel_ops c (trace m))))
  ∧ ∀ calls1 m1,
      exec truthy throws calls1 m = Some m1 →
      ∃ cache1 m2,
        heap m1 !! c = Some cache1
        ∧ ReplaySubject.thrownError (subject cache1) = Some e
        ∧ ReplaySubject._buffer (subject cache1)
          = ReplaySubject._buffer (subject cache)
        ∧ step truthy throws (CallSubscribe c) m1 = Some m2
        ∧ ∀ calls2 m3 cache3,
            exec truthy throws calls2 m2 = Some m3 → heap m3 !! c = Some cache3 →
            ReplaySubject.received (nextSub m1) (subject cache3)
            = List.map ReplaySubject.NNext (ReplaySubject._buffer (subject cache))
              ++ [ReplaySubject.NError e].
Proof.
  intros Hx Hl Herr.
  pose proof (inv_reachable _ _ _ Hx) as Hinv.
  destruct (proj2 (proj2 (proj2 Hinv)) c cache Hl) as [Hsub _].
  assert (ReplaySubject.failure (channel_ops c (trace m)) = Some e) as Hfail.
  { rewrite Hsub, rs_thrownError_run in Herr by (apply rs_inv_create || done). done. }
  split; [by rewrite Hsub, rs_buffer_created|].
  intros calls1 m1 Hx1.
  pose proof (inv_exec _ _ _ Hx1 Hinv) as Hinv1.
  destruct (extends_exec _ _ _ Hx1) as (_ & (evs & Htr1 & _) & Hk & _).
  destruct (Hk c cache Hl) as (cache1 & Hl1 & _).
  destruct (proj2 (proj2 (proj2 Hinv1)) c cache1 Hl1) as [Hsub1 _].
  assert (ReplaySubject.failure (channel_ops c (trace m1)) = Some e) as Hfail1.
  { rewrite Htr1, channel_ops_app. clear -Hfail.
    induction (channel_ops c (trace m)) as [|o ops IH]; [done|].
    destruct o; simpl in *; auto. }
  assert (ReplaySubject.published (channel_ops c (trace m1))
          = ReplaySubject.published (channel_ops c (trace m))) as Hpub1.
  { rewrite Htr1, channel_ops_app. clear -Hfail.
    induction (channel_ops c (trace m)) as [|o ops IH]; [done|].
    destruct o; simpl in *; auto. by rewrite IH. }
  destruct (subscribe_to_spec m1 c cache1 Hl1) as (m2 & Hs2 & _).
  exists cache1, m2. split; [done|].
  split; [by rewrite Hsub1, rs_thrownError_run by (apply rs_inv_create || done)|].
  split; [by rewrite Hsub1, Hsub, !rs_buffer_created, Hpub1|].
  split; [done|]. intros calls2 m3 cache3 Hx3 Hl3.
  destruct (subject_after_subscribe m1 c cache1 m2 calls2 m3 cache3 Hinv1 Hl1 Hs2 Hx3 Hl3)
    as (ops' & Hops & Hfresh & ->).
  rewrite Hops, (rs_subscribe_after_failure _ _ _ e Hfail1); [|by apply fresh_in_trace; apply Hinv1|done].
  by rewrite Hpub1, Hsub, rs_buffer_created.
Qed.

(** *** The initialized flag *)

Lemma published_initialized c (tr : list event_t) :
  ReplaySubject.published (channel_ops c tr) ≠ [] → existsb (is_next_on c) tr = true.
Proof.
  induction tr as [|ev tr IH]; [done|].
  change (channel_ops c (ev :: tr)) with (channel_op c ev ++ channel_ops c tr).
  intros Hpub.
  destruct ev as [ | | | |t c' v|t c' e|c' sid|c' sid| ]; simpl in *;
    try (by apply IH).
  - destruct (decide (c' = c)) as [->|Hne]; [by rewrite bool_decide_eq_true_2|].
    rewrite bool_decide_eq_false_2 by done. by apply IH.
  - destruct (decide (c' = c)); [done|by apply IH].
  - destruct (decide (c' = c)); by apply IH.
  - destruct (decide (c' = c)); by apply IH.
Qed.

Lemma initialized_published c (tr : list event_t) :
  ReplaySubject.failure (channel_ops c tr) = None →
  existsb (is_next_on c) tr = true →
  ReplaySubject.published (channel_ops c tr) ≠ [].
Proof.
  induction tr as [|ev tr IH]; [done|].
  change (channel_ops c (ev :: tr)) with (channel_op c ev ++ channel_ops c tr).
  intros Hfail Hi.
  destruct ev as [ | | | |t c' v|t c' e|c' sid|c' sid| ]; simpl in *;
    try (by apply IH).
  - destruct (decide (c' = c)) as [->|Hne]; [done|].
    rewrite bool_decide_eq_false_2 in Hi by done. by apply IH.
  - destruct (decide (c' = c)); [done|by apply IH].
  - destruct (decide (c' = c)); by apply IH.
  - destruct (decide (c' = c)); by apply IH.
Qed.

(** C7 (as the code has it): an entry is made with [initialized = false];
    its flag is set exactly when [next] has been called on its subject
    (which only [_setCacheData] does, setting the flag in the same step),
    and no call resets it.  Every publication with effect leaves the flag
    set; on a subject that has not failed the flag is set only if a value
    was published with effect. *)
Theorem initialized_flag maxAgeInMS calls m c cache :
  exec truthy throws calls (new_manager maxAgeInMS) = Some m →
  heap m !! c = Some cache →
  let ops := channel_ops c (trace m) in
  initialized cache = existsb (is_next_on c) (trace m)
  ∧ (ReplaySubject.published ops ≠ [] → initialized cache = true)
  ∧ (ReplaySubject.failure ops = None → initialized cache = true →
       ReplaySubject.published ops ≠ [])
  ∧ (∀ calls' m',
       exec truthy throws calls' m = Some m' →
       ∃ cache', heap m' !! c = Some cache'
         ∧ (initialized cache = true → initialized cache' = true)
         ∧ (initialized cache = false → initialized cache' = true →
              ∃ evs t (v : T),
                trace m' = trace m ++ evs ∧ EvNext t c v ∈ evs))
  ∧ (∀ k args ctx,
       JsMap.get k (_cacheStore m) = None →
       ∃ cache',
         heap (_getAndEnsureCache k args ctx m).1
           !! (_getAndEnsureCache k args ctx m).2 = Some cache'
         ∧ initialized cache' = false).
Proof.
  intros Hx Hl. simpl.
  pose proof (inv_reachable _ _ _ Hx) as Hinv.
  destruct (proj2 (proj2 (proj2 Hinv)) c cache Hl) as [_ Hinit].
  split; [done|]. split; [|split; [|split]].
  - intros Hpub. rewrite Hinit. by apply published_initialized.
  - intros Hfail Hi. rewrite Hinit in Hi. by apply initialized_published.
  - intros calls' m' Hx'.
    destruct (extends_exec _ _ _ Hx') as (_ & (evs & Htr' & _) & Hk & _).
    destruct (Hk c cache Hl) as (cache' & Hl' & _ & _ & _ & Hmono).
    exists cache'. split; [done|]. split; [done|]. intros Hi Hi'.
    pose proof (inv_exec _ _ _ Hx' Hinv) as Hinv'.
    destruct (proj2 (proj2 (proj2 Hinv')) c cache' Hl') as [_ Hinit'].
    rewrite Hinit', Htr', existsb_app, <- Hinit, Hi in Hi'. simpl in Hi'.
    apply existsb_exists in Hi' as (ev & Hev & Hnext).
    exists evs. destruct ev; try done. simpl in Hnext.
    apply bool_decide_eq_true in Hnext as ->.
    eexists _, _. split; [done|]. by apply list_elem_of_In.
  - intros k args ctx Hg. unfold _getAndEnsureCache. rewrite Hg. simpl.
    exists (mkCache k args ctx (ReplaySubject.create 1) false).
    split; [|done]. rewrite lookup_app_r by done. by rewrite Nat.sub_diag.
Qed.

(** *** More about reads and sweeps *)

Lemma manager_eq m m' :
  _cacheStore m = _cacheStore m' → _maxAgeInMS m = _maxAgeInMS m' →
  heap m = heap m' → tasks m = tasks m' → nextSub m = nextSub m' →
  trace m = trace m' → m = m'.
Proof. destruct m, m'. simpl. by intros -> -> -> -> -> ->. Qed.

Lemma getCache_unfold k (args : CallArgs) (ctx : CallContext) m :
  let m1 := (_getAndEnsureCache k args ctx m).1 in
  let c := (_getAndEnsureCache k args ctx m).2 in
  getCache k args ctx m
  = (emit (EvGetAsync (length (tasks m)) k)
       (spawn (RefreshIfOut_getAsync k c)
          (_removeUnobservedCachesAsync (Some k) m1)).1, c).
Proof.
  pose proof (getAndEnsureCache_fields k args ctx m) as (Ht & _).
  unfold getCache. destruct (_getAndEnsureCache k args ctx m) as [m1 c]. simpl in *.
  destruct (sweep_fields (Some k) m1) as (_ & -> & _). by rewrite Ht.
Qed.

Lemma getAndEnsureCache_get k (args : CallArgs) (ctx : CallContext) m :
  JsMap.get k (_cacheStore (_getAndEnsureCache k args ctx m).1)
  = Some (_getAndEnsureCache k args ctx m).2.
Proof.
  unfold _getAndEnsureCache.
  destruct (JsMap.get k (_cacheStore m)) as [c|] eqn:Hg; simpl; [done|].
  rewrite jsmap_set_fresh by done. rewrite jsmap_get_app_fresh, Hg.
  by rewrite decide_True.
Qed.

Lemma getAndEnsureCache_wf k (args : CallArgs) (ctx : CallContext) m :
  JsMap.wf (_cacheStore m) →
  JsMap.wf (_cacheStore (_getAndEnsureCache k args ctx m).1).
Proof.
  intros Hwf. unfold _getAndEnsureCache.
  destruct (JsMap.get k (_cacheStore m)) as [c|] eqn:Hg; simpl; [done|].
  by apply jsmap_wf_set_fresh.
Qed.

Lemma sweep_get except k m :
  JsMap.wf (_cacheStore m) →
  JsMap.get k (_cacheStore (_removeUnobservedCachesAsync except m))
  = match JsMap.get k (_cacheStore m) with
    | Some c => if unused except m (k, c) then None else Some c
    | None => None
    end.
Proof.
  intros Hwf. rewrite sweep_store, jsmap_get_filter by done.
  destruct (JsMap.get k (_cacheStore m)) as [c|]; [|done].
  by destruct (unused except m (k, c)).
Qed.

Lemma sweep_wf except m :
  JsMap.wf (_cacheStore m) →
  JsMap.wf (_cacheStore (_removeUnobservedCachesAsync except m)).
Proof. intros Hwf. rewrite sweep_store by done. by apply jsmap_wf_filter. Qed.

Lemma unused_heap except m m' entry :
  heap m' = heap m → unused except m' entry = unused except m entry.
Proof. unfold unused. by intros ->. Qed.

Lemma unused_excepted k m c : unused (Some k) m (k, c) = false.
Proof. unfold unused. simpl. by rewrite bool_decide_eq_false_2 by (by intros []). Qed.

(** A sweep that finds nothing to remove returns the manager as it is. *)
Lemma sweep_nothing except m :
  List.filter (unused except m) (_cacheStore m) = [] →
  _removeUnobservedCachesAsync except m = m.
Proof.
  intros Hf. unfold _removeUnobservedCachesAsync, JsMap.entries. by rewrite Hf.
Qed.

Lemma filter_filter_nil {A} (f g : A → bool) (l : list A) :
  (∀ x, x ∈ l → g x = true → f x = true) →
  List.filter g (List.filter (λ x, negb (f x)) l) = [].
Proof.
  intros Hfg. induction l as [|x l IH]; simpl; [done|].
  assert (∀ y, y ∈ l → g y = true → f y = true) as Hl
    by (intros y Hy; apply Hfg; by right).
  destruct (f x) eqn:Hfx; simpl; [by apply IH|].
  destruct (g x) eqn:Hgx; [|by apply IH].
  rewrite (Hfg x) in Hfx; [done|left|done].
Qed.

Lemma filter_filter_absorb {A} (f g : A → bool) (l : list A) :
  (∀ x, x ∈ l → g x = true → f x = true) →
  List.filter g (List.filter f l) = List.filter g l.
Proof.
  intros Hfg. induction l as [|x l IH]; simpl; [done|].
  assert (∀ y, y ∈ l → g y = true → f y = true) as Hl
    by (intros y Hy; apply Hfg; by right).
  destruct (f x) eqn:Hfx; simpl; [by rewrite IH|].
  destruct (g x) eqn:Hgx; [|by apply IH].
  rewrite (Hfg x) in Hfx; [done|left|done].
Qed.

(** X1: in every state the manager reaches, the store has one entry per key,
    the entry a key is mapped to carries that key, and no entry is stored
    under two keys. *)
Theorem single_entry_per_key maxAgeInMS calls m :
  exec truthy throws calls (new_manager maxAgeInMS) = Some m →
  NoDup (JsMap.keys (_cacheStore m))
  ∧ (∀ k c, (k, c) ∈ _cacheStore m →
       JsMap.get k (_cacheStore m) = Some c
       ∧ ∃ cache, heap m !! c = Some cache ∧ key cache = k)
  ∧ (∀ k k' c, (k, c) ∈ _cacheStore m → (k', c) ∈ _cacheStore m → k = k').
Proof.
  intros Hx. destruct (inv_reachable _ _ _ Hx) as ([Hwf Hst] & _).
  assert (∀ k c, (k, c) ∈ _cacheStore m →
            ∃ cache, heap m !! c = Some cache ∧ key cache = k) as Hkey.
  { intros k c Hin. exact (proj1 (Forall_forall _ _) Hst (k, c) Hin). }
  split; [exact Hwf|]. split.
  - intros k c Hin. split; [by apply jsmap_elem_get|by apply Hkey].
  - intros k k' c Hin Hin'.
    destruct (Hkey k c Hin) as (cache & Hl & <-).
    destruct (Hkey k' c Hin') as (cache' & Hl' & <-). congruence.
Qed.

(** X2: a read leaves the entry it returns in the store under the key read,
    whether or not anybody observes it, and a second read of the key returns
    the same entry, allocates nothing and leaves the store as the first
    left it. *)
Theorem reads_share_the_entry m k (args args' : CallArgs) (ctx ctx' : CallContext) :
  JsMap.wf (_cacheStore m) →
  let m1 := (getCache k args ctx m).1 in
  let c := (getCache k args ctx m).2 in
  JsMap.get k (_cacheStore m1) = Some c
  ∧ (getCache k args' ctx' m1).2 = c
  ∧ heap (getCache k args' ctx' m1).1 = heap m1
  ∧ _cacheStore (getCache k args' ctx' m1).1 = _cacheStore m1.
Proof.
  intros Hwf m1 c.
  pose proof (getAndEnsureCache_get k args ctx m) as Hg.
  pose proof (getAndEnsureCache_wf k args ctx m Hwf) as Hwf0.
  assert (JsMap.get k (_cacheStore m1) = Some c) as Hg1.
  { subst m1 c. rewrite getCache_unfold. simpl.
    rewrite sweep_get, Hg by done. by rewrite unused_excepted. }
  assert (JsMap.wf (_cacheStore m1)) as Hwf1.
  { subst m1. rewrite getCache_unfold. simpl. by apply sweep_wf. }
  assert (_getAndEnsureCache k args' ctx' m1 = (m1, c)) as He
    by (unfold _getAndEnsureCache; by rewrite Hg1).
  assert (_removeUnobservedCachesAsync (Some k) m1 = m1) as Hsw.
  { apply sweep_nothing. subst m1. rewrite getCache_unfold. cbn [fst].
    change (_cacheStore (emit ?ev (spawn ?task ?x).1)) with (_cacheStore x).
    rewrite sweep_store by done. apply filter_filter_nil.
    intros entry _ <-. apply unused_heap. simpl.
    by destruct (sweep_fields (Some k)
                   (_getAndEnsureCache k args ctx m).1) as (-> & _). }
  split; [done|]. rewrite (getCache_unfold k args' ctx' m1), He. cbn [fst snd].
  by rewrite Hsw.
Qed.

(** X3: a read does not wait: it asks the durable store for the record of
    the key, once, and leaves the answer to a new task; it invokes no
    producer, writes nothing, and publishes on no entry: the entries the
    manager had are as they were. *)
Theorem read_is_fire_and_forget m k (args : CallArgs) (ctx : CallContext) :
  let m' := (getCache k args ctx m).1 in
  let c := (getCache k args ctx m).2 in
  trace m' = trace m ++ [EvGetAsync (length (tasks m)) k]
  ∧ tasks m' = tasks m ++ [RefreshIfOut_getAsync k c]
  ∧ (∀ c' cache, heap m !! c' = Some cache → heap m' !! c' = Some cache)
  ∧ length (heap m') ≤ S (length (heap m)).
Proof.
  intros m' c. subst m' c. rewrite getCache_unfold. cbn [fst snd].
  pose proof (getAndEnsureCache_fields k args ctx m) as (Ht & Htr & _).
  destruct (sweep_fields (Some k) (_getAndEnsureCache k args ctx m).1)
    as (Hh & Ht' & Htr' & _).
  simpl. rewrite Hh, Ht', Htr', Ht, Htr. split; [done|]. split; [done|].
  unfold _getAndEnsureCache. destruct (JsMap.get k (_cacheStore m)); simpl.
  - split; [done|lia].
  - split; [intros c' cache Hl; by apply lookup_app_l_Some|].
    rewrite length_app. simpl. lia.
Qed.

(** *** What a task has done *)

Lemma getCache_fields k (args : CallArgs) (ctx : CallContext) m :
  let m' := (getCache k args ctx m).1 in
  tasks m' = tasks m ++ [RefreshIfOut_getAsync k (getCache k args ctx m).2]
  ∧ trace m' = trace m ++ [EvGetAsync (length (tasks m)) k].
Proof.
  simpl. rewrite getCache_unfold. cbn [fst snd].
  pose proof (getAndEnsureCache_fields k args ctx m) as (Ht & Htr & _).
  destruct (sweep_fields (Some k) (_getAndEnsureCache k args ctx m).1)
    as (_ & Ht' & Htr' & _).
  simpl. by rewrite Ht', Htr', Ht, Htr.
Qed.

Lemma history_new_manager maxAge : history_ok (new_manager maxAge : manager).
Proof. split; [intros t task Hl; simpl in Hl; by rewrite lookup_nil in Hl|done]. Qed.

(** Task [t] goes on, from [task] to [task'], doing [evs]. *)
Lemma history_resume m m' t task task' (evs : list event_t) :
  history_ok m → tasks m !! t = Some task →
  tasks m' = <[t := task']> (tasks m) → trace m' = trace m ++ evs →
  Forall (λ ev, event_task ev = Some t) evs →
  (∀ h, h ∈ histories task → h ++ List.map event_kind evs ∈ histories task') →
  history_ok m'.
Proof.
  intros [Hh Hnone] Ht Hts Htr Hevs Hnext.
  pose proof (lookup_lt_Some _ _ _ Ht) as Hlt.
  assert (∀ t0, t0 ≠ t → task_events t0 (trace m') = task_events t0 (trace m))
    as Hother.
  { intros t0 Hne. rewrite Htr, task_events_app.
    rewrite (task_events_others t0 evs), app_nil_r; [done|].
    eapply Forall_impl; [exact Hevs|]. simpl. intros ev Hev. congruence. }
  split.
  - intros t0 task0 Hl. rewrite Hts in Hl. destruct (decide (t0 = t)) as [->|Hne].
    + rewrite list_lookup_insert_eq in Hl by done. injection Hl as <-.
      rewrite Htr, task_events_app, (task_events_own t evs), List.map_app by done.
      by apply Hnext, Hh.
    + rewrite list_lookup_insert_ne in Hl by done. rewrite Hother by done.
      by apply Hh.
  - intros t0 Hge. rewrite Hts, length_insert in Hge.
    rewrite Hother by lia. apply Hnone. lia.
Qed.

(** A new task, having done [evs]. *)
Lemma history_spawn m m' task' (evs : list event_t) :
  history_ok m → tasks m' = tasks m ++ [task'] → trace m' = trace m ++ evs →
  Forall (λ ev, event_task ev = Some (length (tasks m))) evs →
  List.map event_kind evs ∈ histories task' →
  history_ok m'.
Proof.
  intros [Hh Hnone] Hts Htr Hevs Hnew.
  assert (∀ t0, t0 ≠ length (tasks m) →
            task_events t0 (trace m') = task_events t0 (trace m)) as Hother.
  { intros t0 Hne. rewrite Htr, task_events_app.
    rewrite (task_events_others t0 evs), app_nil_r; [done|].
    eapply Forall_impl; [exact Hevs|]. simpl. intros ev Hev. congruence. }
  split.
  - intros t0 task0 Hl. rewrite Hts in Hl.
    destruct (decide (t0 = length (tasks m))) as [->|Hne].
    + rewrite list_lookup_middle in Hl by done. injection Hl as <-.
      rewrite Htr, task_events_app, Hnone, (task_events_own _ evs) by done. done.
    + pose proof (lookup_lt_Some _ _ _ Hl) as Hlt.
      rewrite length_app in Hlt. simpl in Hlt.
      rewrite lookup_app_l in Hl by lia. rewrite Hother by done. by apply Hh.
  - intros t0 Hge. rewrite Hts, length_app in Hge. simpl in Hge.
    rewrite Hother by lia. apply Hnone. lia.
Qed.

(** No task goes on. *)
Lemma history_same m m' (evs : list event_t) :
  history_ok m → tasks m' = tasks m → trace m' = trace m ++ evs →
  Forall (λ ev, event_task ev = None) evs → history_ok m'.
Proof.
  intros [Hh Hnone] Hts Htr Hevs.
  assert (∀ t0, task_events t0 (trace m') = task_events t0 (trace m)) as Hother.
  { intros t0. rewrite Htr, task_events_app.
    rewrite (task_events_others t0 evs), app_nil_r; [done|].
    eapply Forall_impl; [exact Hevs|]. simpl. by intros ev ->. }
  split.
  - intros t0 task0 Hl. rewrite Hts in Hl. rewrite Hother. by apply Hh.
  - intros t0 Hge. rewrite Hts in Hge. rewrite Hother. by apply Hnone.
Qed.

Lemma history_refreshCacheData m m' t c task :
  history_ok m → tasks m !! t = Some task →
  (∀ h, h ∈ histories task →
        h ++ [KDataProvider] ∈ histories (Refresh_dataProvider c : task_t)) →
  (∀ h, h ∈ histories task →
        h ++ [KDataProvider; KError] ∈ histories (Settled None : task_t)) →
  _refreshCacheData throws t c m = Some m' → history_ok m'.
Proof.
  intros Hh Ht Hnext Hthrown Hr. unfold _refreshCacheData in Hr.
  destruct (heap m !! c) as [cache|]; simpl in Hr; [|done].
  destruct (throws (trace m) (context cache) (lastArgs cache)) as [e|];
    simplify_eq/=.
  - eapply (history_resume m _ t task (Settled None)
              [EvDataProvider t (context cache) (lastArgs cache); EvError t c e]);
      try done.
    + simpl. by rewrite <- (assoc_L (++)).
    + by repeat constructor.
  - eapply (history_resume m _ t task (Refresh_dataProvider c)
              [EvDataProvider t (context cache) (lastArgs cache)]); try done.
    by apply Forall_singleton.
Qed.

Lemma history_refresh_each all m m' children :
  refresh_each throws all m = Some (m', children) → history_ok m → history_ok m'.
Proof.
  revert m m' children. induction all as [|k all IH]; intros m m' children Hr Hh.
  - simpl in Hr. by simplify_eq.
  - simpl in Hr. destruct (JsMap.get k (_cacheStore m)) as [c|]; [|by eapply IH].
    destruct (_refreshCacheData throws _ c _) as [m2|] eqn:Hm2; simpl in Hr; [|done].
    destruct (refresh_each throws all m2) as [[m3 ch]|] eqn:Hm3; simpl in Hr; [|done].
    simplify_eq. eapply IH; [exact Hm3|].
    unfold _refreshCacheData in Hm2. simpl in Hm2.
    destruct (heap m !! c) as [cache|]; simpl in Hm2; [|done].
    destruct (throws (trace m) (context cache) (lastArgs cache)) as [e|];
      simplify_eq/=.
    + eapply (history_spawn m _ (Settled None)
                [EvDataProvider (length (tasks m)) (context cache) (lastArgs cache);
                 EvError (length (tasks m)) c e]);
        [done| | |by repeat constructor|].
      * simpl. by rewrite insert_app_r_alt, Nat.sub_diag by done.
      * simpl. by rewrite <- (assoc_L (++)).
      * simpl. set_solver.
    + eapply (history_spawn m _ (Refresh_dataProvider c)
                [EvDataProvider (length (tasks m)) (context cache) (lastArgs cache)]);
        [done| |done|by apply Forall_singleton|].
      * simpl. by rewrite insert_app_r_alt, Nat.sub_diag by done.
      * simpl. set_solver.
Qed.

Ltac solve_histories :=
  let h := fresh "h" in
  let Hh := fresh "Hh" in
  intros h Hh; simpl in Hh;
  repeat (apply elem_of_cons in Hh as [->|Hh]);
  try (by apply elem_of_nil in Hh);
  simpl; set_solver.

Ltac solve_history_resume :=
  eapply history_resume;
  [eassumption|eassumption|reflexivity
  |simpl; first [reflexivity|symmetry; apply app_nil_r]
  |repeat constructor|solve_histories].

Lemma history_step call m m' :
  step truthy throws call m = Some m' → history_ok m → history_ok m'.
Proof.
  destruct call as [k args ctx|ck|c|c sid|t r now]; simpl; intros Hs Hh.
  - simplify_eq. destruct (getCache_fields k args ctx m) as [Ht Htr].
    eapply history_spawn; [done|exact Ht|exact Htr|by apply Forall_singleton|].
    simpl. set_solver.
  - simplify_eq. unfold invalidateAndUpdateAsync.
    destruct (sweep_fields None m) as (_ & Ht & Htr & _).
    eapply (history_spawn m _ (Invalidate_sweep ck) []); [done|..].
    + simpl. by rewrite Ht.
    + simpl. by rewrite Htr, app_nil_r.
    + done.
    + simpl. set_solver.
  - unfold subscribe_to in Hs. destruct (heap m !! c); simplify_eq/=.
    eapply history_same; [done|done|done|by apply Forall_singleton].
  - unfold unsubscribe_from in Hs. destruct (heap m !! c); simplify_eq/=.
    eapply history_same; [done|done|done|by apply Forall_singleton].
  - unfold resume in Hs.
    destruct (tasks m !! t) as [task|] eqn:Ht; simpl in Hs; [|done].
    destruct task as [k c|c|c v|ck|all|children|rej]; simpl in Hs.
    + unfold resume_RefreshIfOut_getAsync in Hs.
      destruct r as [ccd|v|  |e]; try done.
      * destruct (cacheDataNeedsRefresh ccd now).
        { eapply history_refreshCacheData; [done|done| | |done]; solve_histories. }
        destruct (heap m !! c) as [cache|]; simpl in Hs; [|done].
        destruct ccd as [d|]; [destruct (negb (initialized cache))|];
          simplify_eq; solve_history_resume.
      * simplify_eq. solve_history_resume.
    + unfold resume_Refresh_dataProvider in Hs.
      destruct r as [ccd|v|  |e]; try done.
      * destruct (heap m !! c) as [cache|]; simplify_eq/=. solve_history_resume.
      * simplify_eq. solve_history_resume.
    + unfold resume_Refresh_storeAsync in Hs.
      destruct r as [ccd|v'|  |e]; simplify_eq; solve_history_resume.
    + unfold resume_Invalidate_sweep in Hs.
      destruct r as [ccd|v'|  |e]; simplify_eq; solve_history_resume.
    + unfold resume_Invalidate_removeAsync in Hs.
      destruct r as [ccd|v'|  |e]; simplify_eq; [|solve_history_resume].
      destruct (refresh_each throws all m) as [[m1 ch]|] eqn:Hre; simplify_eq/=.
      pose proof (history_refresh_each _ _ _ _ Hre Hh) as Hh1.
      destruct (frame_refresh_each t _ _ _ _ Hre (lookup_lt_Some _ _ _ Ht))
        as (_ & Ht1 & _).
      rewrite Ht in Ht1.
      eapply (history_resume m1 _ t _ (Invalidate_all ch) []);
        [done|done|done|simpl; by rewrite app_nil_r|done|solve_histories].
    + unfold resume_Invalidate_all in Hs.
      destruct r as [ccd|v'|  |e]; try done.
      destruct (forallb _ _); simplify_eq. solve_history_resume.
    + done.
Qed.

Lemma history_reachable calls maxAge m :
  exec truthy throws calls (new_manager maxAge) = Some m → history_ok m.
Proof.
  assert (∀ m0, exec truthy throws calls m0 = Some m → history_ok m0 → history_ok m)
    as Hgen.
  { induction calls as [|call calls IH]; intros m0 Hx Hh; simpl in Hx.
    - by simplify_eq.
    - destruct (step truthy throws call m0) as [m1|] eqn:Hs; simpl in Hx; [|done].
      eapply IH; [done|]. by eapply history_step. }
  intros Hx. eapply Hgen; [done|apply history_new_manager].
Qed.

(** X4: what a task has done, by kind and in order, is one of the histories
    of the point it is at.  So a task invokes the producer at most once, and
    writes to the durable store only after the producer answered, once; it
    calls [next] or [error] on its entry at most once, as the last thing it
    does; a read answered by the store's record ends without invoking the
    producer; an invalidation calls [removeAsync] once and nothing else but
    its return; a rejected task has done nothing but the call that rejected
    it; and no event bears the name of a task not yet started. *)
Theorem task_histories maxAgeInMS calls m :
  exec truthy throws calls (new_manager maxAgeInMS) = Some m →
  (∀ t task, tasks m !! t = Some task →
     List.map event_kind (task_events t (trace m)) ∈ histories task)
  ∧ (∀ ev t, ev ∈ trace m → event_task ev = Some t → t < length (tasks m)).
Proof.
  intros Hx. destruct (history_reachable _ _ _ Hx) as [Hh Hnone].
  split; [exact Hh|]. intros ev t Hin Het.
  destruct (decide (t < length (tasks m))) as [|Hge]; [done|].
  assert (ev ∈ task_events t (trace m)) as Hev.
  { unfold task_events. apply list_elem_of_In, filter_In.
    split; [by apply list_elem_of_In|by apply bool_decide_eq_true_2]. }
  rewrite Hnone in Hev by lia. by apply elem_of_nil in Hev.
Qed.

(** *** Rejections that are not caught *)

Lemma rejected_is_done m t (e : E) calls m' (h : list Kind) :
  tasks m !! t = Some (Settled (Some e)) →
  List.map event_kind (task_events t (trace m)) = h →
  exec truthy throws calls m = Some m' →
  tasks m' !! t = Some (Settled (Some e))
  ∧ List.map event_kind (task_events t (trace m')) = h.
Proof.
  intros Ht Hh Hx. destruct (settled_exec t _ calls m m' Ht Hx) as [Ht' He'].
  split; [done|]. by rewrite He'.
Qed.

(** X5: a rejection of [getAsync] is not caught: the read's task is rejected
    with that error and nothing else changes; the getAsync call is all the
    task has done and will ever have done: no producer is invoked for the
    read, and nothing is published or failed on its entry. *)
Theorem getAsync_rejection_is_silent maxAgeInMS calls m t k c (e : E) now :
  exec truthy throws calls (new_manager maxAgeInMS) = Some m →
  tasks m !! t = Some (RefreshIfOut_getAsync k c) →
  step truthy throws (Resume t (Rejected e) now) m
  = Some (set_task t (Settled (Some e)) m)
  ∧ ∀ calls' m',
      exec truthy throws (Resume t (Rejected e) now :: calls') m = Some m' →
      tasks m' !! t = Some (Settled (Some e))
      ∧ List.map event_kind (task_events t (trace m')) = [KGetAsync].
Proof.
  intros Hx Ht.
  assert (step truthy throws (Resume t (Rejected e) now) m
          = Some (set_task t (Settled (Some e)) m)) as Hs
    by (simpl; unfold resume; by rewrite Ht).
  split; [done|]. intros calls' m' Hx'. cbn [exec] in Hx'. rewrite Hs in Hx'.
  cbn [mbind option_bind] in Hx'.
  eapply rejected_is_done; [|
    |exact Hx'].
  - simpl. apply list_lookup_insert_eq. by eapply lookup_lt_Some.
  - destruct (history_reachable _ _ _ Hx) as [Hh _]. specialize (Hh t _ Ht).
    simpl in Hh. by apply list_elem_of_singleton in Hh.
Qed.

(** X6: a rejection of [removeAsync] is not caught either: the invalidation
    is rejected with that error and nothing else changes: no refresh is
    started and no producer invoked, while the entries the sweep at the call
    dropped stay dropped; the removeAsync call is all the task has done and
    will ever have done. *)
Theorem removeAsync_rejection_stops_invalidation maxAgeInMS calls m t all (e : E) now :
  exec truthy throws calls (new_manager maxAgeInMS) = Some m →
  tasks m !! t = Some (Invalidate_removeAsync all) →
  step truthy throws (Resume t (Rejected e) now) m
  = Some (set_task t (Settled (Some e)) m)
  ∧ ∀ calls' m',
      exec truthy throws (Resume t (Rejected e) now :: calls') m = Some m' →
      tasks m' !! t = Some (Settled (Some e))
      ∧ List.map event_kind (task_events t (trace m')) = [KRemoveAsync].
Proof.
  intros Hx Ht.
  assert (step truthy throws (Resume t (Rejected e) now) m
          = Some (set_task t (Settled (Some e)) m)) as Hs
    by (simpl; unfold resume; by rewrite Ht).
  split; [done|]. intros calls' m' Hx'. cbn [exec] in Hx'. rewrite Hs in Hx'.
  cbn [mbind option_bind] in Hx'.
  eapply rejected_is_done; [|
    |exact Hx'].
  - simpl. apply list_lookup_insert_eq. by eapply lookup_lt_Some.
  - destruct (history_reachable _ _ _ Hx) as [Hh _]. specialize (Hh t _ Ht).
    simpl in Hh. by apply list_elem_of_singleton in Hh.
Qed.

(** *** Refreshes are never rejected *)

Lemma refresh_each_heap all m m' children :
  refresh_each throws all m = Some (m', children) →
  _cacheStore m' = _cacheStore m
  ∧ ∀ c, c ∉ targets_present all m → heap m' !! c = heap m !! c.
Proof.
  revert m m' children. induction all as [|k all IH]; intros m m' children Hr.
  - simpl in Hr. by simplify_eq.
  - unfold targets_present. simpl in *.
    destruct (JsMap.get k (_cacheStore m)) as [c|]; [|by eapply IH].
    destruct (_refreshCacheData throws _ c _) as [m2|] eqn:Hm2; simpl in Hr; [|done].
    destruct (refresh_each throws all m2) as [[m3 ch]|] eqn:Hm3; simpl in Hr; [|done].
    simplify_eq. destruct (IH _ _ _ Hm3) as [Hs3 Hh3].
    assert (_cacheStore m2 = _cacheStore m
            ∧ ∀ c', c' ≠ c → heap m2 !! c' = heap m !! c') as [Hs2 Hh2].
    { unfold _refreshCacheData in Hm2. simpl in Hm2.
      destruct (heap m !! c) as [cache|]; simpl in Hm2; [|done].
      destruct (throws _ _ _); simplify_eq/=; [|done].
      split; [done|]. intros c' Hne. by rewrite list_lookup_alter_ne. }
    unfold targets_present in Hh3. rewrite Hs2 in Hh3.
    split; [by rewrite Hs3|]. intros c' Hnin.
    apply not_elem_of_cons in Hnin as [Hne Hnin].
    rewrite Hh3 by done. by apply Hh2.
Qed.

(** The refreshes an invalidation starts are new tasks, each suspended at
    its producer or, where that threw, done. *)
Lemma refresh_each_children all m m' children :
  refresh_each throws all m = Some (m', children) →
  length (tasks m) ≤ length (tasks m')
  ∧ Forall (λ t', length (tasks m) ≤ t'
                  ∧ ∃ task, tasks m' !! t' = Some task ∧ refresh_call task = true)
           children.
Proof.
  revert m m' children. induction all as [|k all IH]; intros m m' children Hr.
  - simpl in Hr. simplify_eq. split; [done|apply Forall_nil_2].
  - simpl in Hr. destruct (JsMap.get k (_cacheStore m)) as [c|]; [|by eapply IH].
    destruct (_refreshCacheData throws _ c _) as [m2|] eqn:Hm2; simpl in Hr; [|done].
    destruct (refresh_each throws all m2) as [[m3 ch]|] eqn:Hm3; simpl in Hr; [|done].
    simplify_eq. destruct (IH _ _ _ Hm3) as [Hle Hch].
    assert (∃ task, tasks m2 = tasks m ++ [task] ∧ refresh_call task = true)
      as (task & Ht2 & Htask).
    { unfold _refreshCacheData in Hm2. simpl in Hm2.
      destruct (heap m !! c) as [cache|]; simpl in Hm2; [|done].
      destruct (throws _ _ _); simplify_eq/=; eexists;
        by rewrite insert_app_r_alt, Nat.sub_diag by done. }
    rewrite Ht2, length_app in Hle, Hch. simpl in Hle, Hch.
    split; [lia|]. apply Forall_cons. split.
    + split; [done|]. exists task. split; [|done].
      destruct (frame_refresh_each (length (tasks m)) _ _ _ _ Hm3) as (_ & -> & _).
      * rewrite Ht2, length_app. simpl. lia.
      * rewrite Ht2. by apply list_lookup_middle.
    + eapply Forall_impl; [exact Hch|]. simpl. intros t' [Hge Hl]. split; [lia|done].
Qed.

Lemma children_new_manager maxAge : children_ok (new_manager maxAge : manager).
Proof. intros t children Hl. simpl in Hl. by rewrite lookup_nil in Hl. Qed.

(** Task [t] goes on, from [task] to [task']. *)
Lemma children_resume m m' t task task' :
  children_ok m → tasks m !! t = Some task →
  tasks m' = <[t := task']> (tasks m) →
  (refresh_call task = true → refresh_call task' = true) →
  (∀ children, task' = Invalidate_all children →
     Forall (λ t', t' ≠ t ∧ ∃ task0, tasks m !! t' = Some task0
                                     ∧ refresh_call task0 = true) children) →
  children_ok m'.
Proof.
  intros Hok Ht Hts Hkeep Hnew t0 children Hl.
  pose proof (lookup_lt_Some _ _ _ Ht) as Hlt. rewrite Hts in Hl |- *.
  assert (∀ t', (∃ task0, tasks m !! t' = Some task0 ∧ refresh_call task0 = true) →
            ∃ task0, <[t := task']> (tasks m) !! t' = Some task0
                     ∧ refresh_call task0 = true) as Hchild.
  { intros t' (task0 & Hl0 & Hr0). destruct (decide (t' = t)) as [->|Hne].
    - exists task'. rewrite list_lookup_insert_eq by done. split; [done|].
      apply Hkeep. congruence.
    - exists task0. by rewrite list_lookup_insert_ne. }
  destruct (decide (t0 = t)) as [->|Hne].
  - rewrite list_lookup_insert_eq in Hl by done. injection Hl as ->.
    eapply Forall_impl; [exact (Hnew children eq_refl)|].
    simpl. intros t' [_ Hc]. by apply Hchild.
  - rewrite list_lookup_insert_ne in Hl by done.
    eapply Forall_impl; [exact (Hok t0 children Hl)|]. exact Hchild.
Qed.

Lemma children_spawn m m' task' :
  children_ok m → tasks m' = tasks m ++ [task'] →
  (∀ children, task' ≠ Invalidate_all children) → children_ok m'.
Proof.
  intros Hok Hts Hnew t0 children Hl. rewrite Hts in Hl |- *.
  destruct (decide (t0 < length (tasks m))) as [Hlt|Hge].
  - rewrite lookup_app_l in Hl by done.
    eapply Forall_impl; [exact (Hok t0 children Hl)|].
    simpl. intros t' (task0 & Hl0 & Hr0). exists task0. split; [|done].
    by apply lookup_app_l_Some.
  - pose proof (lookup_lt_Some _ _ _ Hl) as Hlt. rewrite length_app in Hlt.
    simpl in Hlt. assert (t0 = length (tasks m)) as -> by lia.
    rewrite list_lookup_middle in Hl by done. injection Hl as ->.
    by destruct (Hnew children).
Qed.

Lemma children_same m m' : children_ok m → tasks m' = tasks m → children_ok m'.
Proof. unfold children_ok. by intros Hok ->. Qed.

Lemma children_refresh_each all m m' children :
  refresh_each throws all m = Some (m', children) → children_ok m → children_ok m'.
Proof.
  revert m m' children. induction all as [|k all IH]; intros m m' children Hr Hok.
  - simpl in Hr. by simplify_eq.
  - simpl in Hr. destruct (JsMap.get k (_cacheStore m)) as [c|]; [|by eapply IH].
    destruct (_refreshCacheData throws _ c _) as [m2|] eqn:Hm2; simpl in Hr; [|done].
    destruct (refresh_each throws all m2) as [[m3 ch]|] eqn:Hm3; simpl in Hr; [|done].
    simplify_eq. eapply IH; [exact Hm3|].
    unfold _refreshCacheData in Hm2. simpl in Hm2.
    destruct (heap m !! c) as [cache|]; simpl in Hm2; [|done].
    destruct (throws _ _ _); simplify_eq/=.
    + eapply (children_spawn m _ (Settled None)); [done| |done].
      simpl. by rewrite insert_app_r_alt, Nat.sub_diag by done.
    + eapply (children_spawn m _ (Refresh_dataProvider c)); [done| |done].
      simpl. by rewrite insert_app_r_alt, Nat.sub_diag by done.
Qed.

Ltac solve_children_resume :=
  eapply children_resume; [eassumption|eassumption|reflexivity|done|done].

Lemma children_step call m m' :
  step truthy throws call m = Some m' → children_ok m → children_ok m'.
Proof.
  destruct call as [k args ctx|ck|c|c sid|t r now]; simpl; intros Hs Hok.
  - simplify_eq. destruct (getCache_fields k args ctx m) as [Ht _].
    eapply children_spawn; [done|exact Ht|done].
  - simplify_eq. unfold invalidateAndUpdateAsync.
    destruct (sweep_fields None m) as (_ & Ht & _).
    eapply (children_spawn m _ (Invalidate_sweep ck)); [done| |done].
    simpl. by rewrite Ht.
  - unfold subscribe_to in Hs. destruct (heap m !! c); simplify_eq/=.
    by eapply children_same.
  - unfold unsubscribe_from in Hs. destruct (heap m !! c); simplify_eq/=.
    by eapply children_same.
  - unfold resume in Hs.
    destruct (tasks m !! t) as [task|] eqn:Ht; simpl in Hs; [|done].
    destruct task as [k c|c|c v|ck|all|children|rej]; simpl in Hs.
    + unfold resume_RefreshIfOut_getAsync in Hs.
      destruct r as [ccd|v|  |e]; try done.
      * destruct (cacheDataNeedsRefresh ccd now).
        { unfold _refreshCacheData in Hs.
          destruct (heap m !! c) as [cache|]; simpl in Hs; [|done].
          destruct (throws _ _ _); simplify_eq/=; solve_children_resume. }
        destruct (heap m !! c) as [cache|]; simpl in Hs; [|done].
        destruct ccd as [d|]; [destruct (negb (initialized cache))|];
          simplify_eq; solve_children_resume.
      * simplify_eq. solve_children_resume.
    + unfold resume_Refresh_dataProvider in Hs.
      destruct r as [ccd|v|  |e]; try done.
      * destruct (heap m !! c) as [cache|]; simplify_eq/=. solve_children_resume.
      * simplify_eq. solve_children_resume.
    + unfold resume_Refresh_storeAsync in Hs.
      destruct r as [ccd|v'|  |e]; simplify_eq; solve_children_resume.
    + unfold resume_Invalidate_sweep in Hs.
      destruct r as [ccd|v'|  |e]; simplify_eq; solve_children_resume.
    + unfold resume_Invalidate_removeAsync in Hs.
      destruct r as [ccd|v'|  |e]; simplify_eq; [|solve_children_resume].
      destruct (refresh_each throws all m) as [[m1 ch]|] eqn:Hre; simplify_eq/=.
      pose proof (children_refresh_each _ _ _ _ Hre Hok) as Hok1.
      pose proof (lookup_lt_Some _ _ _ Ht) as Hlt.
      destruct (frame_refresh_each t _ _ _ _ Hre Hlt) as (_ & Ht1 & _).
      rewrite Ht in Ht1. destruct (refresh_each_children _ _ _ _ Hre) as [_ Hch].
      eapply (children_resume m1 _ t _ (Invalidate_all ch)); [done|done|done|done|].
      intros ? [= <-]. eapply Forall_impl; [exact Hch|].
      simpl. intros t' (Hge & Hl). split; [lia|done].
    + unfold resume_Invalidate_all in Hs.
      destruct r as [ccd|v'|  |e]; try done.
      destruct (forallb _ _); simplify_eq. solve_children_resume.
    + done.
Qed.

Lemma children_reachable calls maxAge m :
  exec truthy throws calls (new_manager maxAge) = Some m → children_ok m.
Proof.
  assert (∀ m0, exec truthy throws calls m0 = Some m → children_ok m0 → children_ok m)
    as Hgen.
  { induction calls as [|call calls IH]; intros m0 Hx Hh; simpl in Hx.
    - by simplify_eq.
    - destruct (step truthy throws call m0) as [m1|] eqn:Hs; simpl in Hx; [|done].
      eapply IH; [done|]. by eapply children_step. }
  intros Hx. eapply Hgen; [done|apply children_new_manager].
Qed.

(** A call of [_refreshCacheData] stays one, whatever is called. *)
Lemma refresh_call_step call m m' t task :
  step truthy throws call m = Some m' → tasks m !! t = Some task →
  refresh_call task = true →
  ∃ task', tasks m' !! t = Some task' ∧ refresh_call task' = true.
Proof.
  intros Hs Ht Hr. pose proof (lookup_lt_Some _ _ _ Ht) as Hlt.
  destruct (resumes t call) eqn:Hres.
  - destruct call as [| | | |t' r now]; try done. simpl in Hres.
    apply bool_decide_eq_true in Hres as ->. simpl in Hs. unfold resume in Hs.
    rewrite Ht in Hs. simpl in Hs.
    destruct task as [k c|c|c v|ck|all|children|[e|]]; try done; simpl in Hs.
    + unfold resume_Refresh_dataProvider in Hs.
      destruct r as [ccd|v|  |e]; try done.
      * destruct (heap m !! c) as [cache|]; simplify_eq/=.
        eexists. by rewrite list_lookup_insert_eq.
      * simplify_eq. simpl. eexists. by rewrite list_lookup_insert_eq.
    + unfold resume_Refresh_storeAsync in Hs.
      destruct r as [ccd|v'|  |e]; simplify_eq; simpl; eexists;
        by rewrite list_lookup_insert_eq.
  - destruct (frame_step t call m m' Hs Hres Hlt) as (_ & Ht' & _).
    exists task. by rewrite Ht'.
Qed.

Lemma refresh_call_exec calls m m' t task :
  exec truthy throws calls m = Some m' → tasks m !! t = Some task →
  refresh_call task = true →
  ∃ task', tasks m' !! t = Some task' ∧ refresh_call task' = true.
Proof.
  revert m task. induction calls as [|call calls IH]; intros m task Hx Ht Hr;
    simpl in Hx.
  - simplify_eq. by exists task.
  - destruct (step truthy throws call m) as [m1|] eqn:Hs; simpl in Hx; [|done].
    destruct (refresh_call_step _ _ _ _ _ Hs Ht Hr) as (task1 & Ht1 & Hr1).
    by eapply IH.
Qed.

(** X7: [_refreshCacheData] catches what it awaits, so its promise is never
    rejected; the tasks an invalidation waits for at [Promise.all] are such
    calls, and so the invalidation, once [removeAsync] has resolved, is never
    rejected either: it is pending until it returns. *)
Theorem invalidation_awaits_refreshes maxAgeInMS calls m t children :
  exec truthy throws calls (new_manager maxAgeInMS) = Some m →
  tasks m !! t = Some (Invalidate_all children) →
  ∀ calls' m', exec truthy throws calls' m = Some m' →
    Forall (λ t', ∃ task, tasks m' !! t' = Some task ∧ refresh_call task = true)
           children
    ∧ (tasks m' !! t = Some (Invalidate_all children)
       ∨ tasks m' !! t = Some (Settled None)).
Proof.
  intros Hx Ht calls' m' Hx'. split.
  - pose proof (children_reachable _ _ _ Hx t children Ht) as Hch.
    eapply Forall_impl; [exact Hch|]. simpl. intros t' (task & Hl & Hr).
    by eapply refresh_call_exec.
  - clear Hx. revert m Ht Hx'.
    induction calls' as [|call calls' IH]; intros m Ht Hx'; simpl in Hx'.
    + simplify_eq. by left.
    + destruct (step truthy throws call m) as [m1|] eqn:Hs; simpl in Hx'; [|done].
      pose proof (lookup_lt_Some _ _ _ Ht) as Hlt.
      destruct (resumes t call) eqn:Hres.
      * destruct call as [| | | |t' r now]; try done. simpl in Hres.
        apply bool_decide_eq_true in Hres as ->. simpl in Hs. unfold resume in Hs.
        rewrite Ht in Hs. simpl in Hs. unfold resume_Invalidate_all in Hs.
        destruct r as [ccd|v'|  |e]; try done.
        destruct (forallb _ _); simplify_eq. right.
        refine (proj1 (settled_exec t None calls' _ m' _ Hx')).
        simpl. by rewrite list_lookup_insert_eq.
      * destruct (frame_step t call m m1 Hs Hres Hlt) as (_ & Ht1 & _).
        rewrite Ht in Ht1. by eapply IH.
Qed.

(** *** Entries apart *)

Lemma getCache_heap k (args : CallArgs) (ctx : CallContext) m c cache :
  heap m !! c = Some cache → heap (getCache k args ctx m).1 !! c = Some cache.
Proof.
  intros Hl. rewrite getCache_unfold. cbn [fst].
  destruct (sweep_fields (Some k) (_getAndEnsureCache k args ctx m).1) as (Hh & _).
  simpl. rewrite Hh. unfold _getAndEnsureCache.
  destruct (JsMap.get k (_cacheStore m)); simpl; [done|].
  by apply lookup_app_l_Some.
Qed.

(** When no producer throws, the refreshes an invalidation starts leave
    every entry as it is. *)
Lemma refresh_each_return all m m' children :
  refresh_each throws all m = Some (m', children) →
  producers_return throws m (targets_present all m) → heap m' = heap m.
Proof.
  revert m m' children. induction all as [|k all IH]; intros m m' children Hr Hret.
  - simpl in Hr. by simplify_eq.
  - unfold targets_present in *. simpl in *.
    destruct (JsMap.get k (_cacheStore m)) as [c|]; [|by eapply IH].
    destruct (_refreshCacheData throws _ c _) as [m2|] eqn:Hm2; simpl in Hr; [|done].
    destruct (refresh_each throws all m2) as [[m3 ch]|] eqn:Hm3; simpl in Hr; [|done].
    simplify_eq.
    assert (_cacheStore m2 = _cacheStore m ∧ heap m2 = heap m) as [Hs2 Hh2].
    { unfold _refreshCacheData in Hm2. simpl in Hm2.
      destruct (heap m !! c) as [cache|] eqn:Hl; simpl in Hm2; [|done].
      rewrite (Hret (trace m) c cache) in Hm2 by (done || left).
      by simplify_eq. }
    rewrite <- Hh2. eapply IH; [exact Hm3|]. rewrite Hs2.
    intros tr c' cache' Hin Hl'. rewrite Hh2 in Hl'.
    apply (Hret tr c' cache'); [by right|done].
Qed.

(** X8: a call changes no entry but those it works on: the entry of the
    observable subscribed to, the entry of the read or refresh resumed and,
    when an invalidation is resumed after [removeAsync], the entries of its
    targets, on which a refresh whose producer throws when invoked calls
    [error] at once.  What a refresh publishes or fails reaches the subject
    of its own entry alone; a read or the call of an invalidation changes no
    entry at all, and neither does an invalidation resumed when no producer
    throws for its targets.  The store is changed by reads and by the call
    of an invalidation only: no task that is resumed adds or removes an
    entry. *)
Theorem calls_change_their_entry_only call m m' :
  step truthy throws call m = Some m' →
  (∀ c cache, heap m !! c = Some cache → c ∉ call_entries m call →
     heap m' !! c = Some cache)
  ∧ (∀ t all now,
       call = Resume t Resolved now →
       tasks m !! t = Some (Invalidate_removeAsync all) →
       producers_return throws m (targets_present all m) → heap m' = heap m)
  ∧ match call with
    | CallGetCache _ _ _ | CallInvalidate _ => True
    | _ => _cacheStore m' = _cacheStore m
    end.
Proof.
  assert (∀ (f : cache_entry → cache_entry) c0 c cache,
            heap m !! c = Some cache → c ∉ [c0] →
            alter f c0 (heap m) !! c = Some cache) as Hother.
  { intros f c0 c cache Hl Hne. rewrite list_lookup_alter_ne; [done|].
    intros ->. apply Hne. left. }
  intros Hs. split; [|split].
  - destruct call as [k args ctx|ck|c0|c0 sid|t r now]; simpl in Hs |- *.
    + simplify_eq. intros c cache Hl _. by apply getCache_heap.
    + simplify_eq. intros c cache Hl _.
      unfold invalidateAndUpdateAsync. simpl.
      by destruct (sweep_fields None m) as (-> & _).
    + unfold subscribe_to in Hs. destruct (heap m !! c0) as [cache0|]; simplify_eq/=.
      apply Hother.
    + unfold unsubscribe_from in Hs.
      destruct (heap m !! c0) as [cache0|]; simplify_eq/=. apply Hother.
    + unfold resume in Hs.
      destruct (tasks m !! t) as [task|] eqn:Ht; simpl in Hs; [|done].
      destruct task as [k c0|c0|c0 v|ck|all|children|rej]; simpl in Hs |- *.
      * unfold resume_RefreshIfOut_getAsync in Hs.
        destruct r as [ccd|v|  |e]; try done.
        -- destruct (cacheDataNeedsRefresh ccd now).
           { unfold _refreshCacheData in Hs.
             destruct (heap m !! c0) as [cache0|]; simpl in Hs; [|done].
             destruct (throws _ _ _); simplify_eq/=; [apply Hother|done]. }
           destruct (heap m !! c0) as [cache0|]; simpl in Hs; [|done].
           destruct ccd as [d|]; [destruct (negb (initialized cache0))|];
             simplify_eq; simpl; try done. apply Hother.
        -- by simplify_eq.
      * unfold resume_Refresh_dataProvider in Hs.
        destruct r as [ccd|v|  |e]; try done.
        -- destruct (heap m !! c0) as [cache0|]; simplify_eq/=. done.
        -- simplify_eq. simpl. apply Hother.
      * unfold resume_Refresh_storeAsync in Hs.
        destruct r as [ccd|v'|  |e]; simplify_eq; simpl; apply Hother.
      * unfold resume_Invalidate_sweep in Hs.
        destruct r as [ccd|v'|  |e]; by simplify_eq.
      * unfold resume_Invalidate_removeAsync in Hs.
        destruct r as [ccd|v'|  |e]; simplify_eq; [|done].
        destruct (refresh_each throws all m) as [[m1 ch]|] eqn:Hre; simplify_eq/=.
        destruct (refresh_each_heap _ _ _ _ Hre) as [_ Hh].
        intros c cache Hl Hnin. by rewrite Hh.
      * unfold resume_Invalidate_all in Hs.
        destruct r as [ccd|v'|  |e]; try done.
        by destruct (forallb _ _); simplify_eq.
      * done.
  - intros t all now -> Ht Hret. simpl in Hs. unfold resume in Hs.
    rewrite Ht in Hs. simpl in Hs.
    destruct (refresh_each throws all m) as [[m1 ch]|] eqn:Hre; simplify_eq/=.
    by eapply refresh_each_return.
  - destruct call as [k args ctx|ck|c0|c0 sid|t r now]; simpl in Hs |- *;
      [done|done|..].
    + unfold subscribe_to in Hs. by destruct (heap m !! c0); simplify_eq/=.
    + unfold unsubscribe_from in Hs. by destruct (heap m !! c0); simplify_eq/=.
    + unfold resume in Hs.
      destruct (tasks m !! t) as [task|] eqn:Ht; simpl in Hs; [|done].
      destruct task as [k c0|c0|c0 v|ck|all|children|rej]; simpl in Hs.
      * unfold resume_RefreshIfOut_getAsync in Hs.
        destruct r as [ccd|v|  |e]; try done.
        -- destruct (cacheDataNeedsRefresh ccd now).
           { unfold _refreshCacheData in Hs.
             destruct (heap m !! c0) as [cache0|]; simpl in Hs; [|done].
             by destruct (throws _ _ _); simplify_eq/=. }
           destruct (heap m !! c0) as [cache0|]; simpl in Hs; [|done].
           by destruct ccd as [d|]; [destruct (negb (initialized cache0))|];
             simplify_eq.
        -- by simplify_eq.
      * unfold resume_Refresh_dataProvider in Hs.
        destruct r as [ccd|v|  |e]; try done.
        -- by destruct (heap m !! c0) as [cache0|]; simplify_eq/=.
        -- by simplify_eq.
      * unfold resume_Refresh_storeAsync in Hs.
        by destruct r as [ccd|v'|  |e]; simplify_eq.
      * unfold resume_Invalidate_sweep in Hs.
        destruct r as [ccd|v'|  |e]; by simplify_eq.
      * unfold resume_Invalidate_removeAsync in Hs.
        destruct r as [ccd|v'|  |e]; simplify_eq; [|done].
        destruct (refresh_each throws all m) as [[m1 ch]|] eqn:Hre; simplify_eq/=.
        by destruct (refresh_each_heap _ _ _ _ Hre) as [-> _].
      * unfold resume_Invalidate_all in Hs.
        destruct r as [ccd|v'|  |e]; try done.
        by destruct (forallb _ _); simplify_eq.
      * done.
Qed.

(** *** Entries whose refresh failed *)

Lemma stopped_unobserved m c cache (e : E) :
  inv m → heap m !! c = Some cache →
  ReplaySubject.thrownError (subject cache) = Some e →
  ReplaySubject.observed (subject cache) = false.
Proof.
  intros (_ & _ & _ & Hh) Hl Herr. destruct (Hh c cache Hl) as [Hs _].
  unfold ReplaySubject.observed. rewrite Hs in Herr |- *.
  rewrite rs_stopped_unobserved; [done|].
  destruct (rs_inv_run (channel_ops c (trace m)) _ (rs_inv_create (T:=T) (E:=E) 1))
    as (_ & _ & ->).
  unfold ReplaySubject.hasError. by rewrite Herr.
Qed.

Lemma getAndEnsureCache_other k k' (args : CallArgs) (ctx : CallContext) m c :
  k' ≠ k → JsMap.get k (_cacheStore m) = Some c →
  JsMap.get k (_cacheStore (_getAndEnsureCache k' args ctx m).1) = Some c.
Proof.
  intros Hne Hg. unfold _getAndEnsureCache.
  destruct (JsMap.get k' (_cacheStore m)) as [c'|] eqn:Hg'; simpl; [done|].
  rewrite jsmap_set_fresh by done. by rewrite jsmap_get_app_fresh, Hg.
Qed.

Lemma getAndEnsureCache_heap k (args : CallArgs) (ctx : CallContext) m c cache :
  heap m !! c = Some cache →
  heap (_getAndEnsureCache k args ctx m).1 !! c = Some cache.
Proof.
  intros Hl. unfold _getAndEnsureCache.
  destruct (JsMap.get k (_cacheStore m)); simpl; [done|].
  by apply lookup_app_l_Some.
Qed.

(** An entry nobody observes is gone after a sweep that does not except its
    key, after the call of an invalidation and after a read of another
    key. *)
Lemma unobserved_collected m k c cache :
  JsMap.wf (_cacheStore m) → JsMap.get k (_cacheStore m) = Some c →
  heap m !! c = Some cache → ReplaySubject.observed (subject cache) = false →
  (∀ except, except ≠ Some k →
     JsMap.get k (_cacheStore (_removeUnobservedCachesAsync except m)) = None)
  ∧ (∀ cacheKey,
       JsMap.get k (_cacheStore (invalidateAndUpdateAsync cacheKey m).1) = None)
  ∧ (∀ k' (args : CallArgs) (ctx : CallContext), k' ≠ k →
       JsMap.get k (_cacheStore (getCache k' args ctx m).1) = None).
Proof.
  intros Hwf Hg Hl Hobs.
  assert (∀ except m0, except ≠ Some k → JsMap.wf (_cacheStore m0) →
            JsMap.get k (_cacheStore m0) = Some c → heap m0 !! c = Some cache →
            JsMap.get k (_cacheStore (_removeUnobservedCachesAsync except m0))
            = None) as Hsweep.
  { intros except m0 Hne Hwf0 Hg0 Hl0. rewrite sweep_get, Hg0 by done.
    unfold unused. simpl. rewrite Hl0, Hobs.
    by rewrite bool_decide_eq_true_2 by congruence. }
  split; [|split].
  - intros except Hne. by apply Hsweep.
  - intros cacheKey. unfold invalidateAndUpdateAsync. simpl. by apply Hsweep.
  - intros k' args ctx Hne. rewrite getCache_unfold. cbn [fst].
    change (_cacheStore (emit ?ev (spawn ?task ?x).1)) with (_cacheStore x).
    apply Hsweep; [congruence|by apply getAndEnsureCache_wf
                  |by apply getAndEnsureCache_other|by apply getAndEnsureCache_heap].
Qed.

(** X9: the subject of an entry that failed has no observers, whoever
    subscribed before or after the failure.  So the entry is dropped by the
    next sweep that does not except its key: by any invalidation, of its own
    key as well, and by a read of any other key.  A read of its own key,
    until then, gets the failed entry again, and allocates nothing. *)
Theorem failed_entry_is_collected maxAgeInMS calls m k c cache (e : E) :
  exec truthy throws calls (new_manager maxAgeInMS) = Some m →
  JsMap.get k (_cacheStore m) = Some c → heap m !! c = Some cache →
  ReplaySubject.thrownError (subject cache) = Some e →
  ReplaySubject.observed (subject cache) = false
  ∧ (∀ except, except ≠ Some k →
       JsMap.get k (_cacheStore (_removeUnobservedCachesAsync except m)) = None)
  ∧ (∀ cacheKey,
       JsMap.get k (_cacheStore (invalidateAndUpdateAsync cacheKey m).1) = None)
  ∧ (∀ k' (args : CallArgs) (ctx : CallContext), k' ≠ k →
       JsMap.get k (_cacheStore (getCache k' args ctx m).1) = None)
  ∧ (∀ (args : CallArgs) (ctx : CallContext),
       (getCache k args ctx m).2 = c
       ∧ heap (getCache k args ctx m).1 = heap m).
Proof.
  intros Hx Hg Hl Herr. pose proof (inv_reachable _ _ _ Hx) as Hinv.
  pose proof (stopped_unobserved m c cache e Hinv Hl Herr) as Hobs.
  split; [done|]. destruct Hinv as ([Hwf _] & _).
  destruct (unobserved_collected m k c cache Hwf Hg Hl Hobs) as (H1 & H2 & H3).
  split; [done|]. split; [done|]. split; [done|].
  intros args ctx. rewrite getCache_unfold. cbn [fst snd].
  unfold _getAndEnsureCache. rewrite Hg. simpl.
  by destruct (sweep_fields (Some k) m) as (-> & _).
Qed.

(** X10: once the only subscriber of an entry has closed its subscription,
    the entry counts as unobserved at once: it was kept by every sweep
    before, and is dropped by the next sweep that does not except its key,
    by the call of any invalidation and by a read of another key. *)
Theorem last_unsubscribe_makes_collectable m k c cache sid :
  JsMap.wf (_cacheStore m) → JsMap.get k (_cacheStore m) = Some c →
  heap m !! c = Some cache →
  ReplaySubject.observers (subject cache) = [sid] →
  (∀ except, JsMap.get k (_cacheStore (_removeUnobservedCachesAsync except m))
             = Some c)
  ∧ ∃ m', step truthy throws (CallUnsubscribe c sid) m = Some m'
      ∧ _cacheStore m' = _cacheStore m
      ∧ (∀ except, except ≠ Some k →
           JsMap.get k (_cacheStore (_removeUnobservedCachesAsync except m'))
           = None)
      ∧ (∀ cacheKey,
           JsMap.get k (_cacheStore (invalidateAndUpdateAsync cacheKey m').1)
           = None)
      ∧ (∀ k' (args : CallArgs) (ctx : CallContext), k' ≠ k →
           JsMap.get k (_cacheStore (getCache k' args ctx m').1) = None).
Proof.
  intros Hwf Hg Hl Hobs. split.
  - intros except. rewrite sweep_get, Hg by done. unfold unused. simpl.
    rewrite Hl. unfold ReplaySubject.observed. rewrite Hobs. simpl.
    by rewrite andb_false_r.
  - simpl. unfold unsubscribe_from. rewrite Hl. simpl. eexists. split; [done|].
    split; [done|].
    apply (unobserved_collected _ k c
             (on_subject (ReplaySubject.unsubscribe sid) cache)); try done.
    + simpl. by rewrite list_lookup_alter_eq, Hl.
    + simpl. unfold ReplaySubject.observed. simpl. rewrite Hobs. simpl.
      by rewrite decide_True.
Qed.

(** *** Sweeps, composed *)

(** X11: a sweep done twice is a sweep done once, and after a sweep that
    excepted a key, a sweep with no exception leaves what it would have left
    without the first. *)
Theorem sweep_idempotent m except :
  JsMap.wf (_cacheStore m) →
  let m' := _removeUnobservedCachesAsync except m in
  _removeUnobservedCachesAsync except m' = m'
  ∧ _removeUnobservedCachesAsync None m' = _removeUnobservedCachesAsync None m.
Proof.
  clear truthy. intros Hwf m'.
  destruct (sweep_fields except m) as (Hh & Ht & Htr & Hn & Hma). fold m' in Hh, Ht, Htr, Hn, Hma.
  pose proof (sweep_store except m Hwf) as Hst. fold m' in Hst.
  pose proof (sweep_wf except m Hwf) as Hwf'. fold m' in Hwf'.
  split.
  - apply sweep_nothing. rewrite Hst. apply filter_filter_nil.
    intros entry _ <-. by apply unused_heap.
  - destruct (sweep_fields None m') as (Hh1 & Ht1 & Htr1 & Hn1 & Hma1).
    destruct (sweep_fields None m) as (Hh2 & Ht2 & Htr2 & Hn2 & Hma2).
    apply manager_eq; try congruence.
    rewrite !sweep_store by done. rewrite Hst.
    rewrite (filter_ext _ (λ entry, negb (unused None m entry)))
      by (intros entry; f_equal; by apply unused_heap).
    apply filter_filter_absorb. intros [k c] _. unfold unused. simpl.
    destruct (heap m !! c) as [cache|]; [|by rewrite !andb_false_r].
    destruct (ReplaySubject.observed (subject cache)); simpl;
      [by rewrite !andb_false_r|].
    done.
Qed.

(** *** Invalidation, start to end *)

Lemma targets_present_keys m :
  JsMap.wf (_cacheStore m) →
  targets_present (JsMap.keys (_cacheStore m)) m = List.map snd (_cacheStore m).
Proof.
  intros Hwf. unfold targets_present, JsMap.keys.
  assert (∀ l, l ⊆ _cacheStore m →
            omap (λ k, JsMap.get k (_cacheStore m)) (List.map fst l)
            = List.map snd l) as Hgen.
  { induction l as [|[k c] l IH]; intros Hsub; simpl; [done|].
    rewrite (jsmap_elem_get k c) by (done || (apply Hsub; left)).
    f_equal. apply IH. intros x Hx. apply Hsub. by right. }
  by apply Hgen.
Qed.


Lemma imap_map {A B C} (f : nat → B → C) (g : A → B) (l : list A) :
  imap f (List.map g l) = imap (λ i x, f i (g x)) l.
Proof.
  revert f. induction l as [|x l IH]; intros f; simpl; [done|].
  f_equal. apply IH.
Qed.

(** X13: an invalidation called with no key, or with a key that JavaScript
    takes for false, works on every entry the sweep at its call leaves,
    which are the observed ones: their keys, in the order of the store, go to
    [removeAsync], and one refresh is started for each, in that order, its
    producer invoked.  When no producer throws, the refreshes all await
    their producers and no entry has changed. *)
Theorem invalidate_all_refreshes_the_observed maxAgeInMS calls m cacheKey now1 now2 :
  exec truthy throws calls (new_manager maxAgeInMS) = Some m →
  match cacheKey with Some k => truthy k = false | None => True end →
  let t := length (tasks m) in
  let kept := List.filter (λ entry, negb (unused None m entry)) (_cacheStore m) in
  let starts :=
    refresh_starts throws (trace m ++ [EvRemoveAsync t (List.map fst kept)]) (S t)
      (heap m) (List.map snd kept) in
  ∃ m3 new,
    exec truthy throws [CallInvalidate cacheKey; Resume t Resolved now1;
                 Resume t Resolved now2] m = Some m3
    ∧ _cacheStore m3 = kept
    ∧ trace m3 = trace m ++ EvRemoveAsync t (List.map fst kept) :: starts
    ∧ List.filter is_provider_call starts
      = concat (imap (λ i entry, provider_call m (S t + i) entry.2) kept)
    ∧ tasks m3 = tasks m ++ Invalidate_all (seq (S t) (length kept)) :: new
    ∧ Forall2 (λ entry task,
                 task = Refresh_dataProvider entry.2 ∨ task = Settled None)
              kept new
    ∧ (∀ c, c ∉ List.map snd kept → heap m3 !! c = heap m !! c)
    ∧ (producers_return throws m (List.map snd kept) →
       trace m3
       = trace m
         ++ EvRemoveAsync t (List.map fst kept)
            :: concat (imap (λ i entry, provider_call m (S t + i) entry.2) kept)
       ∧ tasks m3
         = tasks m
           ++ Invalidate_all (seq (S t) (length kept))
              :: List.map (λ entry, Refresh_dataProvider entry.2) kept
       ∧ heap m3 = heap m).
Proof.
  intros Hx Hkey t kept starts. pose proof (inv_reachable _ _ _ Hx) as Hinv.
  destruct (sweep_fields None m) as (Hh & Ht & Htr & _).
  set (m1 := (invalidateAndUpdateAsync cacheKey m).1).
  assert (step truthy throws (CallInvalidate cacheKey) m = Some m1) as S1 by done.
  pose proof (inv_step _ _ _ S1 Hinv) as Hinv1.
  assert (tasks m1 = tasks m ++ [Invalidate_sweep cacheKey]) as Ht1
    by (unfold m1, invalidateAndUpdateAsync; simpl; by rewrite Ht).
  assert (trace m1 = trace m) as Htr1 by done.
  assert (heap m1 = heap m) as Hh1 by done.
  assert (_cacheStore m1 = kept) as Hs1.
  { unfold m1, invalidateAndUpdateAsync. simpl. apply sweep_store, Hinv. }
  clearbody m1.
  set (all := List.map fst kept) in *.
  set (m2 := set_task t (Invalidate_removeAsync all) (emit (EvRemoveAsync t all) m1)).
  assert (step truthy throws (Resume t Resolved now1) m1 = Some m2) as S2.
  { simpl. unfold resume. rewrite Ht1, list_lookup_middle by done. simpl.
    unfold resume_Invalidate_sweep, allToInvalidateAndUpdate, JsMap.keys.
    rewrite Hs1. destruct cacheKey as [k|]; [by rewrite Hkey|done]. }
  pose proof (inv_step _ _ _ S2 Hinv1) as Hinv2.
  assert (tasks m2 = tasks m ++ [Invalidate_removeAsync all]) as Ht2.
  { unfold m2. simpl. by rewrite Ht1, insert_app_r_alt, Nat.sub_diag by done. }
  assert (trace m2 = trace m ++ [EvRemoveAsync t all]) as Htr2
    by (unfold m2; simpl; by rewrite Htr1).
  assert (heap m2 = heap m) as Hh2 by done.
  assert (_cacheStore m2 = kept) as Hs2 by done.
  clearbody m2.
  assert (tasks m2 !! t = Some (Invalidate_removeAsync all)) as Hl2
    by (rewrite Ht2; by apply list_lookup_middle).
  destruct (invalidate_refreshes m2 t all now2 Hl2 (proj1 Hinv2))
    as (m3 & new & S3 & Ht3 & Hnew & Htr3 & Hcalls & _ & Hne3 & Hs3 & Hret3).
  assert (targets_present all m2 = List.map snd kept) as Htp.
  { unfold all. rewrite <- Hs2. apply targets_present_keys, Hinv2. }
  assert (length (tasks m2) = S t) as Hlen
    by (rewrite Ht2, length_app; simpl; lia).
  rewrite Htp, Hlen in Ht3, Htr3, Hcalls, Hret3. rewrite Htp in Hnew, Hne3.
  rewrite List.length_map in Ht3. rewrite Hh2, Htr2 in Htr3, Hcalls.
  fold starts in Htr3, Hcalls.
  assert (∀ m', heap m' = heap m →
            concat (imap (λ i c, provider_call m' (S t + i) c) (List.map snd kept))
            = concat (imap (λ i entry, provider_call m (S t + i) entry.2) kept))
    as Himap.
  { intros m' Hm'. rewrite imap_map. f_equal. apply imap_ext.
    intros i entry _. simpl. by apply provider_call_heap. }
  exists m3, new. split; [|split; [|split; [|split; [|split; [|split; [|split]]]]]].
  - cbn [exec]. rewrite S1. cbn [mbind option_bind]. rewrite S2.
    cbn [mbind option_bind]. by rewrite S3.
  - congruence.
  - by rewrite Htr3, <- (assoc_L (++)).
  - rewrite Hcalls. by apply Himap.
  - rewrite Ht3, Ht2, <- (assoc_L (++)). simpl.
    by rewrite insert_app_r_alt, Nat.sub_diag by done.
  - by apply Forall2_fmap_l in Hnew.
  - intros c Hc. rewrite Hne3 by done. by rewrite Hh2.
  - intros Hret. destruct Hret3 as (-> & Htr3' & Hh3).
    { intros tr c cache Hin Hl. rewrite Hh2 in Hl. by apply (Hret tr c cache). }
    split; [|split].
    + rewrite Htr3', Htr2, <- (assoc_L (++)). simpl. do 2 f_equal.
      by apply Himap.
    + rewrite Ht3, Ht2, <- (assoc_L (++)), List.map_map. simpl.
      by rewrite insert_app_r_alt, Nat.sub_diag by done.
    + congruence.
Qed.

(** *** Reads at the same time *)

Lemma getCache_found k (args : CallArgs) (ctx : CallContext) m c :
  JsMap.get k (_cacheStore m) = Some c → (getCache k args ctx m).2 = c.
Proof.
  intros Hg. rewrite getCache_unfold. cbn [snd]. unfold _getAndEnsureCache.
  by rewrite Hg.
Qed.

Lemma getCache_get k (args : CallArgs) (ctx : CallContext) m :
  JsMap.wf (_cacheStore m) →
  JsMap.get k (_cacheStore (getCache k args ctx m).1)
  = Some (getCache k args ctx m).2.
Proof.
  intros Hwf. rewrite getCache_unfold. simpl.
  rewrite sweep_get, getAndEnsureCache_get by (by apply getAndEnsureCache_wf).
  by rewrite unused_excepted.
Qed.

(** X14: refreshes of one entry are not joined: when a key is read twice
    before the durable store has answered and the store has no record, each
    read invokes the producer, both with the arguments and the context the
    entry was made with.  When the producer does not throw for them, both
    reads then await it. *)
Theorem concurrent_reads_each_refresh maxAgeInMS calls m k
    (args args' : CallArgs) (ctx ctx' : CallContext) now1 now2 :
  exec truthy throws calls (new_manager maxAgeInMS) = Some m →
  let t := length (tasks m) in
  let c := (getCache k args ctx m).2 in
  ∃ cache m4 task3 task4,
    let tr2 := trace m ++ [EvGetAsync t k; EvGetAsync (S t) k] in
    let evs3 := refresh_start throws tr2 t c (context cache) (lastArgs cache) in
    let evs4 :=
      refresh_start throws (tr2 ++ evs3) (S t) c (context cache) (lastArgs cache) in
    heap (getCache k args ctx m).1 !! c = Some cache
    ∧ exec truthy throws [CallGetCache k args ctx; CallGetCache k args' ctx';
                   Resume t (GetResolved None) now1;
                   Resume (S t) (GetResolved None) now2] m = Some m4
    ∧ trace m4 = tr2 ++ evs3 ++ evs4
    ∧ List.filter is_provider_call (evs3 ++ evs4)
      = [EvDataProvider t (context cache) (lastArgs cache);
         EvDataProvider (S t) (context cache) (lastArgs cache)]
    ∧ tasks m4 = tasks m ++ [task3; task4]
    ∧ (task3 = Refresh_dataProvider c ∨ task3 = Settled None)
    ∧ (task4 = Refresh_dataProvider c ∨ task4 = Settled None)
    ∧ ((∀ tr, throws tr (context cache) (lastArgs cache) = None) →
       trace m4
       = trace m
         ++ [EvGetAsync t k; EvGetAsync (S t) k;
             EvDataProvider t (context cache) (lastArgs cache);
             EvDataProvider (S t) (context cache) (lastArgs cache)]
       ∧ tasks m4 = tasks m ++ [Refresh_dataProvider c; Refresh_dataProvider c]).
Proof.
  intros Hx t c. pose proof (inv_reachable _ _ _ Hx) as Hinv.
  set (m1 := (getCache k args ctx m).1).
  assert (step truthy throws (CallGetCache k args ctx) m = Some m1) as S1 by done.
  pose proof (inv_step _ _ _ S1 Hinv) as Hinv1.
  destruct (getCache_fields k args ctx m) as [Ht1 Htr1]. fold m1 c t in Ht1, Htr1.
  assert (JsMap.get k (_cacheStore m1) = Some c) as Hg1
    by (apply getCache_get, Hinv).
  destruct Hinv1 as ([Hwf1 Hst1] & _).
  destruct (proj1 (Forall_forall _ _) Hst1 (k, c) (jsmap_get_Some_elem _ _ _ Hg1))
    as (cache & Hl1 & _). simpl in Hl1.
  exists cache. clearbody m1 c.
  set (m2 := (getCache k args' ctx' m1).1).
  assert (step truthy throws (CallGetCache k args' ctx') m1 = Some m2) as S2 by done.
  destruct (getCache_fields k args' ctx' m1) as [Ht2 Htr2]. fold m2 in Ht2, Htr2.
  rewrite (getCache_found k args' ctx' m1 c Hg1) in Ht2.
  assert (heap m2 !! c = Some cache) as Hl2 by (by apply getCache_heap).
  assert (length (tasks m1) = S t) as Hlen1
    by (rewrite Ht1, length_app; simpl; lia).
  rewrite Ht1, <- (assoc_L (++)) in Ht2. rewrite Htr1, Hlen1, <- (assoc_L (++)) in Htr2.
  simpl in Ht2, Htr2. clearbody m2.
  assert (length (tasks m2) = S (S t)) as Hlen2
    by (rewrite Ht2, length_app; simpl; lia).
  destruct (refreshCacheData_task m2 t c cache Hl2 ltac:(lia))
    as (m3 & task3 & cache3 & Hr3 & Ht3 & Htask3 & Htr3 & Hl3 & Hc3 & Ha3 & Hret3).
  assert (step truthy throws (Resume t (GetResolved None) now1) m2 = Some m3) as S3.
  { simpl. unfold resume. rewrite Ht2, list_lookup_middle by done. done. }
  rewrite Ht2, insert_app_r_alt, Nat.sub_diag in Ht3 by done. simpl in Ht3.
  rewrite Htr2 in Htr3.
  assert (length (tasks m3) = S (S t)) as Hlen3
    by (rewrite Ht3, length_app; simpl; lia).
  destruct (refreshCacheData_task m3 (S t) c cache3 Hl3 ltac:(lia))
    as (m4 & task4 & cache4 & Hr4 & Ht4 & Htask4 & Htr4 & _ & _ & _ & Hret4).
  assert (step truthy throws (Resume (S t) (GetResolved None) now2) m3 = Some m4)
    as S4.
  { simpl. unfold resume. rewrite Ht3.
    change (tasks m ++ [task3; RefreshIfOut_getAsync k c])
      with (tasks m ++ [task3] ++ [RefreshIfOut_getAsync k c]).
    rewrite (assoc_L (++)), list_lookup_middle; [done|].
    rewrite length_app. simpl. lia. }
  rewrite Hc3, Ha3, Htr3 in Htr4, Hret4.
  assert (tasks m4 = tasks m ++ [task3; task4]) as Ht4'.
  { rewrite Ht4, Ht3.
    change (tasks m ++ [task3; RefreshIfOut_getAsync k c])
      with (tasks m ++ [task3] ++ [RefreshIfOut_getAsync k c]).
    rewrite (assoc_L (++)), insert_app_r_alt by (rewrite length_app; simpl; lia).
    rewrite length_app. simpl. rewrite Nat.add_1_r, Nat.sub_diag. simpl.
    by rewrite <- (assoc_L (++)). }
  exists m4, task3, task4. cbv zeta.
  split; [done|]. split; [|split; [|split; [|split; [|split; [|split]]]]].
  - cbn [exec]. rewrite S1. cbn [mbind option_bind]. rewrite S2.
    cbn [mbind option_bind]. rewrite S3. cbn [mbind option_bind].
    by rewrite S4.
  - by rewrite Htr4, <- (assoc_L (++)).
  - by rewrite List.filter_app, !refresh_start_provider_call.
  - done.
  - done.
  - done.
  - intros Hret. destruct (Hret3 (Hret _)) as [-> _].
    destruct (Hret4 (Hret _)) as [-> _]. split; [|done].
    rewrite Htr4. unfold refresh_start. rewrite !Hret.
    by rewrite <- !(assoc_L (++)).
Qed.

(** *** Tasks that wait *)

(** X15: a pending task can be resumed with either way the promise it awaits
    may settle: the entry a read or a refresh works on is there when the
    task goes on, also when the store has dropped it since; an invalidation
    that waits for its refreshes goes on exactly when all of them are
    settled; a settled task is never resumed. *)
Theorem pending_tasks_can_resume maxAgeInMS calls m t task now :
  exec truthy throws calls (new_manager maxAgeInMS) = Some m →
  tasks m !! t = Some task →
  match task with
  | RefreshIfOut_getAsync _ _ =>
      (∀ ccd, is_Some (step truthy throws (Resume t (GetResolved ccd) now) m))
      ∧ (∀ e, is_Some (step truthy throws (Resume t (Rejected e) now) m))
  | Refresh_dataProvider _ =>
      (∀ v, is_Some (step truthy throws (Resume t (ProviderResolved v) now) m))
      ∧ (∀ e, is_Some (step truthy throws (Resume t (Rejected e) now) m))
  | Refresh_storeAsync _ _ =>
      is_Some (step truthy throws (Resume t Resolved now) m)
      ∧ (∀ e, is_Some (step truthy throws (Resume t (Rejected e) now) m))
  | Invalidate_sweep _ => is_Some (step truthy throws (Resume t Resolved now) m)
  | Invalidate_removeAsync _ =>
      is_Some (step truthy throws (Resume t Resolved now) m)
      ∧ (∀ e, is_Some (step truthy throws (Resume t (Rejected e) now) m))
  | Invalidate_all children =>
      is_Some (step truthy throws (Resume t Resolved now) m)
      ↔ forallb (settled m) children = true
  | Settled _ => ∀ r, step truthy throws (Resume t r now) m = None
  end.
Proof.
  intros Hx Ht. pose proof (inv_reachable _ _ _ Hx) as Hinv.
  pose proof (λ c, inv_task_cache m t task c Hinv Ht) as Htc.
  destruct task as [k c|c|c v|ck|all|children|rej]; simpl; unfold resume;
    rewrite Ht; simpl.
  - destruct (lookup_lt_is_Some_2 _ _ (Htc c eq_refl)) as [cache Hl].
    split; [|by eexists]. intros ccd. unfold _refreshCacheData. rewrite Hl. simpl.
    destruct (cacheDataNeedsRefresh ccd now);
      [destruct (throws _ _ _); by eexists|].
    destruct ccd as [d|]; [destruct (negb (initialized cache))|]; by eexists.
  - destruct (lookup_lt_is_Some_2 _ _ (Htc c eq_refl)) as [cache Hl].
    split; [|by eexists]. intros v. rewrite Hl. by eexists.
  - split; [|intros e]; by eexists.
  - by eexists.
  - split; [|by eexists].
    destruct (refresh_each_spec all m (proj1 Hinv)) as (m' & new & -> & _).
    by eexists.
  - destruct (forallb (settled m) children); split; try done; by intros [? ?].
  - done.
Qed.

(** *** Refreshes of one entry that overlap *)

(** X16: when two refreshes of one entry are both waiting for their write to
    the durable store, the value the entry's subject keeps for replay is that
    of the refresh whose write is settled last, whichever of the two was
    started, or wrote, first. *)
Theorem last_completed_refresh_wins maxAgeInMS calls m t1 t2 c (v1 v2 : T) cache
    now1 now2 :
  exec truthy throws calls (new_manager maxAgeInMS) = Some m →
  tasks m !! t1 = Some (Refresh_storeAsync c v1) →
  tasks m !! t2 = Some (Refresh_storeAsync c v2) →
  t1 ≠ t2 → heap m !! c = Some cache →
  ReplaySubject.thrownError (subject cache) = None →
  ∃ m2 cache2,
    exec truthy throws [Resume t1 Resolved now1; Resume t2 Resolved now2] m = Some m2
    ∧ heap m2 !! c = Some cache2
    ∧ ReplaySubject._buffer (subject cache2) = [v2]
    ∧ trace m2 = trace m ++ [EvNext t1 c v1; EvNext t2 c v2].
Proof.
  intros Hx Ht1 Ht2 Hne Hl Herr. pose proof (inv_reachable _ _ _ Hx) as Hinv.
  destruct (live_subject m c cache Hinv Hl) as [Hrs Hn].
  assert (ReplaySubject.isStopped (subject cache) = false) as Hst.
  { destruct Hrs as (_ & _ & ->). unfold ReplaySubject.hasError. by rewrite Herr. }
  set (m1 := set_task t1 (Settled None) (_setCacheData t1 c v1 m)).
  assert (step truthy throws (Resume t1 Resolved now1) m = Some m1) as S1
    by (simpl; unfold resume; by rewrite Ht1).
  pose proof (inv_step _ _ _ S1 Hinv) as Hinv1.
  set (cache1 := mkCache (key cache) (lastArgs cache) (context cache)
                   (ReplaySubject.next v1 (subject cache)) true).
  assert (heap m1 !! c = Some cache1) as Hl1
    by (unfold m1; simpl; by rewrite list_lookup_alter_eq, Hl).
  assert (tasks m1 !! t2 = Some (Refresh_storeAsync c v2)) as Ht2'
    by (unfold m1; simpl; by rewrite list_lookup_insert_ne).
  assert (trace m1 = trace m ++ [EvNext t1 c v1]) as Htr1 by done.
  clearbody m1.
  destruct (live_subject m1 c cache1 Hinv1 Hl1) as [Hrs1 Hn1].
  destruct (rs_next_buffer v1 (subject cache) Hrs Hn Hst) as [_ Hst1].
  exists (set_task t2 (Settled None) (_setCacheData t2 c v2 m1)). eexists.
  split; [|split; [|split]].
  - cbn [exec]. rewrite S1. cbn [mbind option_bind]. simpl. unfold resume.
    by rewrite Ht2'.
  - simpl. by rewrite list_lookup_alter_eq, Hl1.
  - simpl. by apply rs_next_buffer.
  - simpl. by rewrite Htr1, <- (assoc_L (++)).
Qed.

(** *** What a subscriber sees *)

Lemma channel_ops_unsubscribe c (tr : list event_t) sid :
  ReplaySubject.OpUnsubscribe sid ∈ channel_ops c tr → EvUnsubscribe c sid ∈ tr.
Proof.
  induction tr as [|ev tr IH].
  - intros Hin. by apply elem_of_nil in Hin.
  - change (channel_ops c (ev :: tr)) with (channel_op c ev ++ channel_ops c tr).
    intros [Hin|Hin]%elem_of_app; [|right; by apply IH].
    destruct ev; simpl in Hin; try (by apply elem_of_nil in Hin);
      destruct (decide _); try (by apply elem_of_nil in Hin);
      apply list_elem_of_singleton in Hin; simplify_eq. left.
Qed.

(** X17: what a subscriber of an entry whose subject has not failed is
    handed, as long as it does not close its subscription: the value the
    subject holds when it subscribes, if any; then every value published on
    the entry with effect afterwards, each once and in the order of
    publication; then, if a refresh fails, the error, and nothing after
    it. *)
Theorem subscriber_view maxAgeInMS calls m c cache :
  exec truthy throws calls (new_manager maxAgeInMS) = Some m →
  heap m !! c = Some cache →
  ReplaySubject.thrownError (subject cache) = None →
  ∃ m', step truthy throws (CallSubscribe c) m = Some m'
    ∧ ∀ calls' m'' cache'',
        exec truthy throws calls' m' = Some m'' → heap m'' !! c = Some cache'' →
        EvUnsubscribe c (nextSub m) ∉ trace m'' →
        let later := channel_ops c (drop (length (trace m')) (trace m'')) in
        ReplaySubject.received (nextSub m) (subject cache'')
        = List.map ReplaySubject.NNext (ReplaySubject._buffer (subject cache))
          ++ List.map ReplaySubject.NNext (ReplaySubject.published later)
          ++ match ReplaySubject.failure later with
             | Some e => [ReplaySubject.NError e]
             | None => []
             end.
Proof.
  intros Hx Hl Herr. pose proof (inv_reachable _ _ _ Hx) as Hinv.
  destruct (subscribe_to_spec m c cache Hl) as (m' & Hs & Htr & Hns & Hl').
  exists m'. split; [done|]. intros calls' m'' cache'' Hx' Hl'' Hstay later.
  destruct (proj2 (proj2 (proj2 Hinv)) c cache Hl) as [Hsub _].
  assert (ReplaySubject.failure (channel_ops c (trace m)) = None) as Hfail.
  { rewrite Hsub, rs_thrownError_run in Herr by (apply rs_inv_create || done). done. }
  pose proof (inv_exec _ _ _ Hx' (inv_step _ _ _ Hs Hinv)) as Hinv''.
  destruct (extends_exec _ _ _ Hx') as (_ & (evs & Htr'' & Hok) & _).
  assert (later = channel_ops c evs) as ->
    by (unfold later; by rewrite Htr'', drop_app_length).
  destruct (proj2 (proj2 (proj2 Hinv'')) c cache'' Hl'') as [-> _].
  rewrite Htr'', Htr, !channel_ops_app.
  replace (channel_ops c [EvSubscribe c (nextSub m)])
    with [ReplaySubject.OpSubscribe (T:=T) (E:=E) (nextSub m)]
    by (unfold channel_ops; simpl; by rewrite decide_True).
  rewrite <- (assoc_L (++)). simpl.
  rewrite rs_subscriber_view; try done.
  - by rewrite Hsub, rs_buffer_created.
  - apply fresh_in_trace, Hinv.
  - eapply fresh_in_news; [exact Hok|]. lia.
  - intros Hin. apply channel_ops_unsubscribe in Hin. apply Hstay.
    rewrite Htr''. apply elem_of_app. by right.
Qed.

(** *** Entries that are observed *)

Lemma step_store_kept call m m' :
  step truthy throws call m = Some m' →
  (∀ k (args : CallArgs) (ctx : CallContext), call ≠ CallGetCache k args ctx) →
  (∀ ck, call ≠ CallInvalidate ck) →
  _cacheStore m' = _cacheStore m.
Proof.
  destruct call as [k args ctx|ck|c0|c0 sid|t r now]; simpl; intros Hs Hr Hi.
  - by destruct (Hr k args ctx).
  - by destruct (Hi ck).
  - unfold subscribe_to in Hs. by destruct (heap m !! c0); simplify_eq/=.
  - unfold unsubscribe_from in Hs. by destruct (heap m !! c0); simplify_eq/=.
  - unfold resume in Hs.
    destruct (tasks m !! t) as [task|] eqn:Ht; simpl in Hs; [|done].
    destruct task as [k c0|c0|c0 v|ck|all|children|rej]; simpl in Hs.
    + unfold resume_RefreshIfOut_getAsync, _refreshCacheData in Hs.
      destruct r as [ccd|v|  |e]; try done; [|by simplify_eq].
      destruct (cacheDataNeedsRefresh ccd now);
        destruct (heap m !! c0) as [cache0|]; simpl in Hs; try done;
        [by destruct (throws _ _ _); simplify_eq|].
      destruct ccd as [d|]; [destruct (negb (initialized cache0))|];
        by simplify_eq.
    + unfold resume_Refresh_dataProvider in Hs.
      destruct r as [ccd|v|  |e]; try done; [|by simplify_eq].
      by destruct (heap m !! c0) as [cache0|]; simplify_eq/=.
    + unfold resume_Refresh_storeAsync in Hs.
      destruct r as [ccd|v'|  |e]; by simplify_eq.
    + unfold resume_Invalidate_sweep in Hs.
      destruct r as [ccd|v'|  |e]; by simplify_eq.
    + unfold resume_Invalidate_removeAsync in Hs.
      destruct r as [ccd|v'|  |e]; simplify_eq; [|done].
      destruct (refresh_each throws all m) as [[m1 ch]|] eqn:Hre; simplify_eq/=.
      by destruct (refresh_each_heap _ _ _ _ Hre) as [-> _].
    + unfold resume_Invalidate_all in Hs.
      destruct r as [ccd|v'|  |e]; try done.
      by destruct (forallb _ _); simplify_eq.
    + done.
Qed.

(** X18: an entry that is observed when a call is made is in the store, under
    its key, after the call, whatever the call: no read, no invalidation and
    no task drops an entry that has a subscriber. *)
Theorem observed_entry_survives call m m' k c cache :
  JsMap.wf (_cacheStore m) → step truthy throws call m = Some m' →
  JsMap.get k (_cacheStore m) = Some c → heap m !! c = Some cache →
  ReplaySubject.observed (subject cache) = true →
  JsMap.get k (_cacheStore m') = Some c.
Proof.
  intros Hwf Hs Hg Hl Hobs.
  assert (∀ except m0, JsMap.wf (_cacheStore m0) →
            JsMap.get k (_cacheStore m0) = Some c → heap m0 !! c = Some cache →
            JsMap.get k (_cacheStore (_removeUnobservedCachesAsync except m0))
            = Some c) as Hsweep.
  { intros except m0 Hwf0 Hg0 Hl0. rewrite sweep_get, Hg0 by done.
    unfold unused. simpl. rewrite Hl0, Hobs. simpl. by rewrite andb_false_r. }
  destruct call as [k' args ctx|ck|c0|c0 sid|t r now].
  - simpl in Hs. simplify_eq. rewrite getCache_unfold. cbn [fst].
    change (_cacheStore (emit ?ev (spawn ?task ?x).1)) with (_cacheStore x).
    apply Hsweep; [by apply getAndEnsureCache_wf| |by apply getAndEnsureCache_heap].
    destruct (decide (k' = k)) as [->|Hne]; [|by apply getAndEnsureCache_other].
    unfold _getAndEnsureCache. by rewrite Hg.
  - simpl in Hs. simplify_eq. unfold invalidateAndUpdateAsync. simpl.
    by apply Hsweep.
  - by rewrite (step_store_kept _ _ _ Hs).
  - by rewrite (step_store_kept _ _ _ Hs).
  - by rewrite (step_store_kept _ _ _ Hs).
Qed.

(** X19: an entry that was dropped is not taken up again: once a read of
    another key has dropped the unobserved entry of a key, a read of that
    key makes a new entry, at a new address, with the arguments and the
    context of this read, a new subject that has nothing to replay, and
    [initialized = false]; the old entry is left as it was. *)
Theorem recreated_after_collection m k k' c cache
    (args args' : CallArgs) (ctx ctx' : CallContext) :
  JsMap.wf (_cacheStore m) → JsMap.get k (_cacheStore m) = Some c →
  heap m !! c = Some cache → ReplaySubject.observed (subject cache) = false →
  k' ≠ k →
  let m1 := (getCache k' args' ctx' m).1 in
  let m2 := (getCache k args ctx m1).1 in
  let c2 := (getCache k args ctx m1).2 in
  JsMap.get k (_cacheStore m1) = None
  ∧ c2 = length (heap m1) ∧ c2 ≠ c
  ∧ heap m2 !! c2 = Some (mkCache k args ctx (ReplaySubject.create 1) false)
  ∧ heap m2 !! c = Some cache
  ∧ JsMap.get k (_cacheStore m2) = Some c2.
Proof.
  intros Hwf Hg Hl Hobs Hne m1 m2 c2.
  destruct (unobserved_collected m k c cache Hwf Hg Hl Hobs) as (_ & _ & Hread).
  pose proof (Hread k' args' ctx' Hne) as Hg1. fold m1 in Hg1.
  pose proof (getCache_heap k' args' ctx' m c cache Hl) as Hl1. fold m1 in Hl1.
  assert (JsMap.wf (_cacheStore m1)) as Hwf1.
  { unfold m1. rewrite getCache_unfold. simpl.
    by apply sweep_wf, getAndEnsureCache_wf. }
  pose proof (getCache_get k args ctx m1 Hwf1) as Hg2. fold m2 c2 in Hg2.
  pose proof (getCache_heap k args ctx m1 c cache Hl1) as Hl2. fold m2 in Hl2.
  clearbody m1.
  assert (c2 = length (heap m1)) as Hc2.
  { unfold c2. rewrite getCache_unfold. cbn [snd]. unfold _getAndEnsureCache.
    by rewrite Hg1. }
  split; [done|]. split; [done|]. split.
  { rewrite Hc2. intros <-. apply lookup_lt_Some in Hl1. lia. }
  split; [|done]. rewrite Hc2. unfold m2. rewrite getCache_unfold. cbn [fst].
  destruct (sweep_fields (Some k) (_getAndEnsureCache k args ctx m1).1) as (Hh & _).
  simpl. rewrite Hh. unfold _getAndEnsureCache. rewrite Hg1. simpl.
  rewrite lookup_app_r by done. by rewrite Nat.sub_diag.
Qed.

(** *** A read, start to end *)

(** X20: the whole of a read that has to refresh.  A key the store has no
    entry for is read and the observable subscribed to; the durable store
    answers with no record or with an outdated one, the producer, which
    returns when it is invoked, with a value, and the write succeeds.  Then
    the producer was invoked once, with
    the arguments and the context of the read; the record written holds the
    value, the manager's max-age and the time at which the producer answered;
    the subscriber has been handed the value, once, and the entry is
    initialized. *)
Theorem read_refreshes_and_delivers m k (args : CallArgs) (ctx : CallContext)
    ccd (v : T) now0 now1 now2 :
  JsMap.get k (_cacheStore m) = None →
  cacheDataNeedsRefresh ccd now0 = true →
  let t := length (tasks m) in
  let c := length (heap m) in
  let sid := nextSub m in
  throws (trace m ++ [EvGetAsync t k; EvSubscribe c sid]) ctx args = None →
  ∃ m5 cache5,
    exec truthy throws [CallGetCache k args ctx; CallSubscribe c;
                 Resume t (GetResolved ccd) now0;
                 Resume t (ProviderResolved v) now1;
                 Resume t Resolved now2] m = Some m5
    ∧ trace m5
      = trace m
        ++ [EvGetAsync t k; EvSubscribe c sid; EvDataProvider t ctx args;
            EvStoreAsync t k (mkCacheData v (_maxAgeInMS m) now1);
            EvNext t c v]
    ∧ tasks m5 = tasks m ++ [Settled None]
    ∧ heap m5 !! c = Some cache5
    ∧ ReplaySubject.received sid (subject cache5) = [ReplaySubject.NNext v]
    ∧ ReplaySubject._buffer (subject cache5) = [v]
    ∧ initialized cache5 = true.
Proof.
  intros Hg Hneeds t c sid Hreturns.
  set (cache0 := mkCache k args ctx (ReplaySubject.create (T:=T) (E:=E) 1) false).
  set (m1 := (getCache k args ctx m).1).
  assert (step truthy throws (CallGetCache k args ctx) m = Some m1) as S1 by done.
  destruct (getCache_fields k args ctx m) as [Ht1 Htr1]. fold m1 t in Ht1, Htr1.
  assert ((getCache k args ctx m).2 = c) as Hc.
  { rewrite getCache_unfold. cbn [snd]. unfold _getAndEnsureCache. by rewrite Hg. }
  rewrite Hc in Ht1.
  assert (heap m1 !! c = Some cache0) as Hl1.
  { unfold m1. rewrite getCache_unfold. cbn [fst].
    destruct (sweep_fields (Some k) (_getAndEnsureCache k args ctx m).1) as (Hh & _).
    simpl. rewrite Hh. unfold _getAndEnsureCache. rewrite Hg. simpl.
    rewrite lookup_app_r by done. by rewrite Nat.sub_diag. }
  assert (nextSub m1 = sid ∧ _maxAgeInMS m1 = _maxAgeInMS m) as [Hn1 Hma1].
  { unfold m1. rewrite getCache_unfold. cbn [fst].
    destruct (sweep_fields (Some k) (_getAndEnsureCache k args ctx m).1)
      as (_ & _ & _ & Hn & Hma).
    destruct (getAndEnsureCache_fields k args ctx m) as (_ & _ & Hn' & Hma').
    simpl. by rewrite Hn, Hma, Hn', Hma'. }
  clearbody m1.
  destruct (subscribe_to_spec m1 c cache0 Hl1) as (m2 & S2 & Htr2 & _ & Hl2).
  assert (tasks m2 = tasks m1 ∧ _maxAgeInMS m2 = _maxAgeInMS m1) as [Ht2 Hma2].
  { simpl in S2. unfold subscribe_to in S2. rewrite Hl1 in S2. by simplify_eq/=. }
  rewrite Hn1 in Htr2, Hl2. rewrite Htr1, <- (assoc_L (++)) in Htr2.
  rewrite Ht1 in Ht2. rewrite Hma1 in Hma2. simpl in Htr2.
  set (cache2 := on_subject (ReplaySubject.subscribe sid) cache0) in *.
  set (m3 := set_task t (Refresh_dataProvider c) (emit (EvDataProvider t ctx args) m2)).
  assert (step truthy throws (Resume t (GetResolved ccd) now0) m2 = Some m3) as S3.
  { simpl. unfold resume. rewrite Ht2, list_lookup_middle by done. simpl.
    rewrite Hneeds. unfold _refreshCacheData. rewrite Hl2. simpl.
    by rewrite Htr2, Hreturns. }
  assert (tasks m3 = tasks m ++ [Refresh_dataProvider c]) as Ht3.
  { unfold m3. simpl. by rewrite Ht2, insert_app_r_alt, Nat.sub_diag by done. }
  assert (trace m3 = trace m ++ [EvGetAsync t k; EvSubscribe c sid;
                                 EvDataProvider t ctx args]) as Htr3.
  { unfold m3. simpl. by rewrite Htr2, <- (assoc_L (++)). }
  assert (heap m3 !! c = Some cache2) as Hl3 by done.
  assert (_maxAgeInMS m3 = _maxAgeInMS m) as Hma3 by done.
  clearbody m3.
  set (ev4 := EvStoreAsync t k (mkCacheData v (_maxAgeInMS m) now1)).
  set (m4 := set_task t (Refresh_storeAsync c v) (emit ev4 m3)).
  assert (step truthy throws (Resume t (ProviderResolved v) now1) m3 = Some m4) as S4.
  { simpl. unfold resume. rewrite Ht3, list_lookup_middle by done. simpl.
    rewrite Hl3. simpl. by rewrite Hma3. }
  assert (tasks m4 = tasks m ++ [Refresh_storeAsync c v]) as Ht4.
  { unfold m4. simpl. by rewrite Ht3, insert_app_r_alt, Nat.sub_diag by done. }
  assert (trace m4 = trace m ++ [EvGetAsync t k; EvSubscribe c sid;
                                 EvDataProvider t ctx args; ev4]) as Htr4.
  { unfold m4. simpl. by rewrite Htr3, <- (assoc_L (++)). }
  assert (heap m4 !! c = Some cache2) as Hl4 by done.
  clearbody m4.
  exists (set_task t (Settled None) (_setCacheData t c v m4)). eexists.
  split; [|split; [|split; [|split; [|split; [|split]]]]].
  - cbn [exec]. rewrite S1. cbn [mbind option_bind]. rewrite S2.
    cbn [mbind option_bind]. rewrite S3. cbn [mbind option_bind]. rewrite S4.
    cbn [mbind option_bind]. simpl. unfold resume.
    by rewrite Ht4, list_lookup_middle by done.
  - simpl. by rewrite Htr4, <- (assoc_L (++)).
  - simpl. by rewrite Ht4, insert_app_r_alt, Nat.sub_diag by done.
  - simpl. by rewrite list_lookup_alter_eq, Hl4.
  - simpl. unfold ReplaySubject.received. simpl. by rewrite Nat.eqb_refl.
  - done.
  - done.
Qed.

(** *** The subject of an entry *)

(** X21: the subject of an entry is never replaced or reset: in every state
    the manager reaches it is the [ReplaySubject(1)] the entry was made
    with, as the [next], [error], [subscribe] and [unsubscribe] calls made on
    this entry so far have left it; it holds at most one value; and whatever
    is called later, the entry is still there and its subject is the same
    one, with the later calls on the entry applied to it. *)
Theorem subject_never_replaced maxAgeInMS calls m c cache :
  exec truthy throws calls (new_manager maxAgeInMS) = Some m →
  heap m !! c = Some cache →
  subject cache
  = ReplaySubject.run (channel_ops c (trace m)) (ReplaySubject.create 1)
  ∧ ReplaySubject._bufferSize (subject cache) = 1
  ∧ length (ReplaySubject._buffer (subject cache)) ≤ 1
  ∧ ∀ calls' m',
      exec truthy throws calls' m = Some m' →
      ∃ cache',
        heap m' !! c = Some cache'
        ∧ subject cache'
          = ReplaySubject.run
              (channel_ops c (drop (length (trace m)) (trace m')))
              (subject cache).
Proof.
  intros Hx Hl. pose proof (inv_reachable _ _ _ Hx) as Hinv.
  destruct (proj2 (proj2 (proj2 Hinv)) c cache Hl) as [Hsub _].
  destruct (live_subject m c cache Hinv Hl) as [(_ & Hlen & _) Hn].
  split; [done|]. split; [done|]. split; [by rewrite Hn in Hlen|].
  intros calls' m' Hx'. pose proof (inv_exec _ _ _ Hx' Hinv) as Hinv'.
  destruct (extends_exec _ _ _ Hx') as (_ & (evs & Htr' & _) & Hk & _).
  destruct (Hk c cache Hl) as (cache' & Hl' & _).
  exists cache'. split; [done|].
  destruct (proj2 (proj2 (proj2 Hinv')) c cache' Hl') as [-> _].
  by rewrite Htr', drop_app_length, channel_ops_app, rs_run_app, <- Hsub.
Qed.

End ManagerFacts.

(** ** The claims at work on these runs *)

Lemma after_read_A_exec : exec js_truthy js_throws read_A (new_manager 1000) = Some (after read_A).
Proof. vm_compute. reflexivity. Qed.

Lemma after_failed_then_read_exec :
  exec js_truthy js_throws failed_then_read (new_manager 1000)
  = Some (after failed_then_read).
Proof. vm_compute. reflexivity. Qed.

Lemma after_failed_then_refreshing_exec :
  exec js_truthy js_throws failed_then_refreshing (new_manager 1000)
  = Some (after failed_then_refreshing).
Proof. vm_compute. reflexivity. Qed.

Lemma after_failed_then_writing_exec :
  exec js_truthy js_throws failed_then_writing (new_manager 1000)
  = Some (after failed_then_writing).
Proof. vm_compute. reflexivity. Qed.

Lemma after_invalidate_A_noarg_B_exec :
  exec js_truthy js_throws invalidate_A_noarg_B (new_manager 1000)
  = Some (after invalidate_A_noarg_B).
Proof. vm_compute. reflexivity. Qed.


(** C1: the producer of a first read of A failed, so the subject of the
    entry is stopped; a second read of A finds the entry, not initialized,
    and the store answers it with a fresh record.  The record's data is
    passed to [next], which the stopped subject ignores: it is not
    published. *)
Lemma stored_payload_not_published :
  ¬ (∀ (calls : list DemoCall) (m m' : DemoManager) t k c cache d now,
       exec js_truthy js_throws calls (new_manager 1000) = Some m →
       tasks m !! t = Some (RefreshIfOut_getAsync k c) →
       heap m !! c = Some cache → initialized cache = false →
       (now < createdAt d + maxAgeMS d)%Z →
       step js_truthy js_throws (Resume t (GetResolved (Some d)) now) m = Some m' →
       ReplaySubject.published (channel_ops c (trace m'))
       = ReplaySubject.published (channel_ops c (trace m)) ++ [data d]).
Proof.
  intros Hclaim.
  assert (heap (after failed_then_read) !! 0
          = Some (mkCache "A" [1] 7
                    (ReplaySubject.error "boom" (ReplaySubject.create 1)) false))
    as Hl by (vm_compute; reflexivity).
  assert (step js_truthy js_throws
            (Resume 1 (GetResolved (Some (mkCacheData 41 1000 0))) 500)
            (after failed_then_read)
          = Some (after (failed_then_read
                         ++ [Resume 1 (GetResolved (Some (mkCacheData 41 1000 0)))
                               500])))
    as Hs by (vm_compute; reflexivity).
  pose proof (Hclaim _ _ _ 1 "A" 0 _ (mkCacheData 41 1000 0) 500%Z
                after_failed_then_read_exec eq_refl Hl eq_refl eq_refl Hs) as Hno.
  vm_compute in Hno. discriminate Hno.
Qed.

(** The amended C1 at work: the store answers the first read of A with a
    fresh record; its data is published and the producer is not invoked. *)
Lemma staleness_check_witness :
  ∃ m' cache',
    step js_truthy js_throws (Resume 0 (GetResolved (Some (mkCacheData 41 1000 0))) 500)
      (after [CallGetCache "A" [1] 7]) = Some m'
    ∧ trace m' = trace (after [CallGetCache "A" [1] 7]) ++ [EvNext 0 0 41]
    ∧ heap m' !! 0 = Some cache'
    ∧ ReplaySubject._buffer (subject cache') = [41]
    ∧ initialized cache' = true.
Proof.
  destruct (staleness_check js_truthy js_throws 1000 [CallGetCache "A" [1] 7]
              (after [CallGetCache "A" [1] 7]) 0 "A" 0
              (mkCache "A" [1] 7 (ReplaySubject.create 1) false)
              (Some (mkCacheData 41 1000 0)) 500 eq_refl eq_refl eq_refl)
    as (m' & Hs & _ & _ & Hfresh).
  destruct (Hfresh _ eq_refl eq_refl) as (_ & Htr & cache' & Hl & Hnext).
  destruct Hnext as (_ & _ & _ & Hinit & _ & Hpub).
  exists m', cache'. split; [exact Hs|]. split; [exact Htr|]. split; [exact Hl|].
  split; [exact (proj1 Hpub)|exact Hinit].
Defined.

(** C2: on the same entry, the second read refreshes and its write succeeds:
    the value is passed to [next], which the stopped subject ignores; it is
    not published. *)
Lemma refreshed_value_not_published :
  ¬ (∀ (calls : list DemoCall) (m m' : DemoManager) t c v now,
       exec js_truthy js_throws calls (new_manager 1000) = Some m →
       tasks m !! t = Some (Refresh_storeAsync c v) →
       step js_truthy js_throws (Resume t Resolved now) m = Some m' →
       ReplaySubject.published (channel_ops c (trace m'))
       = ReplaySubject.published (channel_ops c (trace m)) ++ [v]).
Proof.
  intros Hclaim.
  assert (step js_truthy js_throws (Resume 1 Resolved 4) (after failed_then_writing)
          = Some (after failed_then_retried)) as Hs by (vm_compute; reflexivity).
  pose proof (Hclaim _ _ _ 1 0 41 4%Z after_failed_then_writing_exec eq_refl Hs)
    as Hno.
  vm_compute in Hno. discriminate Hno.
Qed.

(** The amended C2 at work: the refresh of A succeeds while key B is read in
    between; 41 is written, then published. *)
Lemma refresh_success_witness :
  ∃ m1 m3 cache3,
    step js_truthy js_throws (Resume 0 (ProviderResolved 41) 5) (after read_A) = Some m1
    ∧ step js_truthy js_throws (Resume 0 Resolved 6) (getCache "B" [2] 7 m1).1 = Some m3
    ∧ task_events 0 (trace m3)
      = task_events 0 (trace (after read_A))
        ++ [EvStoreAsync 0 "A" (mkCacheData 41 1000 5); EvNext 0 0 41]
    ∧ heap m3 !! 0 = Some cache3
    ∧ initialized cache3 = true.
Proof.
  destruct (refresh_success js_truthy js_throws 1000 read_A (after read_A) 0 0
              (mkCache "A" [1] 7
                 (ReplaySubject.subscribe 0 (ReplaySubject.create 1)) false)
              41 5 after_read_A_exec eq_refl eq_refl)
    as (m1 & Hs1 & _ & _ & Hrest).
  destruct (Hrest [CallGetCache "B" [2] 7] (getCache "B" [2] 7 m1).1 6%Z)
    as (m3 & cache2 & cache3 & Hs3 & _ & _ & Hl3 & Hnext & _ & _ & _ & _ & Hev).
  - repeat constructor.
  - reflexivity.
  - exists m1, m3, cache3. split; [exact Hs1|]. split; [exact Hs3|].
    split; [exact (Hev [] m3 eq_refl)|]. split; [exact Hl3|].
    exact (proj1 (proj2 (proj2 (proj2 Hnext)))).
Defined.

(** C3: on the same entry, the producer of the second read fails too, with
    another error: [error] is ignored by the stopped subject, which holds
    the error of the first failure. *)
Lemma failure_keeps_first_error :
  ¬ (∀ (calls : list DemoCall) (m m' : DemoManager) t c cache' e now,
       exec js_truthy js_throws calls (new_manager 1000) = Some m →
       tasks m !! t = Some (Refresh_dataProvider c) →
       step js_truthy js_throws (Resume t (Rejected e) now) m = Some m' →
       heap m' !! c = Some cache' →
       ReplaySubject.thrownError (subject cache') = Some e).
Proof.
  intros Hclaim.
  assert (step js_truthy js_throws (Resume 1 (Rejected "again") 3)
            (after failed_then_refreshing)
          = Some (after (failed_then_refreshing ++ [Resume 1 (Rejected "again") 3])))
    as Hs by (vm_compute; reflexivity).
  assert (heap (after (failed_then_refreshing ++ [Resume 1 (Rejected "again") 3]))
            !! 0
          = Some (mkCache "A" [1] 7
                    (ReplaySubject.error "boom" (ReplaySubject.create 1)) false))
    as Hl by (vm_compute; reflexivity).
  pose proof (Hclaim _ _ _ 1 0 _ "again" 3%Z
                after_failed_then_refreshing_exec eq_refl Hs Hl) as Hno.
  vm_compute in Hno. discriminate Hno.
Qed.

(** The amended C3 at work: the producer of the first read of A fails, and
    the subject of the entry ends with its error; a producer invoked with
    no argument throws, and the subject ends with what it threw, also when
    it is an invalidation of everything that invokes it. *)
Lemma refresh_failure_witness :
  (∃ m1 cache1,
     step js_truthy js_throws (Resume 0 (Rejected "boom") 1) (after read_A) = Some m1
     ∧ trace m1 = trace (after read_A) ++ [EvError 0 0 "boom"]
     ∧ tasks m1 !! 0 = Some (Settled None)
     ∧ heap m1 !! 0 = Some cache1
     ∧ ReplaySubject.thrownError (subject cache1) = Some "boom")
  ∧ (∃ m1 cache1,
       _refreshCacheData js_throws 0 0
         (after [CallGetCache "A" [] 7; CallSubscribe 0]) = Some m1
       ∧ trace m1
         = trace (after [CallGetCache "A" [] 7; CallSubscribe 0])
           ++ [EvDataProvider 0 7 []; EvError 0 0 "no argument"]
       ∧ heap m1 !! 0 = Some cache1
       ∧ ReplaySubject.thrownError (subject cache1) = Some "no argument")
  ∧ (∃ m1 cache1,
       step js_truthy js_throws (Resume 2 Resolved 601) (after invalidate_A_noarg_B)
       = Some m1
       ∧ heap m1 !! 0 = Some cache1
       ∧ ReplaySubject.thrownError (subject cache1) = Some "no argument").
Proof.
  split; [|split]; cycle 2.
  { set (m1 := after (invalidate_A_noarg_B ++ [Resume 2 Resolved 601])).
    set (cache0 := mkCache (CallArgs:=list nat) (E:=string) "A" [] 7
                     (ReplaySubject.next 41
                        (ReplaySubject.subscribe 0 (ReplaySubject.create 1)))
                     true).
    assert (heap (after invalidate_A_noarg_B) !! 0 = Some cache0) as Hl0
      by (vm_compute; reflexivity).
    assert (step js_truthy js_throws (Resume 2 Resolved 601)
              (after invalidate_A_noarg_B) = Some m1) as Hs
      by (vm_compute; reflexivity).
    assert (heap m1 !! 0 = Some (on_subject (ReplaySubject.error "no argument") cache0))
      as Hl1 by (vm_compute; reflexivity).
    destruct (refresh_failure js_truthy js_throws 1000 invalidate_A_noarg_B
                (after invalidate_A_noarg_B) 0 cache0
                after_invalidate_A_noarg_B_exec Hl0)
      as (_ & _ & _ & Hheld).
    exists m1, (on_subject (ReplaySubject.error "no argument") cache0).
    split; [exact Hs|]. split; [exact Hl1|].
    rewrite (Hheld _ m1 _ Hs Hl1). vm_compute. reflexivity. }
  - destruct (refresh_failure js_truthy js_throws 1000 read_A (after read_A) 0
                (mkCache "A" [1] 7
                   (ReplaySubject.subscribe 0 (ReplaySubject.create 1)) false)
                after_read_A_exec eq_refl)
      as (_ & Hprod & _).
    destruct (Hprod 0 "boom" 1%Z eq_refl)
      as (m1 & cache1 & Hs & Htr & Hl & Hcalled & Ht & _).
    destruct Hcalled as (_ & _ & _ & _ & _ & Hfailed).
    exists m1, cache1. split; [exact Hs|]. split; [exact Htr|].
    split; [exact Ht|]. split; [exact Hl|exact (proj1 Hfailed)].
  - assert (exec js_truthy js_throws [CallGetCache "A" [] 7; CallSubscribe 0]
              (new_manager 1000)
            = Some (after [CallGetCache "A" [] 7; CallSubscribe 0])) as Hx
      by (vm_compute; reflexivity).
    destruct (refresh_failure js_truthy js_throws 1000
                [CallGetCache "A" [] 7; CallSubscribe 0]
                (after [CallGetCache "A" [] 7; CallSubscribe 0]) 0
                (mkCache "A" [] 7
                   (ReplaySubject.subscribe 0 (ReplaySubject.create 1)) false)
                Hx eq_refl)
      as (Hthrown & _).
    destruct (Hthrown 0 "no argument" ltac:(vm_compute; lia) eq_refl)
      as (m1 & cache1 & Hr & Htr & Hl & Hcalled & _).
    destruct Hcalled as (_ & _ & _ & _ & _ & Hfailed).
    exists m1, cache1. split; [exact Hr|]. split; [exact Htr|].
    split; [exact Hl|exact (proj1 Hfailed)].
Defined.

(** C4 at work: a second read of A, with other arguments, finds the entry
    of the first and leaves its arguments as they were. *)
Lemma getAndEnsureCache_witness :
  _getAndEnsureCache "A" [9] 8 (after read_A) = (after read_A, 0)
  ∧ ∃ cache', heap (getCache "A" [9] 8 (after read_A)).1 !! 0 = Some cache'
              ∧ lastArgs cache' = [1] ∧ context cache' = 7.
Proof.
  destruct (getAndEnsureCache_spec js_truthy js_throws (after read_A) "A" [9] 8)
    as (Hfound & _ & Hkept).
  split; [exact (Hfound 0 eq_refl)|].
  destruct (Hkept [CallGetCache "A" [9] 8] (getCache "A" [9] 8 (after read_A)).1 0
              (mkCache "A" [1] 7
                 (ReplaySubject.subscribe 0 (ReplaySubject.create 1)) false)
              eq_refl eq_refl)
    as (cache' & Hl & _ & Ha & Hc).
  exists cache'. split; [exact Hl|]. split; [exact Ha|exact Hc].
Defined.

(** C5 at work: with A observed and B not, a sweep with no exception keeps
    A alone. *)
Lemma sweep_witness :
  _cacheStore
    (_removeUnobservedCachesAsync None
       (after [CallGetCache "A" [1] 7; CallSubscribe 0; CallGetCache "B" [2] 7]))
  = [("A", 0)].
Proof.
  assert (JsMap.wf
            (_cacheStore
               (after [CallGetCache "A" [1] 7; CallSubscribe 0;
                       CallGetCache "B" [2] 7]))) as Hwf.
  { unfold JsMap.wf. apply (bool_decide_unpack (NoDup _)). vm_compute. exact I. }
  destruct (sweep_removes_exactly_unobserved _ None Hwf) as [Hst _].
  exact (eq_trans Hst eq_refl).
Defined.



Lemma after_read_A_done_exec :
  exec js_truthy js_throws read_A_done (new_manager 1000) = Some (after read_A_done).
Proof. vm_compute. reflexivity. Qed.

Lemma after_invalidate_A_failed_exec :
  exec js_truthy js_throws invalidate_A_failed (new_manager 1000)
  = Some (after invalidate_A_failed).
Proof. vm_compute. reflexivity. Qed.

Lemma after_failed_then_retried_exec :
  exec js_truthy js_throws failed_then_retried (new_manager 1000)
  = Some (after failed_then_retried).
Proof. vm_compute. reflexivity. Qed.

(** C7: after the producer of a first read failed and a second read of the
    key refreshed with success, the entry is initialized although no value
    was ever published with effect on its subject, which the failure had
    stopped. *)
Lemma initialized_without_publication :
  ¬ (∀ (calls : list DemoCall) (m : DemoManager) c cache,
       exec js_truthy js_throws calls (new_manager 1000) = Some m →
       heap m !! c = Some cache → initialized cache = true →
       ReplaySubject.published (channel_ops c (trace m)) ≠ []).
Proof.
  intros Hclaim.
  apply (Hclaim failed_then_retried (after failed_then_retried) 0
           (mkCache "A" [1] 7
              (ReplaySubject.error "boom" (ReplaySubject.create 1)) true)
           after_failed_then_retried_exec eq_refl eq_refl).
  reflexivity.
Qed.

(** The flag at work on the entry of A after its first refresh. *)
Lemma initialized_flag_witness :
  initialized
    (mkCache (E:=string) "A" [1] 7
       (ReplaySubject.next 41 (ReplaySubject.subscribe 0 (ReplaySubject.create 1)))
       true)
  = existsb (is_next_on 0) (trace (after read_A_done)).
Proof.
  exact (proj1 (initialized_flag js_truthy js_throws 1000 read_A_done (after read_A_done) 0 _
                  after_read_A_done_exec eq_refl)).
Defined.


(** C9: the entry of A holds 41 when the refresh of its invalidation
    fails; a subscription made after the failure is handed 41, then the
    error. *)
Lemma late_subscriber_replayed_after_error :
  ¬ (∀ (calls : list DemoCall) (m m' : DemoManager) c cache cache' e,
       exec js_truthy js_throws calls (new_manager 1000) = Some m →
       heap m !! c = Some cache →
       ReplaySubject.thrownError (subject cache) = Some e →
       step js_truthy js_throws (CallSubscribe c) m = Some m' →
       heap m' !! c = Some cache' →
       ReplaySubject.received (nextSub m) (subject cache')
       = [ReplaySubject.NError e]).
Proof.
  intros Hclaim.
  set (cache := mkCache (CacheKey:=string) (CallArgs:=list nat) (CallContext:=nat)
                  (E:=string) "A" [1] 7
                  (ReplaySubject.error "boom"
                     (ReplaySubject.next 41
                        (ReplaySubject.subscribe 0 (ReplaySubject.create 1))))
                  true).
  assert (heap (after invalidate_A_failed) !! 0 = Some cache) as Hl
    by (vm_compute; reflexivity).
  assert (ReplaySubject.thrownError (subject cache) = Some "boom") as Herr
    by (vm_compute; reflexivity).
  assert (step js_truthy js_throws (CallSubscribe 0) (after invalidate_A_failed)
          = Some (after (invalidate_A_failed ++ [CallSubscribe 0]))) as Hs
    by (vm_compute; reflexivity).
  assert (heap (after (invalidate_A_failed ++ [CallSubscribe 0])) !! 0
          = Some (on_subject (ReplaySubject.subscribe 1) cache)) as Hl'
    by (vm_compute; reflexivity).
  pose proof (Hclaim _ _ _ _ _ _ _ after_invalidate_A_failed_exec Hl Herr Hs Hl')
    as Hno.
  vm_compute in Hno. discriminate Hno.
Qed.

(** The amended C9 at work on the same run. *)
Lemma error_terminal_witness :
  ∃ m2, step js_truthy js_throws (CallSubscribe 0) (after invalidate_A_failed) = Some m2
    ∧ ∀ cache3, heap m2 !! 0 = Some cache3 →
        ReplaySubject.received 1 (subject cache3)
        = [ReplaySubject.NNext 41; ReplaySubject.NError "boom"].
Proof.
  destruct (error_terminal js_truthy js_throws 1000 invalidate_A_failed
              (after invalidate_A_failed) 0
              (mkCache "A" [1] 7
                 (ReplaySubject.error "boom"
                    (ReplaySubject.next 41
                       (ReplaySubject.subscribe 0 (ReplaySubject.create 1))))
                 true)
              "boom" after_invalidate_A_failed_exec eq_refl eq_refl)
    as (_ & Hlater).
  destruct (Hlater [] (after invalidate_A_failed) eq_refl)
    as (cache1 & m2 & _ & _ & _ & Hs & Hrecv).
  exists m2. split; [exact Hs|]. intros cache3 Hl.
  exact (Hrecv [] m2 cache3 eq_refl Hl).
Defined.

(** C10 at work: the record written by the first refresh of A. *)
Lemma stored_maxAge_witness :
  maxAgeMS (mkCacheData 41 1000 5) = 1000%Z
  ∧ _maxAgeInMS (after read_A_done) = 1000%Z.
Proof.
  apply (stored_maxAge_is_the_managers js_truthy js_throws 1000 read_A_done
           (after read_A_done) 0 "A" (mkCacheData 41 1000 5)
           after_read_A_done_exec).
  vm_compute. do 3 apply list_elem_of_further. apply list_elem_of_here.
Defined.

(** *** Further runs *)

(** The third read, of key C, sweeps the entry of B, which nobody observes;
    the entry of A, observed, stays. *)
Example third_read_sweeps_B :
  _cacheStore (after three_reads) = [("A", 0); ("C", 2)].
Proof. vm_compute. reflexivity. Qed.

(** An empty string is a falsy key: invalidating it targets every key of
    the store. *)
Example invalidate_empty_key_targets_all :
  allToInvalidateAndUpdate js_truthy (Some EmptyString) (after three_reads)
  = ["A"; "C"].
Proof. vm_compute. reflexivity. Qed.

(** A second failure on a subject already stopped is ignored: the subject
    keeps the error of the first. *)
Example second_failure_keeps_first_error :
  ReplaySubject.thrownError
    (ReplaySubject.error "again"
       (ReplaySubject.error "boom" (ReplaySubject.create (T:=nat) 1)))
  = Some "boom".
Proof. reflexivity. Qed.

(** ** The further properties at work *)

Lemma after_three_reads_exec :
  exec js_truthy js_throws three_reads (new_manager 1000) = Some (after three_reads).
Proof. vm_compute. reflexivity. Qed.

Lemma after_first_read_A_exec :
  exec js_truthy js_throws first_read_A (new_manager 1000) = Some (after first_read_A).
Proof. vm_compute. reflexivity. Qed.

Lemma after_invalidate_A_exec :
  exec js_truthy js_throws invalidate_A (new_manager 1000) = Some (after invalidate_A).
Proof. vm_compute. reflexivity. Qed.

Lemma after_invalidate_A_removed_exec :
  exec js_truthy js_throws invalidate_A_removed (new_manager 1000)
  = Some (after invalidate_A_removed).
Proof. vm_compute. reflexivity. Qed.

Lemma after_overlapping_refreshes_exec :
  exec js_truthy js_throws overlapping_refreshes (new_manager 1000)
  = Some (after overlapping_refreshes).
Proof. vm_compute. reflexivity. Qed.

Lemma three_reads_wf : JsMap.wf (_cacheStore (after three_reads)).
Proof. unfold JsMap.wf. apply (bool_decide_unpack (NoDup _)). vm_compute. exact I. Qed.

Lemma read_A_wf : JsMap.wf (_cacheStore (after read_A)).
Proof. unfold JsMap.wf. apply (bool_decide_unpack (NoDup _)). vm_compute. exact I. Qed.


Lemma read_A_done_wf : JsMap.wf (_cacheStore (after read_A_done)).
Proof. unfold JsMap.wf. apply (bool_decide_unpack (NoDup _)). vm_compute. exact I. Qed.

(** X1 at work: after the three reads the store has keys A and C, once
    each, and C is mapped to the entry made for it. *)
Lemma single_entry_per_key_witness :
  NoDup (JsMap.keys (_cacheStore (after three_reads)))
  ∧ JsMap.get "C" (_cacheStore (after three_reads)) = Some 2.
Proof.
  destruct (single_entry_per_key js_truthy js_throws 1000 three_reads (after three_reads)
              after_three_reads_exec) as (Hnd & Hget & _).
  split; [exact Hnd|]. refine (proj1 (Hget "C" 2 _)).
  vm_compute. apply list_elem_of_further, list_elem_of_here.
Defined.

(** X2 at work: key B, which nobody subscribes to, is read twice; the
    second read returns the entry of the first. *)
Lemma reads_share_the_entry_witness :
  (getCache "B" [3] 8 (getCache "B" [2] 7 (after read_A)).1).2
  = (getCache "B" [2] 7 (after read_A)).2
  ∧ heap (getCache "B" [3] 8 (getCache "B" [2] 7 (after read_A)).1).1
    = heap (getCache "B" [2] 7 (after read_A)).1.
Proof.
  destruct (reads_share_the_entry (after read_A) "B" [2] [3] 7 8 read_A_wf)
    as (_ & H2 & H3 & _).
  split; [exact H2|exact H3].
Defined.

(** X4 at work: the task of the first read of A has called getAsync, the
    producer, storeAsync and next, in that order. *)
Lemma task_histories_witness :
  List.map event_kind (task_events 0 (trace (after read_A_done)))
  ∈ histories (Settled None : @Task string nat string).
Proof.
  destruct (task_histories js_truthy js_throws 1000 read_A_done (after read_A_done)
              after_read_A_done_exec) as [Hh _].
  exact (Hh 0 (Settled None) eq_refl).
Defined.

(** X5 at work: the durable store fails the first read of A. *)
Lemma getAsync_rejection_witness :
  tasks (after (first_read_A ++ [Resume 0 (Rejected "down") 1; CallSubscribe 0]))
    !! 0 = Some (Settled (Some "down"))
  ∧ List.map event_kind
      (task_events 0
         (trace (after (first_read_A
                        ++ [Resume 0 (Rejected "down") 1; CallSubscribe 0]))))
    = [KGetAsync].
Proof.
  destruct (getAsync_rejection_is_silent js_truthy js_throws 1000 first_read_A
              (after first_read_A) 0 "A" 0 "down" 1%Z
              after_first_read_A_exec eq_refl) as [_ H].
  apply (H [CallSubscribe 0]). vm_compute. reflexivity.
Defined.

(** X6 at work: the durable store fails the removal of A's record. *)
Lemma removeAsync_rejection_witness :
  tasks (after (invalidate_A ++ [Resume 1 (Rejected "down") 11])) !! 1
  = Some (Settled (Some "down"))
  ∧ List.map event_kind
      (task_events 1
         (trace (after (invalidate_A ++ [Resume 1 (Rejected "down") 11]))))
    = [KRemoveAsync].
Proof.
  destruct (removeAsync_rejection_stops_invalidation js_truthy js_throws 1000 invalidate_A
              (after invalidate_A) 1 ["A"] "down" 11%Z
              after_invalidate_A_exec eq_refl) as [_ H].
  apply (H []). vm_compute. reflexivity.
Defined.

(** X7 at work: the invalidation of A waits for one refresh; the producer
    fails it; the refresh is resolved and the invalidation still pending. *)
Lemma invalidation_awaits_refreshes_witness :
  Forall (λ t', ∃ task, tasks (after invalidate_A_failed) !! t' = Some task
                        ∧ refresh_call task = true) [2]
  ∧ (tasks (after invalidate_A_failed) !! 1 = Some (Invalidate_all [2])
     ∨ tasks (after invalidate_A_failed) !! 1 = Some (Settled None)).
Proof.
  apply (invalidation_awaits_refreshes js_truthy js_throws 1000 invalidate_A_removed
           (after invalidate_A_removed) 1 [2]
           after_invalidate_A_removed_exec eq_refl
           [Resume 2 (Rejected "boom") 12]).
  vm_compute. reflexivity.
Defined.

(** X8 at work: the refresh of A publishes; the entry of B is as it was. *)
Lemma calls_change_their_entry_only_witness :
  heap (after (read_A_B ++ [Resume 0 Resolved 6])) !! 1
  = Some (mkCache "B" [2] 7
            (ReplaySubject.subscribe 1 (ReplaySubject.create 1)) false)
  ∧ _cacheStore (after (read_A_B ++ [Resume 0 Resolved 6]))
    = _cacheStore (after read_A_B).
Proof.
  assert (step js_truthy js_throws (Resume 0 Resolved 6) (after read_A_B)
          = Some (after (read_A_B ++ [Resume 0 Resolved 6]))) as Hs
    by (vm_compute; reflexivity).
  destruct (calls_change_their_entry_only js_truthy js_throws _ _ _ Hs)
    as (Hheap & _ & Hstore).
  split; [|exact Hstore]. apply Hheap; [vm_compute; reflexivity|].
  assert (call_entries (after read_A_B) (Resume 0 Resolved 6) = [0]) as ->
    by (vm_compute; reflexivity).
  apply not_elem_of_cons. split; [lia|apply not_elem_of_nil].
Defined.

(** X9 at work: the entry of A failed while it had a subscriber; the call of
    an invalidation of A drops it, and a read of A gets it again. *)
Lemma failed_entry_is_collected_witness :
  JsMap.get "A"
    (_cacheStore (invalidateAndUpdateAsync (Some "A") (after invalidate_A_failed)).1)
  = None
  ∧ (getCache "A" [1] 7 (after invalidate_A_failed)).2 = 0.
Proof.
  destruct (failed_entry_is_collected js_truthy js_throws 1000 invalidate_A_failed
              (after invalidate_A_failed) "A" 0
              (mkCache "A" [1] 7
                 (ReplaySubject.error "boom"
                    (ReplaySubject.next 41
                       (ReplaySubject.subscribe 0 (ReplaySubject.create 1))))
                 true)
              "boom" after_invalidate_A_failed_exec eq_refl eq_refl eq_refl)
    as (_ & _ & Hinv & _ & Hread).
  split; [exact (Hinv (Some "A"))|exact (proj1 (Hread [1] 7))].
Defined.

(** X10 at work: the subscriber of A closes its subscription; a read of B
    then drops the entry of A. *)
Lemma last_unsubscribe_witness :
  ∃ m', step js_truthy js_throws (CallUnsubscribe 0 0) (after read_A_done) = Some m'
    ∧ JsMap.get "A" (_cacheStore (getCache "B" [2] 7 m').1) = None.
Proof.
  assert (JsMap.get "A" (_cacheStore (after read_A_done)) = Some 0) as Hg
    by (vm_compute; reflexivity).
  destruct (last_unsubscribe_makes_collectable js_truthy js_throws (after read_A_done) "A" 0
              (mkCache "A" [1] 7
                 (ReplaySubject.next 41
                    (ReplaySubject.subscribe 0 (ReplaySubject.create 1)))
                 true)
              0 read_A_done_wf Hg eq_refl eq_refl)
    as (_ & m' & Hs & _ & _ & _ & Hread).
  exists m'. split; [exact Hs|]. apply Hread. discriminate.
Defined.

(** X11 at work: after the three reads, a sweep that excepts C and then a
    sweep with no exception leave what the second alone leaves. *)
Lemma sweep_idempotent_witness :
  _removeUnobservedCachesAsync None
    (_removeUnobservedCachesAsync (Some "C") (after three_reads))
  = _removeUnobservedCachesAsync None (after three_reads).
Proof.
  exact (proj2 (sweep_idempotent (after three_reads) (Some "C") three_reads_wf)).
Defined.


(** X13 at work: after the three reads, an invalidation with the empty
    string for a key refreshes A, the one entry observed. *)
Lemma invalidate_all_witness :
  ∃ m3,
    exec js_truthy js_throws [CallInvalidate (Some EmptyString); Resume 3 Resolved 1;
                    Resume 3 Resolved 2] (after three_reads) = Some m3
    ∧ _cacheStore m3 = [("A", 0)]
    ∧ trace m3
      = trace (after three_reads)
        ++ [EvRemoveAsync 3 ["A"]; EvDataProvider 4 7 [1]].
Proof.
  destruct (invalidate_all_refreshes_the_observed js_truthy js_throws 1000 three_reads
              (after three_reads) (Some EmptyString) 1 2
              after_three_reads_exec eq_refl)
    as (m3 & new & Hx & Hst & Htr & _).
  exists m3. split; [exact Hx|].
  split; [exact (eq_trans Hst eq_refl)|exact (eq_trans Htr eq_refl)].
Defined.

(** X14 at work: two reads of A on a new manager, answered with no record. *)
Lemma concurrent_reads_witness :
  ∃ m4 : DemoManager,
    exec js_truthy js_throws [CallGetCache "A" [1] 7; CallGetCache "A" [2] 8;
                    Resume 0 (GetResolved None) 0; Resume 1 (GetResolved None) 0]
      (new_manager 1000) = Some m4
    ∧ trace m4
      = [EvGetAsync 0 "A"; EvGetAsync 1 "A";
         EvDataProvider 0 7 [1]; EvDataProvider 1 7 [1]].
Proof.
  destruct (concurrent_reads_each_refresh js_truthy js_throws 1000 []
              (new_manager 1000 : DemoManager) "A" [1] [2] 7 8 0 0 eq_refl)
    as (cache & m4 & task3 & task4 & Hrun).
  cbv zeta in Hrun. destruct Hrun as (Hl & Hx & Htr & _).
  exists m4. split; [exact Hx|].
  vm_compute in Hl. injection Hl as <-. exact Htr.
Defined.

(** X15 at work: the refresh of A, waiting for the producer, can be resumed
    with a value and with a failure. *)
Lemma pending_tasks_can_resume_witness :
  is_Some (step js_truthy js_throws (Resume 0 (ProviderResolved 41) 5) (after read_A))
  ∧ is_Some (step js_truthy js_throws (Resume 0 (Rejected "boom") 5) (after read_A)).
Proof.
  destruct (pending_tasks_can_resume js_truthy js_throws 1000 read_A (after read_A) 0
              (Refresh_dataProvider 0) 5 after_read_A_exec eq_refl)
    as [Hv He].
  split; [exact (Hv 41)|exact (He "boom")].
Defined.

(** X16 at work: the refresh started second has its write settled first; the
    entry keeps the value of the refresh started first. *)
Lemma last_completed_refresh_witness :
  ∃ m2 cache2,
    exec js_truthy js_throws [Resume 1 Resolved 3; Resume 0 Resolved 4]
      (after overlapping_refreshes) = Some m2
    ∧ heap m2 !! 0 = Some cache2
    ∧ ReplaySubject._buffer (subject cache2) = [1].
Proof.
  destruct (last_completed_refresh_wins js_truthy js_throws 1000 overlapping_refreshes
              (after overlapping_refreshes) 1 0 0 2 1
              (mkCache "A" [1] 7
                 (ReplaySubject.subscribe 0 (ReplaySubject.create 1)) false)
              3 4 after_overlapping_refreshes_exec eq_refl eq_refl
              ltac:(discriminate) eq_refl eq_refl)
    as (m2 & cache2 & Hx & Hl & Hbuf & _).
  exists m2, cache2. split; [exact Hx|]. split; [exact Hl|exact Hbuf].
Defined.

(** X17 at work: a second subscriber of A, joining after 41 was published,
    is handed 41, then the 42 that the refresh of an invalidation
    publishes. *)
Lemma subscriber_view_witness :
  ∃ m', step js_truthy js_throws (CallSubscribe 0) (after read_A_done) = Some m'
    ∧ ∀ cache'',
        heap (after (read_A_done ++ CallSubscribe 0 :: resubscribed_and_refreshed))
          !! 0 = Some cache'' →
        ReplaySubject.received 1 (subject cache'')
        = [ReplaySubject.NNext 41; ReplaySubject.NNext 42].
Proof.
  destruct (subscriber_view js_truthy js_throws 1000 read_A_done (after read_A_done) 0
              (mkCache "A" [1] 7
                 (ReplaySubject.next 41
                    (ReplaySubject.subscribe 0 (ReplaySubject.create 1)))
                 true)
              after_read_A_done_exec eq_refl eq_refl) as (m' & Hs & Hview).
  exists m'. split; [exact Hs|]. intros cache'' Hl.
  assert (Some m' = Some (after (read_A_done ++ [CallSubscribe 0]))) as Hm'
    by (rewrite <- Hs; vm_compute; reflexivity).
  injection Hm' as ->.
  assert (exec js_truthy js_throws resubscribed_and_refreshed
            (after (read_A_done ++ [CallSubscribe 0]))
          = Some (after (read_A_done
                         ++ CallSubscribe 0 :: resubscribed_and_refreshed))) as Hx
    by (vm_compute; reflexivity).
  assert (EvUnsubscribe 0 (nextSub (after read_A_done))
          ∉ trace (after (read_A_done
                          ++ CallSubscribe 0 :: resubscribed_and_refreshed)))
    as Hstay.
  { vm_compute. intros Hin.
    repeat (apply elem_of_cons in Hin as [Heq|Hin]; [discriminate Heq|]).
    by apply elem_of_nil in Hin. }
  pose proof (Hview _ _ cache'' Hx Hl Hstay) as Hrecv.
  vm_compute in Hl. injection Hl as <-. exact Hrecv.
Defined.

(** X18 at work: a read of B leaves the entry of A, which is observed. *)
Lemma observed_entry_survives_witness :
  JsMap.get "A" (_cacheStore (getCache "B" [2] 7 (after read_A)).1) = Some 0.
Proof.
  assert (JsMap.get "A" (_cacheStore (after read_A)) = Some 0) as Hg
    by (vm_compute; reflexivity).
  exact (observed_entry_survives js_truthy js_throws (CallGetCache "B" [2] 7) (after read_A)
           _ "A" 0
           (mkCache "A" [1] 7
              (ReplaySubject.subscribe 0 (ReplaySubject.create 1)) false)
           read_A_wf eq_refl Hg eq_refl eq_refl).
Defined.

(** X19 at work: B, read and not subscribed to, is dropped by a read of C; a
    read of B then makes a new entry, the fourth. *)
Lemma recreated_after_collection_witness :
  (getCache "B" [9] 8 (getCache "C" [3] 7 (after read_A_then_B)).1).2 = 3
  ∧ heap (getCache "B" [9] 8 (getCache "C" [3] 7 (after read_A_then_B)).1).1 !! 3
    = Some (mkCache "B" [9] 8 (ReplaySubject.create 1) false).
Proof.
  assert (JsMap.wf (_cacheStore (after read_A_then_B))) as Hwf.
  { unfold JsMap.wf. apply (bool_decide_unpack (NoDup _)). vm_compute. exact I. }
  assert (JsMap.get "B" (_cacheStore (after read_A_then_B)) = Some 1) as Hg
    by (vm_compute; reflexivity).
  destruct (recreated_after_collection (after read_A_then_B) "B" "C" 1
              (mkCache "B" [2] 7 (ReplaySubject.create 1) false)
              [9] [3] 8 7 Hwf Hg eq_refl eq_refl ltac:(discriminate))
    as (_ & Hc2 & _ & Hnew & _).
  split; [exact (eq_trans Hc2 eq_refl)|exact Hnew].
Defined.

(** X20 at work: the first read of A on a new manager. *)
Lemma read_refreshes_and_delivers_witness :
  ∃ (m5 : DemoManager) cache5,
    exec js_truthy js_throws read_A_done (new_manager 1000) = Some m5
    ∧ heap m5 !! 0 = Some cache5
    ∧ ReplaySubject.received 0 (subject cache5) = [ReplaySubject.NNext 41].
Proof.
  destruct (read_refreshes_and_delivers js_truthy js_throws (new_manager 1000 : DemoManager)
              "A" [1] 7 None 41 0 5 6 eq_refl eq_refl eq_refl)
    as (m5 & cache5 & Hx & _ & _ & Hl & Hrecv & _).
  exists m5, cache5. split; [exact Hx|]. split; [exact Hl|exact Hrecv].
Defined.

(** X21 at work: the subject of A after its first refresh is the one made
    at the read, subscribed to and published on once. *)
Lemma subject_never_replaced_witness :
  ReplaySubject.next 41 (ReplaySubject.subscribe 0 (ReplaySubject.create 1))
  = ReplaySubject.run (channel_ops (T:=nat) (E:=string) 0 (trace (after read_A_done)))
      (ReplaySubject.create 1).
Proof.
  exact (proj1 (subject_never_replaced js_truthy js_throws 1000 read_A_done
                  (after read_A_done) 0
                  (mkCache "A" [1] 7
                     (ReplaySubject.next 41
                        (ReplaySubject.subscribe 0 (ReplaySubject.create 1)))
                     true)
                  after_read_A_done_exec eq_refl)).
Defined.
